(** * classcentral_crawler: the discovery-and-fetch orchestrator

    A shallow embedding of [src/classcentral_crawler/crawler.py] (with the
    parts of [config.py], [models.py], [exporters.py], [main.py] and
    [parsers.py] it relies on) and the properties of its URL
    canonicalisation, listing walkers, retrying fetcher and detail
    fetcher.

    Python [str] values are modelled as [string]; the text-processing
    library underneath ([urllib.parse]) works on [list ascii], one
    character per code point below 256.  A call that may raise returns a
    sum, the exception on the left; a call that may also block for ever
    returns an [Outcome]. *)

From Stdlib Require Import String Ascii List NArith ZArith Lia Bool DecimalString
  DecimalZ.
From stdpp Require Import base option list gmap strings sorting.

Local Open Scope string_scope.
Local Open Scope list_scope.
Set Warnings "-register-all,-clear-no-such-hyp".

Abbreviation text := (list ascii).

(** ** Characters and text *)

Module Text.

Definition lit (s : string) : text := list_ascii_of_string s.
Definition str (t : text) : string := string_of_list_ascii t.

Definition code (c : ascii) : N := N_of_ascii c.

Definition in_range (lo hi : N) (c : ascii) : bool :=
  (lo <=? code c)%N && (code c <=? hi)%N.

Definition is_char (d c : ascii) : bool := Ascii.eqb d c.
Global Arguments is_char : simpl never.

(** [c.isascii() and c.isalpha()] *)
Definition is_ascii_alpha (c : ascii) : bool :=
  in_range 65 90 c || in_range 97 122 c.

Definition is_digit (c : ascii) : bool := in_range 48 57 c.

(** One character of [str.lower()]: A-Z, and the upper-case letters of
    the Latin-1 block (U+00C0..U+00DE without the multiplication sign). *)
Definition lower_char (c : ascii) : ascii :=
  if in_range 65 90 c || (in_range 192 222 c && negb (code c =? 215)%N)
  then ascii_of_N (code c + 32)
  else c.

Definition lower (t : text) : text := map lower_char t.

(** [break p t]: the longest prefix of [t] free of [p], and the rest
    (empty, or starting at the first character satisfying [p]). *)
Fixpoint break (p : ascii -> bool) (t : text) : text * text :=
  match t with
  | [] => ([], [])
  | c :: r =>
      if p c then ([], t)
      else let '(a, b) := break p r in (c :: a, b)
  end.

(** [t.split(d)[0]] *)
Definition before (d : ascii) (t : text) : text := fst (break (is_char d) t).

(** [if d in t: a, b = t.split(d, 1)], else [(t, '')] *)
Definition split_once (d : ascii) (t : text) : text * text :=
  match break (is_char d) t with
  | (a, _ :: b) => (a, b)
  | (_, []) => (t, [])
  end.

(** [t.split(d)] *)
Fixpoint split_on (d : ascii) (t : text) : list text :=
  match t with
  | [] => [[]]
  | c :: r =>
      if is_char d c then [] :: split_on d r
      else match split_on d r with
           | h :: tl => (c :: h) :: tl
           | [] => [[c]]
           end
  end.

(** [d.join(segs)] *)
Fixpoint join (d : ascii) (segs : list text) : text :=
  match segs with
  | [] => []
  | [s] => s
  | s :: rest => s ++ d :: join d rest
  end.

Fixpoint starts_with (pre t : text) : bool :=
  match pre, t with
  | [], _ => true
  | _ :: _, [] => false
  | a :: pre', b :: t' => Ascii.eqb a b && starts_with pre' t'
  end.

(** [needle in t] *)
Fixpoint contains (needle t : text) : bool :=
  starts_with needle t ||
  match t with
  | [] => false
  | _ :: r => contains needle r
  end.

Definition has (d : ascii) (t : text) : bool := existsb (is_char d) t.

Definition nonempty (t : text) : bool :=
  match t with [] => false | _ => true end.

(** [free p t]: no character of [t] satisfies [p]. *)
Definition free (p : ascii -> bool) (t : text) : Prop :=
  forallb (fun c => negb (p c)) t = true.

(** [stops_at p t]: [t] is empty or starts with a character satisfying [p]. *)
Definition stops_at (p : ascii -> bool) (t : text) : Prop :=
  match t with [] => True | c :: _ => p c = true end.

(** The part of a path after its last [/]. *)
Definition last_segment (t : text) : text := List.last (split_on "/" t) [].

End Text.

(** ** [urllib.parse]

    [urljoin] as CPython implements it (RFC 3986 resolution), with
    [urlsplit], [urlparse], [urlunsplit] and [urlunparse] underneath.
    [urlsplit] raises [ValueError] on a network location it does not
    accept, and [urlparse] and [urljoin] with it; a raised [ValueError] is
    [None] here.  The scheme tables are those of CPython 3.12; earlier
    versions lack an entry or two, none of them [http] or [https]. *)

(** Two of the tests [urlsplit] makes on a network location are library
    routines of their own, which depend on the interpreter's version and
    on its Unicode tables; they are taken as they come.  The first is
    consulted for a location with both brackets only, the second for a
    location with a character outside ASCII only. *)
Class HostValidation := {
  bracketed_netloc_ok : text -> bool; (* _check_bracketed_netloc(netloc) returns *)
  nfkc_netloc_ok : text -> bool }.    (* the NFKC test of _checknetloc(netloc) passes *)

Module Urllib.
Import Text.

Record ParseResult := mkParse {
  scheme : text; netloc : text; path : text;
  params : text; query : text; fragment : text }.

Definition uses_relative : list text :=
  map lit [""; "ftp"; "http"; "gopher"; "nntp"; "imap"; "wais"; "file";
           "https"; "shttp"; "mms"; "prospero"; "rtsp"; "rtsps"; "rtspu";
           "sftp"; "svn"; "svn+ssh"; "ws"; "wss"].

Definition uses_netloc : list text :=
  map lit [""; "ftp"; "http"; "gopher"; "nntp"; "telnet"; "imap"; "wais";
           "file"; "mms"; "https"; "shttp"; "snews"; "prospero"; "rtsp";
           "rtsps"; "rtspu"; "rsync"; "svn"; "svn+ssh"; "sftp"; "nfs";
           "git"; "git+ssh"; "ws"; "wss"; "itms-services"].

Definition uses_params : list text :=
  map lit [""; "ftp"; "hdl"; "prospero"; "http"; "imap"; "https"; "shttp";
           "rtsp"; "rtsps"; "rtspu"; "sip"; "sips"; "mms"; "sftp"; "tel"].

Definition member (t : text) (l : list text) : bool := bool_decide (t ∈ l).

Definition scheme_char (c : ascii) : bool :=
  is_ascii_alpha c || is_digit c
  || is_char "+" c || is_char "-" c || is_char "." c.

(** [_WHATWG_C0_CONTROL_OR_SPACE]: U+0000..U+0020 *)
Definition c0_control_or_space (c : ascii) : bool := (code c <=? 32)%N.

(** [_UNSAFE_URL_BYTES_TO_REMOVE]: tab, carriage return, line feed *)
Definition unsafe_byte (c : ascii) : bool :=
  (code c =? 9)%N || (code c =? 13)%N || (code c =? 10)%N.

Fixpoint lstrip (t : text) : text :=
  match t with
  | [] => []
  | c :: r => if c0_control_or_space c then lstrip r else t
  end.

Definition strip (t : text) : text := rev (lstrip (rev (lstrip t))).

Definition remove_unsafe (t : text) : text :=
  List.filter (fun c => negb (unsafe_byte c)) t.

(** [i = url.find(':')], then the test on [url[:i]] *)
Definition split_scheme (default url : text) : text * text :=
  match break (is_char ":") url with
  | (c :: pre, _ :: rest) =>
      if is_ascii_alpha c && forallb scheme_char (c :: pre)
      then (lower (c :: pre), rest)
      else (default, url)
  | _ => (default, url)
  end.

Definition netloc_delim (c : ascii) : bool :=
  is_char "/" c || is_char "?" c || is_char "#" c.

(** [if url[:2] == '//': netloc, url = _splitnetloc(url, 2)] *)
Definition split_netloc (url : text) : text * text :=
  match url with
  | "/"%char :: "/"%char :: r => break netloc_delim r
  | _ => ([], url)
  end.

(** *** What the calls return when they return

    [split_url], [parse_url] and [join_url] are [urlsplit], [urlparse] and
    [urljoin] without the tests on the network location. *)

Definition split_url (url default : text)
  : text * text * text * text * text :=
  let url := remove_unsafe (lstrip url) in
  let default := remove_unsafe (strip default) in
  let '(sch, url) := split_scheme default url in
  let '(nl, url) := split_netloc url in
  let '(url, frag) := split_once "#" url in
  let '(url, q) := split_once "?" url in
  (sch, nl, url, q, frag).

(** [_splitparams]: split at the first [;] found from the last [/] on. *)
Fixpoint splitparams (url : text) : text * text :=
  match url with
  | [] => ([], [])
  | c :: r =>
      if has "/" r
      then let '(a, p) := splitparams r in (c :: a, p)
      else split_once ";" url
  end.

Definition parse_url (url default : text) : ParseResult :=
  let '(sch, nl, url, q, frag) := split_url url default in
  let '(url, par) :=
    if member sch uses_params then splitparams url else (url, []) in
  mkParse sch nl url par q frag.

Definition urlunsplit (sch nl url q frag : text) : text :=
  let url :=
    if nonempty nl
       || (nonempty sch && member sch uses_netloc
           && negb (starts_with (lit "//") url))
    then lit "//" ++ nl
           ++ (if nonempty url && negb (starts_with (lit "/") url)
               then "/"%char :: url else url)
    else url in
  let url := if nonempty sch then sch ++ ":"%char :: url else url in
  let url := if nonempty q then url ++ "?"%char :: q else url in
  if nonempty frag then url ++ "#"%char :: frag else url.

Definition urlunparse (r : ParseResult) : text :=
  let url :=
    if nonempty (params r) then path r ++ ";"%char :: params r
    else path r in
  urlunsplit (scheme r) (netloc r) url (query r) (fragment r).

(** [segments[1:-1] = filter(None, segments[1:-1])] *)
Definition drop_inner_empty (segs : list text) : list text :=
  match segs with
  | h :: (_ :: _) as t =>
      h :: List.filter nonempty (removelast t) ++ [List.last t []]
  | _ => segs
  end.

Definition is_dot (seg : text) : bool := bool_decide (seg = lit ".").
Definition is_dotdot (seg : text) : bool := bool_decide (seg = lit "..").

(** The loop over [segments]; the stack is kept reversed, so [pop] is
    [tail] (a no-op on the empty stack, as the caught [IndexError]). *)
Fixpoint resolve_dots (rstack segs : list text) : list text :=
  match segs with
  | [] => rev rstack
  | seg :: rest =>
      if is_dotdot seg then resolve_dots (tail rstack) rest
      else if is_dot seg then resolve_dots rstack rest
      else resolve_dots (seg :: rstack) rest
  end.

Definition resolve_path (bpath upath : text) : text :=
  let base_parts := split_on "/" bpath in
  let base_parts :=
    if nonempty (List.last base_parts []) then removelast base_parts
    else base_parts in
  let segments :=
    if starts_with (lit "/") upath then split_on "/" upath
    else drop_inner_empty (base_parts ++ split_on "/" upath) in
  let resolved := resolve_dots [] segments in
  let final := List.last segments [] in
  let resolved :=
    if is_dot final || is_dotdot final then resolved ++ [[]]
    else resolved in
  match join "/" resolved with
  | [] => lit "/"
  | p => p
  end.

(** The body of [urljoin] below the two calls of [urlparse]. *)
Definition resolve (b u : ParseResult) (url : text) : text :=
  if negb (bool_decide (scheme u = scheme b))
     || negb (member (scheme u) uses_relative)
  then url
  else if member (scheme u) uses_netloc && nonempty (netloc u)
  then urlunparse u
  else
    let nl := if member (scheme u) uses_netloc then netloc b
              else netloc u in
    if negb (nonempty (path u)) && negb (nonempty (params u))
    then urlunparse
           (mkParse (scheme u) nl (path b) (params b)
              (if nonempty (query u) then query u else query b)
              (fragment u))
    else urlunparse
           (mkParse (scheme u) nl (resolve_path (path b) (path u))
              (params u) (query u) (fragment u)).

Definition join_url (base url : text) : text :=
  if negb (nonempty base) then url
  else if negb (nonempty url) then base
  else
    let b := parse_url base [] in
    let u := parse_url url (scheme b) in
    resolve b u url.

(** *** The calls *)

(** [('[' in netloc and ']' not in netloc) or
     (']' in netloc and '[' not in netloc)] *)
Definition unbalanced (nl : text) : bool :=
  (has "[" nl && negb (has "]" nl)) || (has "]" nl && negb (has "[" nl)).

(** [netloc.isascii()] *)
Definition isascii (t : text) : bool := forallb (fun c => (code c <? 128)%N) t.

(** The bracket tests sit in the [//] branch of [urlsplit]; outside of it
    the network location is empty, and passes them. *)
Definition urlsplit `{HostValidation} (url default : text)
  : option (text * text * text * text * text) :=
  let url := remove_unsafe (lstrip url) in
  let default := remove_unsafe (strip default) in
  let '(sch, url) := split_scheme default url in
  let '(nl, url) := split_netloc url in
  if unbalanced nl then None
  else if has "[" nl && has "]" nl && negb (bracketed_netloc_ok nl) then None
  else
    let '(url, frag) := split_once "#" url in
    let '(url, q) := split_once "?" url in
    (* _checknetloc(netloc) *)
    if nonempty nl && negb (isascii nl) && negb (nfkc_netloc_ok nl) then None
    else Some (sch, nl, url, q, frag).

Definition urlparse `{HostValidation} (url default : text)
  : option ParseResult :=
  match urlsplit url default with
  | None => None
  | Some (sch, nl, url, q, frag) =>
      let '(url, par) :=
        if member sch uses_params then splitparams url else (url, []) in
      Some (mkParse sch nl url par q frag)
  end.

Definition urljoin `{HostValidation} (base url : text) : option text :=
  if negb (nonempty base) then Some url
  else if negb (nonempty url) then Some base
  else
    match urlparse base [] with
    | None => None
    | Some b =>
        match urlparse url (scheme b) with
        | None => None
        | Some u => Some (resolve b u url)
        end
    end.

(** [urlsplit] accepts the network location. *)
Definition netloc_ok `{HostValidation} (nl : text) : bool :=
  negb (unbalanced nl)
  && negb (has "[" nl && has "]" nl && negb (bracketed_netloc_ok nl))
  && negb (nonempty nl && negb (isascii nl) && negb (nfkc_netloc_ok nl)).

(** [urljoin base url] returns. *)
Definition joinable `{HostValidation} (base url : text) : bool :=
  negb (nonempty base) || negb (nonempty url)
  || (netloc_ok (netloc (parse_url base []))
      && netloc_ok (netloc (parse_url url (scheme (parse_url base []))))).

(** *** Parse results that [urlunparse] and [parse_url] take to each other *)

(** The schemes for which [urljoin] resolves a reference against a base
    with a network location. *)
Definition relative_scheme (sch : text) : bool :=
  nonempty sch && member sch uses_relative && member sch uses_netloc
  && member sch uses_params.

Definition scheme_wf (sch : text) : bool :=
  match sch with
  | [] => false
  | c :: _ =>
      is_ascii_alpha c && forallb scheme_char sch
      && bool_decide (lower sch = sch)
      && bool_decide (remove_unsafe (strip sch) = sch)
  end.

Definition reserved (c : ascii) : bool :=
  is_char "#" c || is_char "?" c || unsafe_byte c.

Record canonical_parts (P : ParseResult) : Prop := mkCanonical {
  cp_scheme : relative_scheme (scheme P) = true;
  cp_netloc : netloc P <> [];
  cp_netloc_free : free netloc_delim (netloc P) /\ free unsafe_byte (netloc P);
  cp_rooted : stops_at (is_char "/") (path P);
  cp_joint : path P = [] -> params P = [];
  cp_tail : has ";" (last_segment (path P)) = false;
  cp_path : free reserved (path P);
  cp_params : free reserved (params P) /\ has "/" (params P) = false;
  cp_query : query P = [];
  cp_fragment : free unsafe_byte (fragment P) }.

(** The text [urlunparse] produces from canonical parts. *)
Definition unparsed (sch nl pa par fr : text) : text :=
  sch ++ ":"%char :: "/"%char :: "/"%char :: nl
      ++ (if nonempty par then pa ++ ";"%char :: par else pa)
      ++ (if nonempty fr then "#"%char :: fr else []).

(** [root t]: what [urlunsplit] makes of a path next to a network location. *)
Definition root (t : text) : text :=
  if nonempty t && negb (starts_with (lit "/") t) then "/"%char :: t else t.

(** The bases against which canonicalisation is stable: [parse_url] and
    [urlunparse] take the base to canonical parts and back, and it carries
    no [?]. *)
Definition base_ok (base : text) : Prop :=
  canonical_parts (parse_url base [])
  /\ urlunparse (parse_url base []) = base
  /\ has "?" base = false.

End Urllib.


(** ** [config.py] *)

Record CrawlConfig := mkConfig {
  base_url : string;
  listing_path : string;
  output_dir : string;
  max_listing_pages : Z;
  headless : bool;
  concurrency : Z;
  rate_limit_per_sec : Z * Z;        (* numerator, denominator *)
  max_retries : Z;
  timeout_seconds : Z }.

Definition default_config : CrawlConfig :=
  {| base_url := "https://www.classcentral.com";
     listing_path := "/subject";
     output_dir := "output";
     max_listing_pages := 200;
     headless := true;
     concurrency := 5;
     rate_limit_per_sec := (3, 2)%Z;
     max_retries := 4;
     timeout_seconds := 35 |}.

Definition listing_url (cfg : CrawlConfig) : string :=
  base_url cfg ++ listing_path cfg.

(** ** Exceptions

    Split the way the crawler's handlers tell them apart:
    [httpx.HTTPError] (its two subclasses), [json.JSONDecodeError], and
    every other [Exception]. *)

Inductive Exception :=
  | RequestError (what : string)      (* httpx.RequestError: connect, timeout, ... *)
  | HTTPStatusError (status : Z)      (* raised by raise_for_status *)
  | JSONDecodeError
  | OtherError (what : string).       (* any other Exception, e.g. httpx.InvalidURL *)

Definition ValueError : Exception := OtherError "ValueError".

(** What a call that may block for ever does. *)
Inductive Outcome (A : Type) :=
  | Returns (a : A)
  | Raises (e : Exception)
  | NeverReturns.
Arguments Returns {A} a.
Arguments Raises {A} e.
Arguments NeverReturns {A}.

(** ** Python built-ins used by the crawler *)

(** [str(n)] for an [int] *)
Definition str_of_int (n : Z) : string := NilEmpty.string_of_int (Z.to_int n).

(** [range(lo, hi)] *)
Definition range (lo hi : Z) : list Z :=
  map (fun i => (lo + Z.of_nat i)%Z) (seq 0 (Z.to_nat (hi - lo))).

(** [needle in s] on [str] *)
Definition contains (needle s : string) : bool :=
  Text.contains (Text.lit needle) (Text.lit s).

(** [s.lower()] *)
Definition lower (s : string) : string := Text.str (Text.lower (Text.lit s)).

(** [sorted(urls)] for a set of [str]: ascending in code-point order *)
Definition sorted (urls : gset string) : list string :=
  merge_sort String.le (elements urls).

(** [urljoin(base, url)] on [str] *)
Definition urljoin `{HostValidation} (base url : string) : Exception + string :=
  match Urllib.urljoin (Text.lit base) (Text.lit url) with
  | Some joined => inr (Text.str joined)
  | None => inl ValueError
  end.

(** The canonicalisation both walkers apply to a raw link:
    [urljoin(base_url, href.split("?")[0])]. *)
Definition canonical_url `{HostValidation} (base href : string)
  : Exception + string :=
  match Urllib.urljoin (Text.lit base) (Text.before "?" (Text.lit href)) with
  | Some joined => inr (Text.str joined)
  | None => inl ValueError
  end.

(** What the two return when they return, and whether they do. *)
Definition join_url (base url : string) : string :=
  Text.str (Urllib.join_url (Text.lit base) (Text.lit url)).

Definition canonical (base href : string) : string :=
  Text.str (Urllib.join_url (Text.lit base) (Text.before "?" (Text.lit href))).

Definition joins `{HostValidation} (base url : string) : bool :=
  Urllib.joinable (Text.lit base) (Text.lit url).

Definition canonicalises `{HostValidation} (base href : string) : bool :=
  Urllib.joinable (Text.lit base) (Text.before "?" (Text.lit href)).

(** Two URLs that differ only in their query string: [urlsplit] gives them
    the same scheme, network location, path and fragment. *)
Definition same_but_query `{HostValidation} (u1 u2 : string) : Prop :=
  match Urllib.urlsplit (Text.lit u1) [], Urllib.urlsplit (Text.lit u2) [] with
  | Some (s1, n1, p1, _, f1), Some (s2, n2, p2, _, f2) =>
      s1 = s2 /\ n1 = n2 /\ p1 = p2 /\ f1 = f2
  | _, _ => False
  end.

(** The base URLs on which canonicalisation is stable: [urlparse] and
    [urlunparse] take the base to canonical parts and back, and it carries
    no [?].  The default one is among them. *)
Definition stable_base `{HostValidation} (base : string) : Prop :=
  exists P, Urllib.urlparse (Text.lit base) [] = Some P
            /\ Urllib.canonical_parts P
            /\ Urllib.urlunparse P = Text.lit base
            /\ Text.has "?" (Text.lit base) = false.

(** ** [models.py] and the JSON values of [response.json()] *)

Inductive JSON :=
  | JNull
  | JBool (b : bool)
  | JInt (n : Z)
  | JFloat (literal : string)
  | JString (s : string)
  | JArray (items : list JSON)
  | JObject (members : list (string * JSON)).

Record CourseDetails := mkDetails {
  title : option string;
  provider_platform : option string;
  university : option string;
  instructors : list string;
  description : option string;
  rating : option (Z * Z);
  review_count : option Z;
  language : option string;
  level : option string;
  duration : option string;
  price : option string;
  certificate_availability : option string;
  enrollment_link : option string;
  image_url : option string;
  raw_jsonld : option JSON }.

Record CourseRecord := mkRecord { url : string; details : CourseDetails }.

(** ** The outside world *)

(** [response.json()] returns the decoded body or raises: a
    [JSONDecodeError] when the text is not JSON, another exception (a
    [UnicodeDecodeError], say) when the bytes are not text. *)
Record Response := mkResponse {
  status_code : Z;
  body : string;                      (* response.text *)
  json : Exception + JSON }.          (* response.json() *)

(** What one [client.get(url)] does. *)
Inductive Attempt :=
  | Got (r : Response)
  | Raised (e : Exception).

(** The network: for a URL, the outcome of the first, second, ... attempt
    of a fetch of that URL. *)
Definition Network := string -> nat -> Attempt.

(** The a-elements of a rendered document in document order, each with its
    [href] attribute when it has one. *)
Definition Document := list (option string).

Record Browser := mkBrowser {
  scrolled : string -> Document;  (* page.content() after goto and the load-more/scroll phase *)
  goto : string -> Document }.    (* page.content() after goto *)

(** The field extraction of [parse_course] on a page's markup and the base
    URL: the details, or the exception it raises. *)
Definition Extractor := string -> string -> Exception + CourseDetails.

Definition parse_course (extract : Extractor) (u html base : string)
  : Exception + CourseRecord :=
  match extract html base with
  | inl e => inl e
  | inr d => inr (mkRecord u d)
  end.

(** ** [crawler.py]: the retrying fetcher *)

(** [retry_if_exception_type(httpx.HTTPError)] *)
Definition is_http_error (e : Exception) : bool :=
  match e with
  | RequestError _ | HTTPStatusError _ => true
  | JSONDecodeError | OtherError _ => false
  end.

(** [stop_after_attempt(4)] *)
Definition stop_after_attempt : nat := 4.

(** [response.raise_for_status()]: raises unless [is_success], a status
    in 200..299 *)
Definition raise_for_status (r : Response) : Exception + Response :=
  if (200 <=? status_code r)%Z && (status_code r <=? 299)%Z then inr r
  else inl (HTTPStatusError (status_code r)).

(** The body of [_fetch]: one attempt. *)
Definition fetch_once (a : Attempt) : Exception + Response :=
  match a with
  | Raised e => inl e
  | Got r => raise_for_status r
  end.

(** The retry loop around it.  [attempt_number] counts from 1 and [left]
    is the number of attempts still allowed after this one; the result
    comes with the number of attempts made. *)
Fixpoint retry_loop (left attempt_number : nat) (script : nat -> Attempt)
  : (Exception + Response) * nat :=
  match fetch_once (script (attempt_number - 1)) with
  | inr r => (inr r, attempt_number)
  | inl e =>
      if is_http_error e then
        match left with
        | O => (inl e, attempt_number)                      (* reraise=True *)
        | S left' => retry_loop left' (S attempt_number) script
        end
      else (inl e, attempt_number)
  end.

Definition fetch_counted (cfg : CrawlConfig) (net : Network) (u : string)
  : (Exception + Response) * nat :=
  retry_loop (stop_after_attempt - 1) 1 (net u).

Definition _fetch (cfg : CrawlConfig) (net : Network) (u : string)
  : Exception + Response :=
  fst (fetch_counted cfg net u).

(** The number of attempts a fetch of [u] makes. *)
Definition attempts (cfg : CrawlConfig) (net : Network) (u : string) : nat :=
  snd (fetch_counted cfg net u).

(** The attempt raises an [httpx.HTTPError]: the retry predicate holds. *)
Definition raises_http_error (a : Attempt) : bool :=
  match fetch_once a with
  | inl e => is_http_error e
  | inr _ => false
  end.

(** A transient error in the words of the error taxonomy: a network-level
    failure, or a 5xx or 429 status. *)
Definition transient_by_taxonomy (a : Attempt) : bool :=
  match a with
  | Raised (RequestError _) => true
  | Raised _ => false
  | Got r =>
      ((500 <=? status_code r)%Z && (status_code r <=? 599)%Z)
      || (status_code r =? 429)%Z
  end.

(** ** [crawler.py]: link extraction

    [urljoin] raises [ValueError] on a reference whose network location
    [urlsplit] does not accept; nothing in the crawler catches it before
    the detail fetcher, so the extraction raises with it. *)

Definition add (u : string) (urls : gset string) : gset string := {[ u ]} ∪ urls.

(** The loop over the anchors selected by [a[href*='/course/']]. *)
Fixpoint course_links_loop `{HostValidation} (base : string)
    (anchors : Document) (urls : gset string) : Exception + gset string :=
  match anchors with
  | [] => inr urls
  | a :: rest =>
      match a with
      | Some href =>
          if contains "/course/" href then
            if String.eqb href "" then course_links_loop base rest urls
            else
              match canonical_url base href with
              | inl e => inl e
              | inr abs_url => course_links_loop base rest (add abs_url urls)
              end
          else course_links_loop base rest urls
      | None => course_links_loop base rest urls
      end
  end.

Definition _course_links_from_html `{HostValidation} (html : Document)
    (base : string) : Exception + gset string :=
  course_links_loop base html ∅.

Definition is_slug_key (k : string) : bool :=
  bool_decide (lower k ∈ ["slug"; "course_slug"]).

(** [if isinstance(v, str) and "/course/" in v:
       found.add(urljoin(base_url, v.split("?")[0]))] *)
Definition add_course_link `{HostValidation} (base : string) (v : JSON)
    (found : gset string) : Exception + gset string :=
  match v with
  | JString s =>
      if contains "/course/" s then
        match canonical_url base s with
        | inl e => inl e
        | inr u => inr (add u found)
        end
      else inr found
  | _ => inr found
  end.

(** [if k.lower() in {"slug", "course_slug"} and isinstance(v, str):
       found.add(urljoin(base_url, f"/course/{v}"))] *)
Definition add_slug_link `{HostValidation} (base k : string) (v : JSON)
    (found : gset string) : Exception + gset string :=
  match v with
  | JString s =>
      if is_slug_key k then
        match urljoin base ("/course/" ++ s) with
        | inl e => inl e
        | inr u => inr (add u found)
        end
      else inr found
  | _ => inr found
  end.

Fixpoint walk `{HostValidation} (base : string) (node : JSON)
    (found : gset string) : Exception + gset string :=
  match node with
  | JObject members =>
      (fix items (ms : list (string * JSON)) (found : gset string)
         : Exception + gset string :=
         match ms with
         | [] => inr found
         | (k, v) :: rest =>
             match add_course_link base v found with
             | inl e => inl e
             | inr found =>
                 match add_slug_link base k v found with
                 | inl e => inl e
                 | inr found =>
                     match walk base v found with
                     | inl e => inl e
                     | inr found => items rest found
                     end
                 end
             end
         end) members found
  | JArray elems =>
      (fix each (l : list JSON) (found : gset string)
         : Exception + gset string :=
         match l with
         | [] => inr found
         | item :: rest =>
             match walk base item found with
             | inl e => inl e
             | inr found => each rest found
             end
         end) elems found
  | _ => inr found
  end.

Definition _extract_course_links_from_json `{HostValidation}
    (cfg : CrawlConfig) (payload : JSON) : Exception + gset string :=
  walk (base_url cfg) payload ∅.

(** [entry_in k v node]: some object nested anywhere in [node] has the
    member [k : v]. *)
Inductive entry_in (k : string) (v : JSON) : JSON -> Prop :=
  | entry_here members :
      (k, v) ∈ members -> entry_in k v (JObject members)
  | entry_member members k' node :
      (k', node) ∈ members -> entry_in k v node ->
      entry_in k v (JObject members)
  | entry_item items node :
      node ∈ items -> entry_in k v node -> entry_in k v (JArray items).

(** [string_in s node]: the string [s] is a value anywhere in [node]. *)
Inductive string_in (s : string) : JSON -> Prop :=
  | string_here : string_in s (JString s)
  | string_member members k node :
      (k, node) ∈ members -> string_in s node ->
      string_in s (JObject members)
  | string_item items node :
      node ∈ items -> string_in s node -> string_in s (JArray items).

(** The joins the walk makes for the member [k : s], and what they give. *)
Definition entry_join `{HostValidation} (base k s : string)
    (r : Exception + string) : Prop :=
  (contains "/course/" s = true /\ r = canonical_url base s)
  \/ (is_slug_key k = true /\ r = urljoin base ("/course/" ++ s)).

(** The joins the walk makes in [node], and what they give. *)
Definition joined `{HostValidation} (base : string) (node : JSON)
    (r : Exception + string) : Prop :=
  exists k s, entry_in k (JString s) node /\ entry_join base k s r.

(** The links the walk takes from [node]. *)
Definition extracted `{HostValidation} (base : string) (node : JSON)
    (u : string) : Prop :=
  joined base node (inr u).

(** The joins the loop over the anchors of a document makes, and what
    they give. *)
Definition document_join `{HostValidation} (base : string) (doc : Document)
    (r : Exception + string) : Prop :=
  exists href, Some href ∈ doc /\ contains "/course/" href = true
               /\ canonical_url base href = r.

(** [u] is taken from the document: it is the canonical form of an
    [href] of the document that contains [/course/]. *)
Definition link_of_document `{HostValidation} (base : string) (doc : Document)
    (u : string) : Prop :=
  document_join base doc (inr u).

(** [r] is the outcome of an extraction that starts from the set [found]
    and makes the joins [J]: the exception of a join that raises, or,
    when none does, [found] with what the joins give. *)
Definition collects (J : Exception + string -> Prop) (found : gset string)
    (r : Exception + gset string) : Prop :=
  match r with
  | inr urls =>
      (forall e, ~ J (inl e))
      /\ forall u, u ∈ urls <-> u ∈ found \/ J (inr u)
  | inl e => J (inl e)
  end.

(** ** [crawler.py]: the DOM listing walker

    The walkers return, next to the set of URLs the Python code returns
    or the exception that leaves it, the pages they requested, in
    order. *)

Definition paged_url (cfg : CrawlConfig) (p : Z) : string :=
  listing_url cfg ++ "?page=" ++ str_of_int p.

(** The grace window of the stagnation test, [p > 5]. *)
Definition grace_pages : Z := 5.

Fixpoint dom_pagination `{HostValidation} (cfg : CrawlConfig)
    (browser : Browser) (pages : list Z) (urls : gset string)
  : (Exception + gset string) * list Z :=
  match pages with
  | [] => (inr urls, [])
  | p :: rest =>
      let paged := paged_url cfg p in
      match _course_links_from_html (goto browser paged) (base_url cfg) with
      | inl e => (inl e, [p])
      | inr page_urls =>
          if bool_decide (page_urls = ∅) then (inr urls, [p])
          else
            let before := size urls in
            let urls := urls ∪ page_urls in
            let stagnant := bool_decide (size urls = before) in
            if stagnant && (grace_pages <? p)%Z then (inr urls, [p])
            else
              let '(final, fetched) := dom_pagination cfg browser rest urls in
              (final, p :: fetched)
      end
  end.

Definition dom_walk `{HostValidation} (cfg : CrawlConfig) (browser : Browser)
  : (Exception + gset string) * list Z :=
  match _course_links_from_html (scrolled browser (listing_url cfg))
          (base_url cfg) with
  | inl e => (inl e, [])
  | inr urls =>
      dom_pagination cfg browser (range 2 (max_listing_pages cfg + 1)) urls
  end.

Definition _collect_listing_urls_dom `{HostValidation} (cfg : CrawlConfig)
    (browser : Browser) : Exception + gset string :=
  fst (dom_walk cfg browser).

(** The page numbers requested by the query-string pagination. *)
Definition dom_pages_fetched `{HostValidation} (cfg : CrawlConfig)
    (browser : Browser) : list Z :=
  snd (dom_walk cfg browser).

(** The link extraction on listing page [p], and on the listing after the
    load-more/scroll phase. *)
Definition page_links `{HostValidation} (cfg : CrawlConfig) (browser : Browser)
    (p : Z) : Exception + gset string :=
  _course_links_from_html (goto browser (paged_url cfg p)) (base_url cfg).

Definition first_links `{HostValidation} (cfg : CrawlConfig)
    (browser : Browser) : Exception + gset string :=
  _course_links_from_html (scrolled browser (listing_url cfg)) (base_url cfg).

(** The links an extraction brings: none when it raises. *)
Definition links_of (r : Exception + gset string) : gset string :=
  match r with
  | inr links => links
  | inl _ => ∅
  end.

(** The URLs known after the pages [ps] were added to [urls]. *)
Definition accumulate `{HostValidation} (cfg : CrawlConfig) (browser : Browser)
    (ps : list Z) (urls : gset string) : gset string :=
  fold_left (fun acc j => acc ∪ links_of (page_links cfg browser j)) ps urls.

(** The URLs the walker knows when it requests page [p]. *)
Definition known_before `{HostValidation} (cfg : CrawlConfig)
    (browser : Browser) (p : Z) : gset string :=
  accumulate cfg browser (range 2 p) (links_of (first_links cfg browser)).

(** The stop test of the loop body on page [p], with [urls] known. *)
Definition dom_stop `{HostValidation} (cfg : CrawlConfig) (browser : Browser)
    (urls : gset string) (p : Z) : Prop :=
  exists links,
    page_links cfg browser p = inr links
    /\ (links = ∅ \/ (links ⊆ urls /\ (grace_pages < p)%Z)).

(** The loop ends at page [p]: the stop test holds, or the extraction
    raises. *)
Definition dom_end `{HostValidation} (cfg : CrawlConfig) (browser : Browser)
    (urls : gset string) (p : Z) : Prop :=
  dom_stop cfg browser urls p \/ exists e, page_links cfg browser p = inl e.

(** ** [crawler.py]: the API listing walker

    An endpoint candidate is taken after [urlparse(ep)] and
    [parse_qs(parsed.query)]: scheme, netloc, path, and the query
    dictionary, which keeps insertion order and maps a key to a non-empty
    list of values. *)

Definition Query := list (string * (string * list string)).

Record Endpoint := mkEndpoint {
  ep_scheme : string;
  ep_netloc : string;
  ep_path : string;
  ep_query : Query }.

(** ["page" in query] *)
Definition has_key (k : string) (q : Query) : bool :=
  existsb (fun kv => String.eqb k (fst kv)) q.

(** [query[k] = v]: in place when the key is there, at the end otherwise *)
Fixpoint dict_set (k : string) (v : string * list string) (q : Query) : Query :=
  match q with
  | [] => [(k, v)]
  | (k', v') :: rest =>
      if String.eqb k k' then (k, v) :: rest
      else (k', v') :: dict_set k v rest
  end.

(** ["&".join(f"{k}={v[0]}" for k, v in query.items())] *)
Definition query_string (q : Query) : string :=
  String.concat "&" (map (fun kv => (fst kv ++ "=" ++ fst (snd kv))%string) q).

Definition endpoint_url (ep : Endpoint) (q : Query) : string :=
  ep_scheme ep ++ "://" ++ ep_netloc ep ++ ep_path ep ++ "?" ++ query_string q.

(** The inner loop over the pages of one endpoint; with the URLs, the
    page numbers and the request URLs it issued.  The two [try] blocks
    catch the exceptions of the fetch and the [JSONDecodeError] of the
    decoding; any other exception of the decoding, and those of the link
    extraction, leave the walker. *)
Fixpoint api_pagination `{HostValidation} (cfg : CrawlConfig) (net : Network)
    (ep : Endpoint) (query : Query) (pages : list Z) (urls : gset string)
  : (Exception + gset string) * list (Z * string) :=
  match pages with
  | [] => (inr urls, [])
  | page :: rest =>
      let query := dict_set "page" (str_of_int page, []) query in
      let endpoint := endpoint_url ep query in
      match _fetch cfg net endpoint with
      | inl _ => (inr urls, [(page, endpoint)])
      | inr response =>
          match json response with
          | inl JSONDecodeError => (inr urls, [(page, endpoint)])
          | inl e => (inl e, [(page, endpoint)])
          | inr payload =>
              match _extract_course_links_from_json cfg payload with
              | inl e => (inl e, [(page, endpoint)])
              | inr links =>
                  if bool_decide (links = ∅) then (inr urls, [(page, endpoint)])
                  else
                    let '(final, reqs) :=
                      api_pagination cfg net ep query rest (urls ∪ links) in
                    (final, (page, endpoint) :: reqs)
              end
          end
      end
  end.

Definition walk_endpoint `{HostValidation} (cfg : CrawlConfig) (net : Network)
    (ep : Endpoint) (urls : gset string)
  : (Exception + gset string) * list (Z * string) :=
  let query := ep_query ep in
  let query :=
    if has_key "page" query then query
    else dict_set "page" ("1", []) query in
  api_pagination cfg net ep query (range 1 (max_listing_pages cfg + 1)) urls.

(** The outer loop; one request trace per endpoint walked. *)
Fixpoint api_walk `{HostValidation} (cfg : CrawlConfig) (net : Network)
    (endpoints : list Endpoint) (urls : gset string)
  : (Exception + gset string) * list (list (Z * string)) :=
  match endpoints with
  | [] => (inr urls, [])
  | ep :: rest =>
      match walk_endpoint cfg net ep urls with
      | (inl e, reqs) => (inl e, [reqs])
      | (inr urls, reqs) =>
          let '(final, traces) := api_walk cfg net rest urls in
          (final, reqs :: traces)
      end
  end.

Definition _collect_listing_urls_api `{HostValidation} (cfg : CrawlConfig)
    (net : Network) (endpoints : list Endpoint) : Exception + gset string :=
  fst (api_walk cfg net endpoints ∅).

(** The query and the request URL the walker sends for page [page] of an
    endpoint. *)
Definition page_query (ep : Endpoint) (page : Z) : Query :=
  dict_set "page" (str_of_int page, []) (ep_query ep).

Definition page_request (ep : Endpoint) (page : Z) : string :=
  endpoint_url ep (page_query ep page).

(** The payload of page [page] of an endpoint: [None] when the fetch
    raises or the decoding raises [JSONDecodeError], the exception when
    the decoding raises another one. *)
Definition api_payload (cfg : CrawlConfig) (net : Network) (ep : Endpoint)
    (page : Z) : option (Exception + JSON) :=
  match _fetch cfg net (page_request ep page) with
  | inl _ => None
  | inr response =>
      match json response with
      | inl JSONDecodeError => None
      | inl e => Some (inl e)
      | inr payload => Some (inr payload)
      end
  end.

(** The links of page [page] of an endpoint: [None] when one of the
    [try] blocks catches, the exception when one leaves the walker. *)
Definition api_page_links `{HostValidation} (cfg : CrawlConfig) (net : Network)
    (ep : Endpoint) (page : Z) : option (Exception + gset string) :=
  match api_payload cfg net ep page with
  | None => None
  | Some (inl e) => Some (inl e)
  | Some (inr payload) => Some (_extract_course_links_from_json cfg payload)
  end.

(** The stop test of the inner loop on page [page]: the fetch raised, the
    body did not decode, or the page has no link at all. *)
Definition api_stop `{HostValidation} (cfg : CrawlConfig) (net : Network)
    (ep : Endpoint) (page : Z) : Prop :=
  match api_page_links cfg net ep page with
  | None => True
  | Some (inr links) => links = ∅
  | Some (inl _) => False
  end.

(** The walk of the endpoint ends at page [page]: the stop test holds, or
    an exception leaves the walker. *)
Definition api_end `{HostValidation} (cfg : CrawlConfig) (net : Network)
    (ep : Endpoint) (page : Z) : Prop :=
  api_stop cfg net ep page
  \/ exists e, api_page_links cfg net ep page = Some (inl e).

(** The links a page brings: none when it is dropped or raises. *)
Definition page_set (r : option (Exception + gset string)) : gset string :=
  match r with
  | Some (inr links) => links
  | _ => ∅
  end.

(** An outcome carried on to the set [urls], and the union of two
    outcomes: the exception of the first that raises. *)
Definition carry (urls : gset string) (r : Exception + gset string)
  : Exception + gset string :=
  match r with
  | inl e => inl e
  | inr links => inr (urls ∪ links)
  end.

Definition union_outcomes (r1 r2 : Exception + gset string)
  : Exception + gset string :=
  match r1 with
  | inl e => inl e
  | inr urls => carry urls r2
  end.

(** The URLs collected after the pages [ps] of an endpoint. *)
Definition api_accumulate `{HostValidation} (cfg : CrawlConfig) (net : Network)
    (ep : Endpoint) (ps : list Z) (urls : gset string) : gset string :=
  fold_left
    (fun acc p => acc ∪ page_set (api_page_links cfg net ep p)) ps urls.

(** The page numbers requested from an endpoint. *)
Definition api_pages_fetched `{HostValidation} (cfg : CrawlConfig)
    (net : Network) (ep : Endpoint) (urls : gset string) : list Z :=
  map fst (snd (walk_endpoint cfg net ep urls)).

(** ** [crawler.py]: reconciliation, detail fetch, run *)

Definition collect_course_urls `{HostValidation} (cfg : CrawlConfig)
    (browser : Browser) (net : Network) (endpoints : list Endpoint)
  : Exception + gset string :=
  match _collect_listing_urls_dom cfg browser with
  | inl e => inl e
  | inr urls =>
      match _collect_listing_urls_api cfg net endpoints with
      | inl e => inl e
      | inr api_urls => inr (urls ∪ api_urls)
      end
  end.

(** Every [Exception] of the fetch and of [parse_course] is caught. *)
Definition _scrape_single_course (cfg : CrawlConfig) (net : Network)
    (extract : Extractor) (u : string) : option CourseRecord :=
  match _fetch cfg net u with
  | inr response =>
      match parse_course extract u (body response) (base_url cfg) with
      | inr record => Some record
      | inl _ => None
      end
  | inl _ => None
  end.

(** What the tasks of [scrape_courses] leave when they all complete:
    [asyncio.gather] returns the results in the order of its arguments;
    the comprehension then drops the [None]s. *)
Definition gathered (cfg : CrawlConfig) (net : Network)
    (extract : Extractor) (urls : list string) : list CourseRecord :=
  let results := map (_scrape_single_course cfg net extract) urls in
  omap id results.

(** [asyncio.Semaphore(value)] raises [ValueError] for a negative value.
    With the value 0 no task ever acquires it: [gather] waits for ever,
    unless there is no task at all. *)
Definition scrape_courses (cfg : CrawlConfig) (net : Network)
    (extract : Extractor) (urls : list string) : Outcome (list CourseRecord) :=
  if (concurrency cfg <? 0)%Z then Raises ValueError
  else if (concurrency cfg =? 0)%Z && negb (bool_decide (urls = []))
  then NeverReturns
  else Returns (gathered cfg net extract urls).

Definition run `{HostValidation} (cfg : CrawlConfig) (browser : Browser)
    (net : Network) (extract : Extractor) (endpoints : list Endpoint)
  : Outcome (list CourseRecord) :=
  match collect_course_urls cfg browser net endpoints with
  | inl e => Raises e
  | inr urls => scrape_courses cfg net extract (sorted urls)
  end.

(** A detail URL fails terminally: its fetch raises (exhausted retries or
    an error that is not retried) or the extractor raises. *)
Definition fails_terminally (cfg : CrawlConfig) (net : Network)
    (extract : Extractor) (u : string) : bool :=
  match _fetch cfg net u with
  | inl _ => true
  | inr response =>
      match extract (body response) (base_url cfg) with
      | inl _ => true
      | inr _ => false
      end
  end.

(** ** Vocabulary of the properties *)

(** The course-detail path pattern of the target site: under the base URL
    and with the [/course/] path segment. *)
Definition on_course_pattern (base u : string) : bool :=
  String.prefix base u && contains "/course/" u.

(** The documents the DOM walker loads: the scrolled listing and the pages
    it requests. *)
Definition dom_document `{HostValidation} (cfg : CrawlConfig)
    (browser : Browser) (doc : Document) : Prop :=
  doc = scrolled browser (listing_url cfg)
  \/ exists p, p ∈ dom_pages_fetched cfg browser
               /\ doc = goto browser (paged_url cfg p).

(** The payloads the API walker decodes: those of the pages it requests
    from the endpoints. *)
Definition api_document `{HostValidation} (cfg : CrawlConfig) (net : Network)
    (endpoints : list Endpoint) (payload : JSON) : Prop :=
  exists ep p, ep ∈ endpoints /\ p ∈ api_pages_fetched cfg net ep ∅
               /\ api_payload cfg net ep p = Some (inr payload).

(** What [run] hands to the detail fetcher: [sorted(urls)]. *)
Definition handed `{HostValidation} (cfg : CrawlConfig) (browser : Browser)
    (net : Network) (endpoints : list Endpoint) : Exception + list string :=
  match collect_course_urls cfg browser net endpoints with
  | inl e => inl e
  | inr urls => inr (sorted urls)
  end.

(** [u] is the canonical form of a raw link the walkers met: an [href] of
    a loaded document, or a string value of a member of a decoded
    payload, with [/course/] in it. *)
Definition canonical_entry `{HostValidation} (cfg : CrawlConfig)
    (browser : Browser) (net : Network) (endpoints : list Endpoint)
    (u : string) : Prop :=
  (exists doc, dom_document cfg browser doc
               /\ link_of_document (base_url cfg) doc u)
  \/ (exists payload k s,
        api_document cfg net endpoints payload
        /\ entry_in k (JString s) payload
        /\ contains "/course/" s = true
        /\ canonical_url (base_url cfg) s = inr u).

(** [query.get(k)] *)
Definition dict_get (k : string) (q : Query) : option (string * list string) :=
  option_map snd (List.find (fun kv => String.eqb k (fst kv)) q).

(** ** Sample worlds *)

(** The host validation of the sample worlds.  None of their URLs has a
    bracketed network location or one outside ASCII, so it is never
    consulted on them; the closed examples are evaluated on it. *)
#[global] Instance sample_hosts : HostValidation | 100 :=
  {| bracketed_netloc_ok := fun _ => false;
     nfkc_netloc_ok := fun _ => false |}.

(** A listing with a link whose only [/course/] is in its query string and
    a link to another site. *)
Definition stray_links_browser : Browser :=
  mkBrowser
    (fun _ => [Some "/login?next=/course/python";
               Some "https://www.coursera.org/course/ml"])
    (fun _ => []).

Definition dead_network : Network :=
  fun _ _ => Raised (RequestError "connection refused").

(** A configuration asking for two attempts. *)
Definition two_attempts_config : CrawlConfig :=
  {| base_url := "https://www.classcentral.com";
     listing_path := "/subject";
     output_dir := "output";
     max_listing_pages := 200;
     headless := true;
     concurrency := 5;
     rate_limit_per_sec := (3, 2)%Z;
     max_retries := 2;
     timeout_seconds := 35 |}.

Definition plain_response (status : Z) : Response :=
  mkResponse status "" (inl JSONDecodeError).

(** A server that answers 404 to the first attempt and 200 to the next. *)
Definition not_found_once : Network :=
  fun _ i => match i with
             | O => Got (plain_response 404)
             | _ => Got (plain_response 200)
             end.

(** A listing whose page 2 repeats the first page and whose later pages
    each bring one new course. *)
Definition repeating_page_browser : Browser :=
  mkBrowser
    (fun _ => [Some "/course/intro"])
    (fun u =>
       match List.find (fun p => String.eqb u (paged_url default_config p))
               (range 2 201) with
       | Some 2%Z => [Some "/course/intro"]
       | Some p => [Some ("/course/c" ++ str_of_int p)%string]
       | None => []
       end).

(** An API that ignores the page parameter: every page is the same. *)
Definition same_page_network : Network :=
  fun _ _ =>
    Got (mkResponse 200 ""
           (inr (JObject [("url", JString "/course/intro")]))).

Definition search_endpoint : Endpoint :=
  mkEndpoint "https" "www.classcentral.com" "/api/search"
    [("q", ("python", []))].

(** An endpoint seen with [page=3], and a server with two pages of it. *)
Definition paged_endpoint : Endpoint :=
  mkEndpoint "https" "www.classcentral.com" "/api/courses"
    [("page", ("3", []))].

Definition two_page_network : Network :=
  fun u _ =>
    if String.eqb u "https://www.classcentral.com/api/courses?page=1"
    then Got (mkResponse 200 "" (inr (JObject [("slug", JString "a")])))
    else if String.eqb u "https://www.classcentral.com/api/courses?page=2"
    then Got (mkResponse 200 "" (inr (JObject [("slug", JString "b")])))
    else Got (mkResponse 200 "" (inr (JArray []))).

(** A payload with its links in a list of strings. *)
Definition list_payload : JSON :=
  JObject [("urls", JArray [JString "/course/python"])].

(** Three detail pages; the second never answers. *)
Definition one_down_network : Network :=
  fun u _ =>
    if String.eqb u "https://www.classcentral.com/course/b"
    then Raised (RequestError "timeout")
    else Got (mkResponse 200 "<html></html>" (inl JSONDecodeError)).

Definition empty_details : CourseDetails :=
  mkDetails None None None [] None None None None None None None None None
    None None.

Definition blank_extractor : Extractor := fun _ _ => inr empty_details.

Definition three_urls : list string :=
  ["https://www.classcentral.com/course/a";
   "https://www.classcentral.com/course/b";
   "https://www.classcentral.com/course/c"].

(** ** [crawler.py]: the API-endpoint discoverer

    The rendering agent reports the responses it sees while the listing
    loads and scrolls; [_discover_network_api] is taken from the list of
    those reports on. *)

Record ObservedResponse := mkObserved {
  resource_type : string;       (* resp.request.resource_type *)
  response_url : string }.      (* resp.url *)

Definition api_keywords : list string := ["search"; "course"; "catalog"; "api"].

(** The test of [on_response] on a response. *)
Definition is_api_candidate (resp : ObservedResponse) : bool :=
  bool_decide (resource_type resp ∈ ["xhr"; "fetch"])
  && contains "classcentral.com" (response_url resp)
  && existsb (fun x => contains x (lower (response_url resp))) api_keywords.

Definition on_response (found : list string) (resp : ObservedResponse)
  : list string :=
  if negb (bool_decide (resource_type resp ∈ ["xhr"; "fetch"])) then found
  else
    let u := response_url resp in
    if contains "classcentral.com" u
       && existsb (fun x => contains x (lower u)) api_keywords
    then found ++ [u]
    else found.

Definition _discover_network_api (responses : list ObservedResponse)
  : list string :=
  let found := fold_left on_response responses [] in
  sorted (list_to_set found).

(** ** [main.py]: the configuration of a command-line run *)

Record Args := mkArgs {
  arg_output_dir : string;
  arg_max_pages : Z;
  arg_concurrency : Z;
  arg_rate : Z * Z;
  arg_headed : bool }.

(** The [CrawlConfig(...)] call of [_run]; the fields it does not pass keep
    their defaults. *)
Definition config_of_args (args : Args) : CrawlConfig :=
  {| base_url := base_url default_config;
     listing_path := listing_path default_config;
     output_dir := arg_output_dir args;
     max_listing_pages := arg_max_pages args;
     headless := negb (arg_headed args);
     concurrency := arg_concurrency args;
     rate_limit_per_sec := arg_rate args;
     max_retries := max_retries default_config;
     timeout_seconds := timeout_seconds default_config |}.

(** ** [models.py]: [CourseRecord.to_dict], and [exporters.py] *)

(** The values of the dictionary of [asdict]. *)
Inductive Value :=
  | VNone
  | VStr (s : string)
  | VInt (n : Z)
  | VFloat (q : Z * Z)
  | VList (l : list string)
  | VJson (j : JSON).

Definition optional {A} (f : A -> Value) (o : option A) : Value :=
  match o with
  | Some a => f a
  | None => VNone
  end.

(** [d[k] = v] on a dictionary of values: in place when the key is there,
    at the end otherwise. *)
Fixpoint assign (k : string) (v : Value) (d : list (string * Value))
  : list (string * Value) :=
  match d with
  | [] => [(k, v)]
  | (k', v') :: rest =>
      if String.eqb k k' then (k, v) :: rest
      else (k', v') :: assign k v rest
  end.

(** [d.get(k)] *)
Fixpoint value_of (k : string) (d : list (string * Value)) : option Value :=
  match d with
  | [] => None
  | (k', v) :: rest => if String.eqb k k' then Some v else value_of k rest
  end.

(** [asdict(self)]: the fields in the order of their declaration. *)
Definition asdict (r : CourseRecord) : list (string * Value) :=
  let d := details r in
  [("url", VStr (url r));
   ("title", optional VStr (title d));
   ("provider_platform", optional VStr (provider_platform d));
   ("university", optional VStr (university d));
   ("instructors", VList (instructors d));
   ("description", optional VStr (description d));
   ("rating", optional VFloat (rating d));
   ("review_count", optional VInt (review_count d));
   ("language", optional VStr (language d));
   ("level", optional VStr (level d));
   ("duration", optional VStr (duration d));
   ("price", optional VStr (price d));
   ("certificate_availability", optional VStr (certificate_availability d));
   ("enrollment_link", optional VStr (enrollment_link d));
   ("image_url", optional VStr (image_url d));
   ("raw_jsonld", optional VJson (raw_jsonld d))].

Definition to_dict (r : CourseRecord) : list (string * Value) :=
  let data := asdict r in
  assign "instructors" (VStr (String.concat "; " (instructors (details r)))) data.

(** [DictWriter._dict_to_list] with the default [extrasaction='raise'] and
    [restval='']. *)
Definition dict_to_list (fieldnames : list string) (row : list (string * Value))
  : Exception + list Value :=
  if existsb (fun kv => negb (bool_decide (fst kv ∈ fieldnames))) row
  then inl (OtherError "ValueError")
  else inr (map (fun key => default (VStr "") (value_of key row)) fieldnames).

(** [writer.writerows(rows)]: the rows written, or the exception of the
    first row that raises. *)
Fixpoint writerows (fieldnames : list string) (rows : list (list (string * Value)))
  : Exception + list (list Value) :=
  match rows with
  | [] => inr []
  | row :: rest =>
      match dict_to_list fieldnames row with
      | inl e => inl e
      | inr cells =>
          match writerows fieldnames rest with
          | inl e => inl e
          | inr body => inr (cells :: body)
          end
      end
  end.

(** What [export_csv] hands to the file: the empty text, or the header and
    the rows it gives the CSV writer (their formatting is the writer's). *)
Inductive CsvFile :=
  | EmptyText
  | Table (header : list string) (body : list (list Value)).

Definition export_csv (records : list CourseRecord) : Exception + CsvFile :=
  let rows := map to_dict records in
  match rows with
  | [] => inr EmptyText
  | first :: _ =>
      let fieldnames := map fst first in
      match writerows fieldnames rows with
      | inl e => inl e
      | inr body => inr (Table fieldnames body)
      end
  end.

(** The payload [export_json] serialises. *)
Definition export_json_payload (records : list CourseRecord)
  : list (list (string * Value)) :=
  map to_dict records.

(** ** [parsers.py]: [_extract_jsonld]

    Taken from the scripts of type [application/ld+json] on: each is
    [None] when its text is empty or does not decode (the loop goes on to
    the next one), or the decoded value.  The members of an object are
    those of a [dict], their keys distinct. *)

Definition jsonld_types : list string :=
  ["Course"; "EducationalOccupationalProgram"; "Product"].

(** [item.get(k)] *)
Fixpoint member_of (k : string) (members : list (string * JSON)) : option JSON :=
  match members with
  | [] => None
  | (k', v) :: rest => if String.eqb k k' then Some v else member_of k rest
  end.

(** A value that cannot be hashed: [x in {...}] raises [TypeError] on it. *)
Definition unhashable (v : JSON) : bool :=
  match v with
  | JArray _ | JObject _ => true
  | _ => false
  end.

(** [item.get("@type") in {"Course", ...}] *)
Definition type_listed (members : list (string * JSON)) : Exception + bool :=
  match member_of "@type" members with
  | None => inr false
  | Some (JString s) => inr (bool_decide (s ∈ jsonld_types))
  | Some v =>
      if unhashable v then inl (OtherError "TypeError") else inr false
  end.

(** The inner loop over the candidates of one script. *)
Fixpoint first_typed (candidates : list JSON) : Exception + option JSON :=
  match candidates with
  | [] => inr None
  | item :: rest =>
      match item with
      | JObject members =>
          match type_listed members with
          | inl e => inl e
          | inr true => inr (Some item)
          | inr false => first_typed rest
          end
      | _ => first_typed rest
      end
  end.

(** [candidates = data if isinstance(data, list) else [data]] *)
Definition candidates_of (data : JSON) : list JSON :=
  match data with
  | JArray items => items
  | _ => [data]
  end.

Fixpoint _extract_jsonld (scripts : list (option JSON)) : Exception + option JSON :=
  match scripts with
  | [] => inr None
  | None :: rest => _extract_jsonld rest
  | Some data :: rest =>
      match first_typed (candidates_of data) with
      | inl e => inl e
      | inr (Some item) => inr (Some item)
      | inr None => _extract_jsonld rest
      end
  end.

(** All the candidates of a page, in the order the loops meet them. *)
Definition all_candidates (scripts : list (option JSON)) : list JSON :=
  concat (map (fun s => match s with
                        | Some data => candidates_of data
                        | None => []
                        end) scripts).

(** ** Sample worlds, continued *)

Definition sample_args : Args := mkArgs "out" 3 2 (1, 1)%Z false.

Definition sample_record : CourseRecord :=
  mkRecord "https://www.classcentral.com/course/a" empty_details.

(** A server whose first page of any endpoint is not JSON. *)
Definition html_only_network : Network :=
  fun _ _ => Got (mkResponse 200 "<html></html>" (inl JSONDecodeError)).

(** A server that refuses a request the client cannot even build. *)
Definition invalid_url_network : Network :=
  fun _ _ => Raised (OtherError "InvalidURL").

Definition one_page_config : CrawlConfig :=
  {| base_url := "https://www.classcentral.com";
     listing_path := "/subject";
     output_dir := "output";
     max_listing_pages := 1;
     headless := true;
     concurrency := 5;
     rate_limit_per_sec := (3, 2)%Z;
     max_retries := 4;
     timeout_seconds := 35 |}.

Definition sample_observations : list ObservedResponse :=
  [mkObserved "fetch" "https://www.classcentral.com/api/search?q=x";
   mkObserved "image" "https://www.classcentral.com/course/logo.png";
   mkObserved "xhr" "https://www.classcentral.com/api/search?q=x"].

(** The header of the CSV file: the field names of [CourseRecord]. *)
Definition field_names : list string :=
  ["url"; "title"; "provider_platform"; "university"; "instructors";
   "description"; "rating"; "review_count"; "language"; "level"; "duration";
   "price"; "certificate_availability"; "enrollment_link"; "image_url";
   "raw_jsonld"].

(** * Properties *)

(** ** Text *)

Module TextFacts.
Import Text.

Lemma str_lit s : str (lit s) = s.
Proof. apply string_of_list_ascii_of_string. Qed.

Lemma lit_str t : lit (str t) = t.
Proof. apply list_ascii_of_string_of_list_ascii. Qed.

Lemma lit_inj s1 s2 : lit s1 = lit s2 -> s1 = s2.
Proof. intros H. rewrite <- (str_lit s1), <- (str_lit s2). now rewrite H. Qed.

Lemma lit_app s1 s2 : lit (s1 ++ s2) = lit s1 ++ lit s2.
Proof. induction s1 as [|c s1 IH]; simpl; [done|]. now rewrite IH. Qed.

Lemma is_char_true d c : is_char d c = true <-> d = c.
Proof. apply Ascii.eqb_eq. Qed.

Lemma is_char_false d c : is_char d c = false <-> d <> c.
Proof. apply Ascii.eqb_neq. Qed.

Lemma free_nil p : free p [].
Proof. done. Qed.

Lemma free_cons p c t : free p (c :: t) <-> p c = false /\ free p t.
Proof.
  unfold free. simpl. rewrite andb_true_iff, negb_true_iff. done.
Qed.

Lemma free_app p a b : free p (a ++ b) <-> free p a /\ free p b.
Proof. unfold free. rewrite forallb_app, andb_true_iff. done. Qed.

Lemma free_has d t : free (is_char d) t <-> has d t = false.
Proof.
  unfold has. induction t as [|c t IH]; simpl; [done|].
  rewrite free_cons, IH, orb_false_iff. done.
Qed.

Lemma free_weaken (p q : ascii -> bool) t :
  (forall c, q c = true -> p c = true) -> free p t -> free q t.
Proof.
  intros Hpq. induction t as [|c t IH]; [done|].
  rewrite !free_cons. intros [Hc Ht]. split; [|auto].
  destruct (q c) eqn:Hq; [|done]. apply Hpq in Hq. congruence.
Qed.

(** *** [break] *)

Lemma break_app p t : fst (break p t) ++ snd (break p t) = t.
Proof.
  induction t as [|c t IH]; simpl; [done|].
  destruct (p c); [done|]. destruct (break p t). simpl in *. now f_equal.
Qed.

Lemma break_fst_free p t : free p (fst (break p t)).
Proof.
  induction t as [|c t IH]; simpl; [done|].
  destruct (p c) eqn:Hc; [done|]. destruct (break p t). simpl in *.
  apply free_cons. done.
Qed.

Lemma break_snd_stops p t : stops_at p (snd (break p t)).
Proof.
  induction t as [|c t IH]; simpl; [done|].
  destruct (p c) eqn:Hc; [done|]. now destruct (break p t).
Qed.

Lemma break_unique p a b :
  free p a -> stops_at p b -> break p (a ++ b) = (a, b).
Proof.
  induction a as [|c a IH]; simpl; intros Ha Hb.
  - destruct b as [|c b]; simpl in *; [done|]. now rewrite Hb.
  - apply free_cons in Ha as [Hc Ha]. rewrite Hc, IH; done.
Qed.

Lemma break_free p t : free p t -> break p t = (t, []).
Proof.
  intros H. rewrite <- (app_nil_r t) at 1. now apply break_unique.
Qed.

Lemma break_pieces q p t :
  free q t -> free q (fst (break p t)) /\ free q (snd (break p t)).
Proof. intros H. apply free_app. now rewrite break_app. Qed.

(** *** [before] and [split_once] *)

Lemma before_free d t : has d (before d t) = false.
Proof. apply free_has, break_fst_free. Qed.

Lemma before_id d t : has d t = false -> before d t = t.
Proof. intros H. unfold before. now rewrite break_free by now apply free_has. Qed.

Lemma before_app d a b : has d a = false -> before d (a ++ d :: b) = a.
Proof.
  intros H. unfold before. rewrite break_unique; [done|now apply free_has|].
  simpl. now apply is_char_true.
Qed.

Lemma split_once_free d t : has d t = false -> split_once d t = (t, []).
Proof. intros H. unfold split_once. now rewrite break_free by now apply free_has. Qed.

Lemma split_once_at d a b :
  has d a = false -> split_once d (a ++ d :: b) = (a, b).
Proof.
  intros H. unfold split_once.
  rewrite break_unique; [done|now apply free_has|]. now apply is_char_true.
Qed.

Lemma split_once_fst_free d t : has d (fst (split_once d t)) = false.
Proof.
  unfold split_once. pose proof (break_fst_free (is_char d) t) as Hf.
  pose proof (break_app (is_char d) t) as Ha.
  destruct (break (is_char d) t) as [a [|c b]]; simpl in *.
  - rewrite app_nil_r in Ha. subst. now apply free_has.
  - now apply free_has.
Qed.

Lemma split_once_pieces q d t :
  free q t -> free q (fst (split_once d t)) /\ free q (snd (split_once d t)).
Proof.
  intros H. unfold split_once.
  destruct (break_pieces q (is_char d) t H) as [H1 H2].
  destruct (break (is_char d) t) as [a [|c b]]; simpl in *; [done|].
  apply free_cons in H2 as [_ H2]. done.
Qed.

Lemma split_once_id d t : split_once d t = (t, []) -> has d t = false.
Proof.
  unfold split_once. pose proof (break_fst_free (is_char d) t) as Hf.
  pose proof (break_app (is_char d) t) as Ha.
  destruct (break (is_char d) t) as [a [|c b]]; simpl in *; intros Heq.
  - rewrite app_nil_r in Ha. subst. now apply free_has.
  - injection Heq as -> ->. apply (f_equal (@List.length _)) in Ha.
    rewrite length_app in Ha. simpl in Ha. lia.
Qed.

Lemma split_once_head d c t :
  is_char d c = false ->
  split_once d (c :: t) = (c :: fst (split_once d t), snd (split_once d t)).
Proof.
  intros Hc. unfold split_once. simpl. rewrite Hc.
  destruct (break (is_char d) t) as [a [|c' b]]; done.
Qed.

(** *** [split_on] and [join] *)

Lemma split_on_cons d t : exists h tl, split_on d t = h :: tl.
Proof.
  destruct t as [|c t]; simpl; [by eexists _, _|].
  destruct (is_char d c); [by eexists _, _|].
  destruct (split_on d t); by eexists _, _.
Qed.

Lemma split_on_not_nil d t : split_on d t <> [].
Proof. destruct (split_on_cons d t) as (h & tl & ->). done. Qed.

Lemma split_on_free d t : Forall (free (is_char d)) (split_on d t).
Proof.
  induction t as [|c t IH]; simpl; [by constructor|].
  destruct (is_char d c) eqn:Hc; [by constructor|].
  destruct (split_on d t) as [|h tl]; [by repeat constructor; apply free_cons|].
  inversion IH; subst. constructor; [|done]. by apply free_cons.
Qed.

Lemma split_on_pieces q d t : free q t -> Forall (free q) (split_on d t).
Proof.
  induction t as [|c t IH]; simpl; intros H; [by constructor|].
  apply free_cons in H as [Hc Ht]. specialize (IH Ht).
  destruct (is_char d c); [by constructor|].
  destruct (split_on d t) as [|h tl]; [by repeat constructor; apply free_cons|].
  inversion IH; subst. constructor; [|done]. by apply free_cons.
Qed.

Lemma join_cons d s h tl : join d (s :: h :: tl) = s ++ d :: join d (h :: tl).
Proof. done. Qed.

Lemma join_split d t : join d (split_on d t) = t.
Proof.
  induction t as [|c t IH]; simpl; [done|].
  destruct (is_char d c) eqn:Hc.
  - apply is_char_true in Hc as <-.
    destruct (split_on_cons d t) as (h & tl & Heq). rewrite Heq in *.
    by rewrite join_cons, IH.
  - destruct (split_on d t) as [|h [|h' tl]]; simpl in *; by subst.
Qed.

Lemma split_on_app d a b :
  free (is_char d) a -> split_on d (a ++ d :: b) = a :: split_on d b.
Proof.
  induction a as [|c a IH]; simpl; intros Ha.
  - by rewrite (proj2 (is_char_true d d) eq_refl).
  - apply free_cons in Ha as [Hc Ha]. by rewrite Hc, IH.
Qed.

Lemma split_on_single d a : free (is_char d) a -> split_on d a = [a].
Proof.
  induction a as [|c a IH]; simpl; intros Ha; [done|].
  apply free_cons in Ha as [Hc Ha]. by rewrite Hc, IH.
Qed.

Lemma split_join d L :
  L <> [] -> Forall (free (is_char d)) L -> split_on d (join d L) = L.
Proof.
  induction L as [|s L IH]; [done|]. intros _ HL.
  inversion HL as [|? ? Hs HL']; subst.
  destruct L as [|h tl]; [by apply split_on_single|].
  rewrite join_cons, split_on_app by done. f_equal. by apply IH.
Qed.

Lemma join_pieces q d L :
  q d = false -> Forall (free q) L -> free q (join d L).
Proof.
  intros Hd. induction L as [|s L IH]; [done|]. intros HL.
  inversion HL as [|? ? Hs HL']; subst.
  destruct L as [|h tl]; [done|].
  rewrite join_cons. apply free_app. split; [done|].
  apply free_cons. split; [done|]. by apply IH.
Qed.

Lemma last_cons_cons {A} (x y : A) l d :
  List.last (x :: y :: l) d = List.last (y :: l) d.
Proof. done. Qed.

Lemma last_segment_slash t : last_segment ("/"%char :: t) = last_segment t.
Proof.
  unfold last_segment. simpl.
  destruct (split_on_cons "/" t) as (h & tl & ->). done.
Qed.

Lemma last_segment_cons c t :
  is_char "/" c = false -> has "/" t = true ->
  last_segment (c :: t) = last_segment t.
Proof.
  unfold last_segment. simpl. intros -> Ht.
  destruct (split_on "/" t) as [|h [|h' tl]] eqn:Heq.
  - by destruct (split_on_not_nil "/" t).
  - pose proof (split_on_free "/" t) as Hf. rewrite Heq in Hf.
    inversion Hf as [|? ? Hh _]; subst. apply free_has in Hh.
    pose proof (join_split "/" t) as Hj. rewrite Heq in Hj. simpl in Hj.
    congruence.
  - done.
Qed.

Lemma last_segment_free t : has "/" t = false -> last_segment t = t.
Proof.
  intros H. unfold last_segment. rewrite split_on_single; [done|].
  by apply free_has.
Qed.

Lemma last_segment_join L :
  L <> [] -> Forall (free (is_char "/")) L ->
  last_segment (join "/" L) = List.last L [].
Proof. intros. unfold last_segment. by rewrite split_join. Qed.

End TextFacts.

(** ** [urllib.parse] *)

Module UrllibFacts.
Import Text TextFacts Urllib.

Lemma last_segment_pieces q t : free q t -> free q (last_segment t).
Proof.
  intros H. unfold last_segment.
  pose proof (split_on_pieces q "/" t H) as HF.
  destruct (split_on_cons "/" t) as (h & tl & Heq). rewrite Heq in *.
  clear Heq. revert h HF. induction tl as [|x tl IH]; intros h HF.
  - by inversion HF.
  - rewrite last_cons_cons. apply IH. by inversion HF.
Qed.

Lemma last_segment_step c r :
  has "/" r = true -> last_segment (c :: r) = last_segment r.
Proof.
  intros Hr. destruct (is_char "/" c) eqn:Hc.
  - apply is_char_true in Hc as <-. apply last_segment_slash.
  - by apply last_segment_cons.
Qed.

Lemma last_segment_stop c r :
  has "/" r = false -> has ";" (last_segment (c :: r)) = false ->
  has ";" (c :: r) = false.
Proof.
  intros Hr. destruct (is_char "/" c) eqn:Hc.
  - apply is_char_true in Hc as <-.
    rewrite last_segment_slash, last_segment_free by done.
    simpl. by intros ->.
  - rewrite last_segment_free; [done|]. unfold has in *. simpl.
    by rewrite Hc, Hr.
Qed.

(** *** [splitparams] *)

Lemma splitparams_id t :
  has ";" (last_segment t) = false -> splitparams t = (t, []).
Proof.
  induction t as [|c r IH]; [done|]. intros H. simpl.
  destruct (has "/" r) eqn:Hr.
  - rewrite IH; [done|]. by rewrite <- (last_segment_step c).
  - apply split_once_free. by apply last_segment_stop.
Qed.

Lemma splitparams_at a p :
  has ";" (last_segment a) = false -> has "/" p = false ->
  splitparams (a ++ ";"%char :: p) = (a, p).
Proof.
  intros Ha Hp. induction a as [|c r IH].
  - simpl. rewrite Hp. by apply (split_once_at ";" []).
  - change ((c :: r) ++ ";"%char :: p) with (c :: (r ++ ";"%char :: p)).
    cbn [splitparams].
    assert (has "/" (r ++ ";"%char :: p) = has "/" r) as ->.
    { unfold has. rewrite existsb_app. simpl. fold (has "/" p).
      rewrite Hp. by rewrite orb_false_r. }
    destruct (has "/" r) eqn:Hr.
    + rewrite IH; [done|]. by rewrite <- (last_segment_step c).
    + apply (split_once_at ";" (c :: r)). by apply last_segment_stop.
Qed.

Lemma splitparams_pieces q t :
  free q t ->
  free q (fst (splitparams t)) /\ free q (snd (splitparams t)).
Proof.
  induction t as [|c r IH]; [done|]. intros H. cbn [splitparams].
  destruct (has "/" r).
  - apply free_cons in H as [Hc Hr]. destruct (IH Hr) as [H1 H2].
    destruct (splitparams r). simpl in *. split; [|done]. by apply free_cons.
  - by apply split_once_pieces.
Qed.

Lemma splitparams_has_slash t :
  has "/" (fst (splitparams t)) = has "/" t.
Proof.
  induction t as [|c r IH]; [done|]. cbn [splitparams].
  destruct (has "/" r) eqn:Hr.
  - destruct (splitparams r) as [a p]. simpl in *. by rewrite IH, Hr.
  - destruct (is_char "/" c) eqn:Hc.
    + rewrite split_once_head.
      * simpl. by rewrite Hc.
      * apply is_char_true in Hc as <-. done.
    + assert (has "/" (c :: r) = false) as Hcr by (simpl; by rewrite Hc).
      rewrite Hcr. apply free_has.
      by apply split_once_pieces, free_has.
Qed.

Lemma splitparams_tail t :
  has ";" (last_segment (fst (splitparams t))) = false.
Proof.
  induction t as [|c r IH]; [done|]. cbn [splitparams].
  destruct (has "/" r) eqn:Hr.
  - pose proof (splitparams_has_slash r) as Hs.
    destruct (splitparams r) as [a p]. simpl in *.
    rewrite last_segment_step; [done|]. by rewrite Hs.
  - apply free_has, last_segment_pieces, free_has, split_once_fst_free.
Qed.

Lemma splitparams_params t : has "/" (snd (splitparams t)) = false.
Proof.
  induction t as [|c r IH]; [done|]. cbn [splitparams].
  destruct (has "/" r) eqn:Hr.
  - by destruct (splitparams r).
  - destruct (is_char ";" c) eqn:Hc.
    + unfold split_once. simpl. by rewrite Hc.
    + rewrite split_once_head by done. simpl.
      by apply free_has, split_once_pieces, free_has.
Qed.

Lemma splitparams_rooted t :
  stops_at (is_char "/") t -> stops_at (is_char "/") (fst (splitparams t)).
Proof.
  destruct t as [|c r]; [done|]. simpl. intros Hc.
  destruct (has "/" r).
  - by destruct (splitparams r).
  - rewrite split_once_head; [done|].
    apply is_char_true in Hc as <-. done.
Qed.

Lemma splitparams_nil t :
  stops_at (is_char "/") t -> fst (splitparams t) = [] ->
  snd (splitparams t) = [].
Proof.
  destruct t as [|c r]; [done|]. simpl. intros Hc.
  destruct (has "/" r).
  - by destruct (splitparams r).
  - rewrite split_once_head; [done|].
    apply is_char_true in Hc as <-. done.
Qed.

(** *** Characters *)

Lemma free_or (p q : ascii -> bool) t :
  free (fun c => p c || q c) t <-> free p t /\ free q t.
Proof.
  induction t as [|c t IH]; [done|].
  rewrite !free_cons, IH, orb_false_iff. naive_solver.
Qed.

Lemma free_reserved t :
  free reserved t <->
  free (is_char "#") t /\ free (is_char "?") t /\ free unsafe_byte t.
Proof.
  unfold reserved.
  rewrite (free_or (fun c => is_char "#" c || is_char "?" c) unsafe_byte).
  rewrite (free_or (is_char "#") (is_char "?")). naive_solver.
Qed.

Lemma scheme_char_plain c :
  scheme_char c = true ->
  is_char ":" c = false /\ unsafe_byte c = false /\ is_char "?" c = false.
Proof. destruct c as [[] [] [] [] [] [] [] []]; vm_compute; done. Qed.

Lemma alpha_not_space c :
  is_ascii_alpha c = true -> c0_control_or_space c = false.
Proof. destruct c as [[] [] [] [] [] [] [] []]; vm_compute; done. Qed.

Lemma netloc_delim_cases c :
  netloc_delim c = true -> c = "/"%char \/ c = "?"%char \/ c = "#"%char.
Proof.
  unfold netloc_delim. rewrite !orb_true_iff, !is_char_true. naive_solver.
Qed.

(** *** [lstrip] and [remove_unsafe] *)

Lemma lstrip_pieces q t : free q t -> free q (lstrip t).
Proof.
  induction t as [|c t IH]; [done|]. intros H. simpl.
  destruct (c0_control_or_space c); [|done].
  apply free_cons in H as [_ H]. auto.
Qed.

Lemma remove_unsafe_clean t : free unsafe_byte (remove_unsafe t).
Proof.
  induction t as [|c t IH]; [done|]. simpl.
  destruct (unsafe_byte c) eqn:Hc; simpl; [done|]. by apply free_cons.
Qed.

Lemma remove_unsafe_id t : free unsafe_byte t -> remove_unsafe t = t.
Proof.
  induction t as [|c t IH]; [done|]. intros [Hc Ht]%free_cons. simpl.
  rewrite Hc. simpl. by rewrite IH.
Qed.

Lemma remove_unsafe_pieces q t : free q t -> free q (remove_unsafe t).
Proof.
  induction t as [|c t IH]; [done|]. intros [Hc Ht]%free_cons. simpl.
  destruct (unsafe_byte c); simpl; [auto|]. apply free_cons. auto.
Qed.

(** *** Schemes *)

Lemma relative_scheme_wf sch :
  relative_scheme sch = true -> scheme_wf sch = true.
Proof.
  intros H.
  assert (forallb (fun s => implb (relative_scheme s) (scheme_wf s))
            uses_relative = true) as Hall by (by vm_compute).
  rewrite forallb_forall in Hall.
  assert (List.In sch uses_relative) as Hin.
  { unfold relative_scheme, member in H. rewrite !andb_true_iff in H.
    destruct H as [[[_ H] _] _]. apply bool_decide_eq_true in H.
    by apply list_elem_of_In. }
  specialize (Hall sch Hin). by rewrite H in Hall.
Qed.

Lemma relative_scheme_members sch :
  relative_scheme sch = true ->
  nonempty sch = true /\ member sch uses_relative = true
  /\ member sch uses_netloc = true /\ member sch uses_params = true.
Proof. unfold relative_scheme. rewrite !andb_true_iff. naive_solver. Qed.

Lemma scheme_wf_free sch :
  scheme_wf sch = true ->
  free (is_char ":") sch /\ free unsafe_byte sch /\ free (is_char "?") sch.
Proof.
  destruct sch as [|c pre]; [done|]. unfold scheme_wf.
  rewrite !andb_true_iff. intros [[[_ H] _] _].
  induction (c :: pre) as [|x l IH]; [done|]. simpl in H.
  apply andb_true_iff in H as [Hx Hl]. destruct (IH Hl) as (?&?&?).
  destruct (scheme_char_plain x Hx) as (?&?&?).
  rewrite !free_cons. done.
Qed.

Lemma split_scheme_at d sch rest :
  scheme_wf sch = true ->
  split_scheme d (sch ++ ":"%char :: rest) = (sch, rest).
Proof.
  intros Hwf. destruct (scheme_wf_free sch Hwf) as (Hcolon & _).
  unfold split_scheme. rewrite break_unique; [|done|done].
  destruct sch as [|c pre]; [done|]. unfold scheme_wf in Hwf.
  rewrite !andb_true_iff in Hwf. destruct Hwf as [[[Ha Hs] Hl] _].
  apply bool_decide_eq_true in Hl. by rewrite Ha, Hs, Hl.
Qed.

Lemma split_scheme_pieces q d url :
  free q url -> free q (snd (split_scheme d url)).
Proof.
  intros H. unfold split_scheme.
  destruct (break_pieces q (is_char ":") url H) as [_ H2].
  destruct (break (is_char ":") url) as [[|c pre] [|x rest]]; try done.
  destruct (is_ascii_alpha c && forallb scheme_char (c :: pre)); [|done].
  cbn [snd] in *. by apply free_cons in H2 as [_ H2].
Qed.

Lemma split_netloc_cases url :
  (exists r, url = "/"%char :: "/"%char :: r
             /\ split_netloc url = break netloc_delim r)
  \/ split_netloc url = ([], url).
Proof.
  destruct url as [|c1 [|c2 r]]; [by right| |].
  - destruct c1 as [[] [] [] [] [] [] [] []]; by right.
  - destruct c1 as [[] [] [] [] [] [] [] []]; try (by right).
    destruct c2 as [[] [] [] [] [] [] [] []]; try (by right).
    left. by exists r.
Qed.

Lemma split_netloc_pieces q url :
  free q url ->
  free q (fst (split_netloc url)) /\ free q (snd (split_netloc url)).
Proof.
  intros H.
  destruct (split_netloc_cases url) as [(r & -> & ->)| ->]; [|by split].
  apply break_pieces. apply free_cons in H as [_ H].
  by apply free_cons in H as [_ H].
Qed.

Lemma split_netloc_shape url nl rest :
  split_netloc url = (nl, rest) -> nl <> [] ->
  free netloc_delim nl /\ stops_at netloc_delim rest.
Proof.
  intros H Hnl. destruct (split_netloc_cases url) as [(r & -> & Hr)|Hr];
    rewrite Hr in H; [|by injection H as <- <-].
  pose proof (break_fst_free netloc_delim r) as H1.
  pose proof (break_snd_stops netloc_delim r) as H2.
  rewrite H in *. done.
Qed.

Lemma split_netloc_at nl rest :
  free netloc_delim nl -> stops_at netloc_delim rest ->
  split_netloc ("/"%char :: "/"%char :: nl ++ rest) = (nl, rest).
Proof. intros. simpl. by apply break_unique. Qed.

(** *** [parse_url] *)

(** [parse_url] as its chain of splits. *)
Lemma urlparse_steps url d :
  exists u2 u3 u4 u5 sch nl frag q,
    split_scheme (remove_unsafe (strip d)) (remove_unsafe (lstrip url))
      = (sch, u2)
    /\ split_netloc u2 = (nl, u3)
    /\ split_once "#" u3 = (u4, frag)
    /\ split_once "?" u4 = (u5, q)
    /\ parse_url url d =
         if member sch uses_params
         then mkParse sch nl (fst (splitparams u5)) (snd (splitparams u5))
                q frag
         else mkParse sch nl u5 [] q frag.
Proof.
  unfold parse_url, split_url.
  destruct (split_scheme _ _) as [sch u2] eqn:E1.
  destruct (split_netloc u2) as [nl u3] eqn:E2.
  destruct (split_once "#" u3) as [u4 frag] eqn:E3.
  destruct (split_once "?" u4) as [u5 q] eqn:E4.
  exists u2, u3, u4, u5, sch, nl, frag, q. repeat split; try done.
  destruct (member sch uses_params); [|done]. by destruct (splitparams u5).
Qed.

Lemma urlparse_pieces_of q url d :
  free q (remove_unsafe (lstrip url)) ->
  let P := parse_url url d in
  free q (netloc P) /\ free q (path P) /\ free q (params P)
  /\ free q (query P) /\ free q (fragment P).
Proof.
  intros H1.
  destruct (urlparse_steps url d)
    as (u2 & u3 & u4 & u5 & sch & nl & frag & qy & E1 & E2 & E3 & E4 & ->).
  pose proof (split_scheme_pieces q (remove_unsafe (strip d)) _ H1) as H2.
  rewrite E1 in H2. cbn [snd] in H2.
  destruct (split_netloc_pieces q _ H2) as [Hnl H3].
  rewrite E2 in Hnl, H3. cbn [fst snd] in Hnl, H3.
  destruct (split_once_pieces q "#" _ H3) as [H4 Hf].
  rewrite E3 in H4, Hf. cbn [fst snd] in H4, Hf.
  destruct (split_once_pieces q "?" _ H4) as [H5 Hq].
  rewrite E4 in H5, Hq. cbn [fst snd] in H5, Hq.
  destruct (splitparams_pieces q _ H5) as [Hp Hs].
  destruct (member sch uses_params); simpl in *; done.
Qed.

Lemma urlparse_pieces q url d :
  free q url ->
  let P := parse_url url d in
  free q (netloc P) /\ free q (path P) /\ free q (params P)
  /\ free q (query P) /\ free q (fragment P).
Proof.
  intros H. by apply urlparse_pieces_of, remove_unsafe_pieces, lstrip_pieces.
Qed.

Lemma urlparse_clean url d :
  let P := parse_url url d in
  free unsafe_byte (netloc P) /\ free unsafe_byte (path P)
  /\ free unsafe_byte (params P) /\ free unsafe_byte (query P)
  /\ free unsafe_byte (fragment P).
Proof. apply urlparse_pieces_of, remove_unsafe_clean. Qed.

Lemma urlparse_no_query url d :
  has "?" url = false -> query (parse_url url d) = [].
Proof.
  intros H%free_has.
  destruct (urlparse_steps url d)
    as (u2 & u3 & u4 & u5 & sch & nl & frag & qy & E1 & E2 & E3 & E4 & ->).
  assert (free (is_char "?") u4) as H4.
  { pose proof (split_scheme_pieces (is_char "?") (remove_unsafe (strip d)) _
                  (remove_unsafe_pieces _ _ (lstrip_pieces _ _ H))) as H2.
    rewrite E1 in H2. cbn [snd] in H2.
    destruct (split_netloc_pieces _ _ H2) as [_ H3].
    rewrite E2 in H3. cbn [snd] in H3.
    destruct (split_once_pieces _ "#" _ H3) as [H4 _]. by rewrite E3 in H4. }
  rewrite split_once_free in E4 by (by apply free_has).
  injection E4 as <- <-. by destruct (member sch uses_params).
Qed.

(** The result of parsing an absolute reference without a query. *)
Lemma urlparse_canonical url d :
  has "?" url = false ->
  relative_scheme (scheme (parse_url url d)) = true ->
  netloc (parse_url url d) <> [] ->
  canonical_parts (parse_url url d).
Proof.
  intros Hq Hsch Hnl.
  pose proof (urlparse_no_query url d Hq) as Hquery.
  destruct (urlparse_clean url d) as (Hc1 & Hc2 & Hc3 & _ & Hc5).
  apply free_has in Hq.
  destruct (urlparse_pieces _ url d Hq) as (Hq1 & Hq2 & Hq3 & _ & Hq5).
  destruct (urlparse_steps url d)
    as (u2 & u3 & u4 & u5 & sch & nl & frag & qy & E1 & E2 & E3 & E4 & E).
  rewrite E in *. clear E.
  assert (member sch uses_params = true) as Hm.
  { destruct (member sch uses_params) eqn:Hm; [done|]. simpl in Hsch.
    apply relative_scheme_members in Hsch. naive_solver. }
  rewrite Hm in *. simpl in *.
  destruct (split_netloc_shape _ _ _ E2 Hnl) as [Hfree Hstop].
  assert (free (is_char "?") u3) as Hq3'.
  { pose proof (split_scheme_pieces (is_char "?") (remove_unsafe (strip d)) _
                  (remove_unsafe_pieces _ _ (lstrip_pieces _ _ Hq))) as H2.
    rewrite E1 in H2. cbn [snd] in H2.
    destruct (split_netloc_pieces _ _ H2) as [_ H3]. by rewrite E2 in H3. }
  assert (stops_at (is_char "/") u4 /\ free (is_char "#") u4) as [Hroot Hhash].
  { split.
    - destruct u3 as [|c r]; [by injection E3 as <- <-|].
      simpl in Hstop. apply free_cons in Hq3' as [Hc _].
      destruct (netloc_delim_cases c Hstop) as [->|[->| ->]]; [| done |].
      + rewrite split_once_head in E3 by done. by injection E3 as <- <-.
      + unfold split_once in E3. simpl in E3. by injection E3 as <- <-.
    - pose proof (split_once_fst_free "#" u3) as Hh. rewrite E3 in Hh.
      by apply free_has. }
  assert (u5 = u4) as ->.
  { destruct (split_once_pieces (is_char "?") "#" _ Hq3') as [H4 _].
    rewrite E3 in H4. rewrite split_once_free in E4 by (by apply free_has).
    by injection E4. }
  destruct (splitparams_pieces _ _ Hhash) as [Hh1 Hh2].
  split; simpl; try done.
  - by apply splitparams_rooted.
  - by apply splitparams_nil.
  - apply splitparams_tail.
  - by apply free_reserved.
  - split; [by apply free_reserved|apply splitparams_params].
Qed.

(** *** [urlunparse] and back *)

Lemma nonempty_true t : nonempty t = true <-> t <> [].
Proof. by destruct t. Qed.

Lemma nonempty_cases t : (t = [] /\ nonempty t = false) \/ nonempty t = true.
Proof. destruct t; auto. Qed.

Lemma starts_with_slash t :
  t <> [] -> stops_at (is_char "/") t -> starts_with (lit "/") t = true.
Proof.
  destruct t as [|c r]; [done|]. intros _ H.
  cbn [starts_with lit list_ascii_of_string stops_at] in *.
  unfold is_char in H. by rewrite H.
Qed.

Lemma urlunparse_form P :
  canonical_parts P ->
  urlunparse P =
  unparsed (scheme P) (netloc P) (path P) (params P) (fragment P).
Proof.
  destruct P as [sch nl pa par qy fr].
  intros [Hsch Hnl _ Hroot Hjoint _ _ _ Hq _]. simpl in *. subst qy.
  unfold urlunparse, urlunsplit, unparsed.
  cbn [scheme netloc path params query fragment nonempty].
  apply nonempty_true in Hnl. rewrite Hnl. cbn [orb].
  apply relative_scheme_members in Hsch as (Hs & _). rewrite Hs.
  set (pp := if nonempty par then pa ++ ";"%char :: par else pa).
  change (lit "//") with ["/"%char; "/"%char].
  assert (nonempty pp && negb (starts_with (lit "/") pp) = false) as ->.
  { destruct pa as [|c r].
    - subst pp. rewrite Hjoint by done. done.
    - assert (starts_with (lit "/") pp = true) as ->.
      { subst pp. destruct (nonempty par); by apply starts_with_slash. }
      by rewrite andb_false_r. }
  destruct (nonempty fr); cbn [app]; rewrite ?app_nil_r; [|done].
  rewrite <- app_assoc. cbn [app]. by rewrite <- app_assoc.
Qed.

Lemma unparsed_parse sch nl pa par fr d :
  canonical_parts (mkParse sch nl pa par [] fr) ->
  parse_url (unparsed sch nl pa par fr) d = mkParse sch nl pa par [] fr.
Proof.
  intros [Hsch Hnl [Hnf Hnc] Hroot Hjoint Htail Hpath [Hpar Hps] _ Hfr].
  simpl in *.
  pose proof (relative_scheme_wf _ Hsch) as Hwf.
  destruct (scheme_wf_free _ Hwf) as (_ & Hsc & _).
  apply relative_scheme_members in Hsch as (_ & _ & _ & Hm).
  apply free_reserved in Hpath as (Hpa1 & Hpa2 & Hpa3).
  apply free_reserved in Hpar as (Hpr1 & Hpr2 & Hpr3).
  set (pp := if nonempty par then pa ++ ";"%char :: par else pa).
  set (ff := if nonempty fr then "#"%char :: fr else []).
  assert (forall q, q ";"%char = false -> free q pa -> free q par -> free q pp)
    as Hpp.
  { intros q Hq H1 H2. subst pp. destruct (nonempty par); [|done].
    apply free_app. split; [done|]. by apply free_cons. }
  assert (free unsafe_byte ff) as Hff.
  { subst ff. destruct (nonempty fr); [|done]. by apply free_cons. }
  assert (stops_at netloc_delim (pp ++ ff)) as Hstop.
  { destruct pa as [|c r].
    - subst pp. rewrite Hjoint by done. simpl. subst ff.
      by destruct (nonempty fr).
    - subst pp. simpl in Hroot. apply is_char_true in Hroot as <-.
      by destruct (nonempty par). }
  assert (split_once "#" (pp ++ ff) = (pp, fr)) as E3.
  { assert (has "#" pp = false) as Hh by (by apply free_has, Hpp).
    subst ff. destruct fr as [|c r]; simpl.
    - rewrite app_nil_r. by apply split_once_free.
    - by apply split_once_at. }
  assert (split_once "?" pp = (pp, [])) as E4.
  { apply split_once_free. by apply free_has, Hpp. }
  assert (splitparams pp = (pa, par)) as E5.
  { subst pp. destruct par as [|c r]; simpl.
    - by apply splitparams_id.
    - by apply splitparams_at. }
  unfold parse_url, split_url, unparsed. fold pp ff.
  set (x := sch ++ ":"%char :: "/"%char :: "/"%char :: nl ++ pp ++ ff).
  assert (lstrip x = x) as ->.
  { subst x. destruct sch as [|c pre]; [done|]. simpl. unfold scheme_wf in Hwf.
    rewrite !andb_true_iff in Hwf. destruct Hwf as [[[Ha _] _] _].
    by rewrite (alpha_not_space c Ha). }
  assert (remove_unsafe x = x) as ->.
  { apply remove_unsafe_id. subst x.
    apply free_app. split; [done|]. rewrite !free_cons.
    repeat split; try done. rewrite !free_app. repeat split; try done.
    by apply Hpp. }
  subst x.
  rewrite split_scheme_at by done.
  rewrite split_netloc_at by done.
  by rewrite E3, E4, Hm, E5.
Qed.

Lemma reparse P d : canonical_parts P -> parse_url (urlunparse P) d = P.
Proof.
  intros HP. rewrite urlunparse_form by done.
  destruct P as [sch nl pa par qy fr].
  pose proof (cp_query _ HP) as Hq. simpl in *. subst qy.
  by apply unparsed_parse.
Qed.

Lemma urlparse_path_facts url d :
  has "?" url = false ->
  member (scheme (parse_url url d)) uses_params = true ->
  free reserved (path (parse_url url d))
  /\ free reserved (params (parse_url url d))
  /\ has "/" (params (parse_url url d)) = false
  /\ has ";" (last_segment (path (parse_url url d))) = false.
Proof.
  intros Hq Hm.
  destruct (urlparse_clean url d) as (_ & Hc2 & Hc3 & _).
  apply free_has in Hq.
  destruct (urlparse_pieces _ url d Hq) as (_ & Hq2 & Hq3 & _).
  destruct (urlparse_steps url d)
    as (u2 & u3 & u4 & u5 & sch & nl & frag & qy & E1 & E2 & E3 & E4 & E).
  rewrite E in *. clear E.
  destruct (member sch uses_params) eqn:Hm'; [|simpl in Hm; congruence].
  simpl in *.
  assert (free (is_char "#") u5) as Hhash.
  { pose proof (split_once_fst_free "#" u3) as Hh. rewrite E3 in Hh.
    cbn [fst] in Hh. apply free_has in Hh.
    destruct (split_once_pieces _ "?" _ Hh) as [H5 _]. by rewrite E4 in H5. }
  destruct (splitparams_pieces _ _ Hhash) as [Hh1 Hh2].
  repeat split.
  - by apply free_reserved.
  - by apply free_reserved.
  - apply splitparams_params.
  - apply splitparams_tail.
Qed.

Lemma root_rooted t : stops_at (is_char "/") (root t).
Proof.
  unfold root. destruct t as [|c r]; [done|].
  cbn [nonempty starts_with lit list_ascii_of_string andb].
  rewrite andb_true_r. fold (is_char "/" c).
  by destruct (is_char "/" c) eqn:Hc.
Qed.

Lemma root_id t : stops_at (is_char "/") t -> root t = t.
Proof.
  unfold root. destruct t as [|c r]; [done|]. intros H.
  by rewrite starts_with_slash.
Qed.

Lemma root_nil t : root t = [] -> t = [].
Proof. unfold root. by destruct t, (negb _). Qed.

Lemma root_pieces q t : q "/"%char = false -> free q t -> free q (root t).
Proof.
  intros Hq Ht. unfold root. destruct (_ && _); [|done]. by apply free_cons.
Qed.

Lemma root_tail t : last_segment (root t) = last_segment t.
Proof. unfold root. destruct (_ && _); [|done]. apply last_segment_slash. Qed.

Lemma root_app t x :
  t <> [] -> root (t ++ x) = root t ++ x.
Proof. destruct t as [|c r]; [done|]. intros _. unfold root. simpl.
  by destruct (negb _). Qed.

Lemma urlunparse_root P :
  nonempty (scheme P) = true -> netloc P <> [] -> query P = [] ->
  (path P = [] -> params P = []) ->
  urlunparse P =
  unparsed (scheme P) (netloc P) (root (path P)) (params P) (fragment P).
Proof.
  destruct P as [sch nl pa par qy fr].
  cbn [scheme netloc path params query fragment].
  intros Hs Hnl -> Hjoint.
  unfold urlunparse, urlunsplit, unparsed.
  cbn [scheme netloc path params query fragment nonempty].
  apply nonempty_true in Hnl. rewrite Hnl, Hs. cbn [orb].
  change (lit "//") with ["/"%char; "/"%char].
  set (pp := if nonempty par then pa ++ ";"%char :: par else pa).
  fold (root pp).
  assert (root pp = if nonempty par then root pa ++ ";"%char :: par
                    else root pa) as ->.
  { subst pp. destruct pa as [|c r].
    - by rewrite Hjoint.
    - destruct (nonempty par); [|done]. by apply root_app. }
  destruct (nonempty fr); cbn [app]; rewrite ?app_nil_r; [|done].
  rewrite <- app_assoc. cbn [app]. by rewrite <- app_assoc.
Qed.

(** *** Path resolution *)

Lemma last_app_r {A} (l1 l2 : list A) d :
  l2 <> [] -> List.last (l1 ++ l2) d = List.last l2 d.
Proof.
  intros H. destruct (exists_last H) as (l & a & ->).
  by rewrite app_assoc, !last_last.
Qed.

Lemma snoc_cases {A} (l : list A) d :
  l <> [] -> exists xs, l = xs ++ [List.last l d].
Proof. intros H. exists (removelast l). by apply app_removelast_last. Qed.

Lemma Forall_snoc_parts {A} (R : A -> Prop) (l : list A) d :
  l <> [] -> Forall R l -> Forall R (removelast l) /\ R (List.last l d).
Proof.
  intros H HF. destruct (snoc_cases l d H) as (xs & Heq).
  rewrite Heq in HF at 1. apply Forall_app in HF as [H1 H2].
  rewrite Heq at 1. rewrite removelast_last. split; [done|].
  by inversion H2.
Qed.

Lemma Forall_list_filter {A} (R : A -> Prop) f (l : list A) :
  Forall R l -> Forall R (List.filter f l).
Proof.
  induction 1 as [|x l Hx Hl IH]; simpl; [done|].
  destruct (f x); [by constructor|done].
Qed.

Lemma drop_inner_empty_Forall (R : text -> Prop) segs :
  Forall R segs -> Forall R (drop_inner_empty segs).
Proof.
  destruct segs as [|h [|x t]]; [done..|]. intros HF.
  inversion HF as [|? ? Hh Ht]; subst.
  destruct (Forall_snoc_parts R (x :: t) [] ltac:(done) Ht) as [H1 H2].
  unfold drop_inner_empty. constructor; [done|].
  apply Forall_app. split; [by apply Forall_list_filter|by constructor].
Qed.

Lemma drop_inner_empty_last segs :
  List.last (drop_inner_empty segs) [] = List.last segs [].
Proof.
  destruct segs as [|h [|x t]]; [done..|]. unfold drop_inner_empty.
  rewrite app_comm_cons, last_last. done.
Qed.

Lemma drop_inner_empty_not_nil segs :
  segs <> [] -> drop_inner_empty segs <> [].
Proof. by destruct segs as [|h [|x t]]. Qed.

Lemma resolve_dots_Forall (R : text -> Prop) st segs :
  Forall R st -> Forall R segs -> Forall R (resolve_dots st segs).
Proof.
  intros Hst Hsegs. revert st Hst.
  induction Hsegs as [|seg rest Hseg Hrest IH]; intros st Hst; simpl.
  - by apply Forall_rev.
  - destruct (is_dotdot seg); [|destruct (is_dot seg)].
    + apply IH. destruct Hst; [done|]. done.
    + by apply IH.
    + apply IH. by constructor.
Qed.

Lemma resolve_dots_snoc st xs f :
  is_dotdot f = false -> is_dot f = false ->
  resolve_dots st (xs ++ [f]) = resolve_dots st xs ++ [f].
Proof.
  intros H1 H2. revert st. induction xs as [|x xs IH]; intros st; simpl.
  - by rewrite H1, H2.
  - destruct (is_dotdot x); [|destruct (is_dot x)]; apply IH.
Qed.

(** The segments [resolve_path] joins: not none unless the path is [/],
    each free of what the inputs are free of, the last one free of [;]
    when the reference's last segment is. *)
Lemma resolve_path_segments bpath upath :
  exists segs,
    resolve_path bpath upath
      = match join "/" segs with [] => lit "/" | p => p end
    /\ (forall q : ascii -> bool,
          free q bpath -> free q upath -> Forall (free q) segs)
    /\ Forall (free (is_char "/")) segs
    /\ (has ";" (last_segment upath) = false ->
        has ";" (List.last segs []) = false).
Proof.
  unfold resolve_path.
  set (bparts := if nonempty (List.last (split_on "/" bpath) [])
                 then removelast (split_on "/" bpath)
                 else split_on "/" bpath).
  set (segments := if starts_with (lit "/") upath then split_on "/" upath
                   else drop_inner_empty (bparts ++ split_on "/" upath)).
  set (final := List.last segments []).
  set (resolved := if is_dot final || is_dotdot final
                   then resolve_dots [] segments ++ [[]]
                   else resolve_dots [] segments).
  assert (forall R : text -> Prop,
            Forall R (split_on "/" bpath) -> Forall R (split_on "/" upath) ->
            Forall R segments) as Hseg.
  { intros R Hb Hu. subst segments. destruct (starts_with _ upath); [done|].
    apply drop_inner_empty_Forall, Forall_app. split; [|done].
    subst bparts. destruct (nonempty _); [|done].
    by apply (Forall_snoc_parts R _ []); [apply split_on_not_nil|]. }
  assert (final = last_segment upath) as Hfinal.
  { subst final segments. destruct (starts_with _ upath); [done|].
    rewrite drop_inner_empty_last.
    by apply last_app_r, split_on_not_nil. }
  assert (segments <> []) as Hne.
  { subst segments. destruct (starts_with _ upath).
    - apply split_on_not_nil.
    - apply drop_inner_empty_not_nil. intros [_ H]%app_eq_nil.
      by apply split_on_not_nil in H. }
  assert (forall R : text -> Prop, R [] -> Forall R segments ->
            Forall R resolved) as Hres.
  { intros R Hnil HF. subst resolved.
    pose proof (resolve_dots_Forall R [] segments ltac:(done) HF).
    destruct (_ || _); [|done]. apply Forall_app. split; [done|].
    by constructor. }
  exists resolved. split; [done|]. repeat split.
  - intros q Hb Hu. apply Hres; [done|].
    apply Hseg; by apply split_on_pieces.
  - apply Hres; [done|]. apply Hseg; apply split_on_free.
  - intros Htail. subst resolved.
    destruct (is_dot final || is_dotdot final) eqn:Hdot.
    + by rewrite last_last.
    + apply orb_false_iff in Hdot as [H1 H2].
      destruct (snoc_cases segments [] Hne) as (xs & Heq). fold final in Heq.
      rewrite Heq, resolve_dots_snoc, last_last by done.
      by rewrite Hfinal.
Qed.

Lemma resolve_path_not_nil bpath upath : resolve_path bpath upath <> [].
Proof.
  destruct (resolve_path_segments bpath upath) as (segs & -> & _).
  by destruct (join "/" segs).
Qed.

Lemma resolve_path_pieces q bpath upath :
  q "/"%char = false -> free q bpath -> free q upath ->
  free q (resolve_path bpath upath).
Proof.
  intros Hq Hb Hu.
  destruct (resolve_path_segments bpath upath) as (segs & -> & HF & _).
  pose proof (join_pieces q "/" segs Hq (HF q Hb Hu)) as Hj.
  destruct (join "/" segs); [|done].
  apply free_cons. by split.
Qed.

Lemma resolve_path_tail bpath upath :
  has ";" (last_segment upath) = false ->
  has ";" (last_segment (resolve_path bpath upath)) = false.
Proof.
  intros Ht.
  destruct (resolve_path_segments bpath upath) as (segs & -> & _ & HF & Hl).
  destruct (join "/" segs) as [|c r] eqn:Hj; [done|].
  rewrite <- Hj. rewrite last_segment_join; [by apply Hl|by intros ->|done].
Qed.

(** *** [join_url] *)

Lemma unparsed_not_nil sch nl pa par fr :
  nonempty sch = true -> unparsed sch nl pa par fr <> [].
Proof. by destruct sch. Qed.

Lemma urlunparse_no_query P :
  canonical_parts P -> has "?" (fragment P) = false ->
  has "?" (urlunparse P) = false.
Proof.
  intros HP Hfr. rewrite urlunparse_form by done.
  destruct HP as [Hsch _ [Hnf _] _ _ _ Hpath [Hpar _] _ _].
  destruct (scheme_wf_free _ (relative_scheme_wf _ Hsch)) as (_ & _ & Hs).
  apply free_reserved in Hpath as (_ & Hpa & _).
  apply free_reserved in Hpar as (_ & Hpr & _).
  apply free_has. unfold unparsed. apply free_app. split; [done|].
  rewrite !free_cons. repeat split; try done.
  rewrite !free_app. repeat split.
  - revert Hnf. apply free_weaken. intros c Hc. unfold netloc_delim.
    rewrite Hc. by rewrite orb_true_r.
  - destruct (nonempty (params P)); [|done]. apply free_app.
    split; [done|]. by apply free_cons.
  - destruct (nonempty (fragment P)); [|done]. apply free_cons.
    split; [done|]. by apply free_has.
Qed.

Lemma urljoin_canonical base P :
  base <> [] -> canonical_parts P ->
  scheme P = scheme (parse_url base []) ->
  join_url base (urlunparse P) = urlunparse P.
Proof.
  intros Hb HP Hs. unfold join_url, resolve.
  apply nonempty_true in Hb. rewrite Hb. cbn [negb].
  pose proof (relative_scheme_members _ (cp_scheme _ HP))
    as (Hne & Hrel & Hnet & _).
  assert (nonempty (urlunparse P) = true) as ->.
  { apply nonempty_true. rewrite urlunparse_form by done.
    by apply unparsed_not_nil. }
  cbn [negb]. rewrite reparse by done.
  rewrite (bool_decide_eq_true_2 _ Hs), Hrel, Hnet. cbn [negb orb andb].
  by rewrite (proj2 (nonempty_true _) (cp_netloc _ HP)).
Qed.

Lemma resolved_parts B pa par fr :
  canonical_parts B ->
  free reserved pa -> has ";" (last_segment pa) = false ->
  free reserved par -> has "/" par = false -> free unsafe_byte fr ->
  let rp := resolve_path (path B) pa in
  canonical_parts (mkParse (scheme B) (netloc B) (root rp) par [] fr)
  /\ urlunparse (mkParse (scheme B) (netloc B) rp par [] fr)
     = urlunparse (mkParse (scheme B) (netloc B) (root rp) par [] fr).
Proof.
  intros HB Hpa Htail Hpar Hslash Hfr rp.
  assert (rp <> []) as Hrp by apply resolve_path_not_nil.
  split.
  - destruct HB as [H1 H2 H3 H4 H5 H6 H7 H8 H9 H10].
    split; cbn [scheme netloc path params query fragment]; try done.
    + apply root_rooted.
    + by intros H%root_nil.
    + rewrite root_tail. by apply resolve_path_tail.
    + apply root_pieces; [done|]. by apply resolve_path_pieces.
  - pose proof (relative_scheme_members _ (cp_scheme _ HB)) as (Hne & _).
    rewrite !urlunparse_root;
      cbn [scheme netloc path params query fragment];
      try done; try apply (cp_netloc _ HB).
    + by rewrite (root_id (root _)) by apply root_rooted.
    + by intros H%root_nil.
Qed.

(** What [join_url] returns for a reference without a query: the reference
    itself, or the text of canonical parts on the base's scheme. *)
Lemma urljoin_shape base url :
  base_ok base -> has "?" url = false ->
  join_url base url = url
  \/ exists P,
       canonical_parts P /\ scheme P = scheme (parse_url base [])
       /\ has "?" (fragment P) = false /\ join_url base url = urlunparse P
       /\ (netloc P = netloc (parse_url base [])
           \/ (nonempty url = true
               /\ netloc P
                  = netloc (parse_url url (scheme (parse_url base []))))).
Proof.
  intros (HB & Hback & Hbq) Hq.
  set (B := parse_url base []) in *.
  assert (has "?" (fragment B) = false) as HBf.
  { apply free_has. by apply (urlparse_pieces _ base []), free_has. }
  unfold join_url, resolve. fold B.
  destruct (nonempty base); cbn [negb]; [|by left].
  destruct (nonempty url) eqn:Hurl; cbn [negb].
  2:{ right. exists B. do 4 (split; [done|]). by left. }
  set (U := parse_url url (scheme B)).
  destruct (bool_decide (scheme U = scheme B)) eqn:Hs; cbn [negb orb];
    [|by left].
  apply bool_decide_eq_true in Hs.
  pose proof (cp_scheme _ HB) as HsB.
  pose proof (relative_scheme_members _ HsB) as (Hne & Hrel & Hnet & Hpar).
  rewrite Hs, Hrel, Hnet. cbn [negb andb].
  assert (has "?" (fragment U) = false) as HUf.
  { apply free_has. by apply (urlparse_pieces _ url (scheme B)), free_has. }
  pose proof (urlparse_no_query url (scheme B) Hq) as HUq. fold U in HUq.
  destruct (urlparse_clean url (scheme B)) as (_ & _ & _ & _ & HUc).
  fold U in HUc.
  destruct (nonempty (netloc U)) eqn:Hnl.
  { right. exists U. split; [|do 3 (split; [done|]); by right].
    apply urlparse_canonical; [done|fold U; by rewrite Hs|].
    by apply nonempty_true. }
  destruct (urlparse_path_facts url (scheme B) Hq)
    as (HU1 & HU2 & HU3 & HU4); [fold U; by rewrite Hs|].
  fold U in HU1, HU2, HU3, HU4.
  destruct (resolved_parts B _ _ _ HB HU1 HU4 HU2 HU3 HUc) as [Hcan Heq].
  rewrite HUq. cbn [nonempty].
  destruct (nonempty (path U)) eqn:Hpa; cbn [negb andb];
    [|destruct (nonempty (params U)) eqn:Hpr; cbn [negb]].
  - right. eexists. split; [exact Hcan|]. rewrite Heq.
    do 3 (split; [done|]). by left.
  - right. eexists. split; [exact Hcan|]. rewrite Heq.
    do 3 (split; [done|]). by left.
  - right.
    exists (mkParse (scheme B) (netloc B) (path B) (params B) (query B)
              (fragment U)).
    split; [|do 3 (split; [done|]); by left].
    destruct HB as [H1 H2 H3 H4 H5 H6 H7 H8 H9 H10]. by split.
Qed.

Lemma base_ok_not_nil base : base_ok base -> base <> [].
Proof.
  intros (HB & Hback & _). rewrite <- Hback, urlunparse_form by done.
  apply unparsed_not_nil.
  by pose proof (relative_scheme_members _ (cp_scheme _ HB)) as (? & _).
Qed.

(** Resolving a reference without a query gives a text without a query
    that resolves to itself. *)
Lemma urljoin_stable base url :
  base_ok base -> has "?" url = false ->
  has "?" (join_url base url) = false
  /\ join_url base (join_url base url) = join_url base url.
Proof.
  intros Hb Hq.
  destruct (urljoin_shape base url Hb Hq)
    as [Heq|(P & HP & Hs & Hf & Heq & _)].
  - by rewrite !Heq.
  - rewrite !Heq. split; [by apply urlunparse_no_query|].
    apply urljoin_canonical; [by apply base_ok_not_nil|done..].
Qed.

(** *** The calls: when they return, and what *)

Lemma urlparse_spec `{HostValidation} url d :
  urlparse url d
  = if netloc_ok (netloc (parse_url url d)) then Some (parse_url url d)
    else None.
Proof.
  unfold urlparse, urlsplit, parse_url, split_url, netloc_ok.
  destruct (split_scheme _ _) as [sch u2].
  destruct (split_netloc u2) as [nl u3].
  destruct (split_once "#" u3) as [u4 frag].
  destruct (split_once "?" u4) as [u5 q].
  assert (netloc (let '(url0, par) :=
                    if member sch uses_params then splitparams u5 else (u5, [])
                  in mkParse sch nl url0 par q frag) = nl) as ->.
  { destruct (member sch uses_params); [by destruct (splitparams u5)|done]. }
  destruct (unbalanced nl); cbn [negb andb]; [done|].
  destruct (has "[" nl && has "]" nl && negb (bracketed_netloc_ok nl));
    cbn [negb andb]; [done|].
  destruct (nonempty nl && negb (isascii nl) && negb (nfkc_netloc_ok nl));
    cbn [negb]; [done|].
  destruct (member sch uses_params); [by destruct (splitparams u5)|done].
Qed.

Lemma urljoin_spec `{HostValidation} base url :
  urljoin base url
  = if joinable base url then Some (join_url base url) else None.
Proof.
  unfold urljoin, joinable, join_url.
  destruct (nonempty base); cbn [negb orb]; [|done].
  destruct (nonempty url); cbn [negb orb]; [|done].
  rewrite urlparse_spec.
  destruct (netloc_ok (netloc (parse_url base []))); cbn [andb]; [|done].
  rewrite urlparse_spec.
  by destruct (netloc_ok (netloc (parse_url url (scheme (parse_url base []))))).
Qed.

(** A network location without brackets and in ASCII is accepted. *)
Lemma netloc_ok_plain `{HostValidation} nl :
  has "[" nl = false -> has "]" nl = false -> isascii nl = true ->
  netloc_ok nl = true.
Proof.
  intros H1 H2 H3. unfold netloc_ok, unbalanced. rewrite H1, H2, H3.
  cbn [negb andb orb]. by rewrite andb_false_r.
Qed.

(** Where the join of a reference without a query returns, the join of
    its result returns. *)
Lemma joinable_stable `{HostValidation} base url :
  base_ok base -> netloc_ok (netloc (parse_url base [])) = true ->
  has "?" url = false -> joinable base url = true ->
  joinable base (join_url base url) = true.
Proof.
  intros Hb Hok Hq Hj.
  destruct (urljoin_shape base url Hb Hq)
    as [Heq|(P & HP & Hs & Hf & Heq & Hnl)]; [by rewrite Heq|].
  rewrite Heq. unfold joinable. rewrite Hok, (reparse _ _ HP). cbn [andb].
  apply orb_true_iff. right.
  destruct Hnl as [->|[Hne ->]]; [done|].
  unfold joinable in Hj. rewrite Hne, Hok in Hj.
  rewrite (proj2 (nonempty_true _) (base_ok_not_nil _ Hb)) in Hj.
  by cbn [negb orb andb] in Hj.
Qed.

End UrllibFacts.

(** ** URL canonicalisation *)

Lemma urljoin_cases `{HostValidation} base url :
  urljoin base url
  = if joins base url then inr (join_url base url) else inl ValueError.
Proof.
  unfold urljoin, joins, join_url. rewrite UrllibFacts.urljoin_spec.
  by destruct (Urllib.joinable _ _).
Qed.

Lemma canonical_url_cases `{HostValidation} base href :
  canonical_url base href
  = if canonicalises base href then inr (canonical base href)
    else inl ValueError.
Proof.
  unfold canonical_url, canonicalises, canonical.
  rewrite UrllibFacts.urljoin_spec. by destruct (Urllib.joinable _ _).
Qed.

Lemma urljoin_inr `{HostValidation} base url u :
  urljoin base url = inr u <-> joins base url = true /\ u = join_url base url.
Proof.
  rewrite urljoin_cases. destruct (joins base url); [|by split; [|intros []]].
  split; [by intros [= <-]|by intros [_ ->]].
Qed.

Lemma urljoin_inl `{HostValidation} base url e :
  urljoin base url = inl e <-> joins base url = false /\ e = ValueError.
Proof.
  rewrite urljoin_cases. destruct (joins base url); [by split; [|intros []]|].
  split; [by intros [= <-]|by intros [_ ->]].
Qed.

Lemma canonical_url_inr `{HostValidation} base href u :
  canonical_url base href = inr u
  <-> canonicalises base href = true /\ u = canonical base href.
Proof.
  rewrite canonical_url_cases.
  destruct (canonicalises base href); [|by split; [|intros []]].
  split; [by intros [= <-]|by intros [_ ->]].
Qed.

Lemma canonical_url_inl `{HostValidation} base href e :
  canonical_url base href = inl e
  <-> canonicalises base href = false /\ e = ValueError.
Proof.
  rewrite canonical_url_cases.
  destruct (canonicalises base href); [by split; [|intros []]|].
  split; [by intros [= <-]|by intros [_ ->]].
Qed.

(** A stable base is one [urlparse] accepts and takes to canonical parts
    and back. *)
Lemma stable_base_ok `{HostValidation} base :
  stable_base base
  <-> Urllib.base_ok (Text.lit base)
      /\ Urllib.netloc_ok
           (Urllib.netloc (Urllib.parse_url (Text.lit base) [])) = true.
Proof.
  unfold stable_base, Urllib.base_ok. rewrite UrllibFacts.urlparse_spec. split.
  - intros (P & HP & Hc & Hu & Hq).
    destruct (Urllib.netloc_ok _); [|done]. by injection HP as <-.
  - intros [(Hc & Hu & Hq) ->]. by eexists.
Qed.

Lemma default_base_stable `{HostValidation} :
  stable_base (base_url default_config).
Proof.
  apply stable_base_ok. split.
  - unfold Urllib.base_ok. split; [|by vm_compute]. split; by vm_compute.
  - apply UrllibFacts.netloc_ok_plain; by vm_compute.
Qed.

Lemma contains_char (d : ascii) s :
  contains (String d "") s = Text.has d (Text.lit s).
Proof.
  unfold contains. change (Text.lit (String d "")) with [d].
  generalize (Text.lit s). intros t. unfold Text.has.
  induction t as [|c t IH]; [done|].
  cbn [Text.contains Text.starts_with existsb]. rewrite IH.
  by rewrite andb_true_r.
Qed.

Lemma canonical_no_query base href :
  Urllib.base_ok (Text.lit base) -> contains "?" (canonical base href) = false.
Proof.
  intros Hb. rewrite contains_char. unfold canonical.
  rewrite TextFacts.lit_str.
  by destruct (UrllibFacts.urljoin_stable (Text.lit base)
              (Text.before "?" (Text.lit href)) Hb (TextFacts.before_free _ _)).
Qed.

Lemma canonical_idempotent base href :
  Urllib.base_ok (Text.lit base) ->
  canonical base (canonical base href) = canonical base href.
Proof.
  intros Hb. unfold canonical. rewrite TextFacts.lit_str.
  destruct (UrllibFacts.urljoin_stable (Text.lit base)
              (Text.before "?" (Text.lit href)) Hb (TextFacts.before_free _ _))
    as [Hq Hfix].
  by rewrite (TextFacts.before_id _ _ Hq), Hfix.
Qed.

Lemma before_query p q :
  contains "?" p = false ->
  Text.before "?" (Text.lit (p ++ "?" ++ q)) = Text.before "?" (Text.lit p).
Proof.
  rewrite contains_char. intros Hp. rewrite TextFacts.lit_app.
  change (Text.lit ("?" ++ q)) with ("?"%char :: Text.lit q).
  by rewrite TextFacts.before_app, TextFacts.before_id.
Qed.

(** The query of a raw link makes no difference, whether the join returns
    or raises. *)
Lemma canonical_url_query `{HostValidation} base p q :
  contains "?" p = false ->
  canonical_url base (p ++ "?" ++ q) = canonical_url base p.
Proof. intros Hp. unfold canonical_url. by rewrite before_query. Qed.

(** On a stable base, what canonicalisation returns has no query, and
    canonicalising it returns it. *)
Lemma canonical_url_fixed `{HostValidation} base href c :
  stable_base base -> canonical_url base href = inr c ->
  contains "?" c = false /\ canonical_url base c = inr c.
Proof.
  intros [Hb Hok]%stable_base_ok [Hj ->]%canonical_url_inr.
  pose proof (canonical_no_query base href Hb) as Hq.
  split; [done|]. apply canonical_url_inr.
  split; [|by rewrite canonical_idempotent].
  rewrite contains_char in Hq. unfold canonicalises.
  rewrite (TextFacts.before_id _ _ Hq). unfold canonical.
  rewrite TextFacts.lit_str.
  apply UrllibFacts.joinable_stable; try done. apply TextFacts.before_free.
Qed.

(** ** The retrying fetcher *)

Lemma retry_loop_spec left n script :
  1 <= n ->
  let '(res, m) := retry_loop left n script in
  n <= m <= n + left
  /\ res = fetch_once (script (m - 1))
  /\ (forall j, n <= j < m -> raises_http_error (script (j - 1)) = true)
  /\ (m < n + left -> raises_http_error (script (m - 1)) = false).
Proof.
  revert n. induction left as [|left IH]; intros n Hn.
  - cbn [retry_loop]. unfold raises_http_error.
    destruct (fetch_once (script (n - 1))) as [e|r] eqn:He;
      [destruct (is_http_error e)|];
      (repeat split; [lia|lia|by rewrite He|intros; lia|intros; lia]).
  - cbn [retry_loop]. unfold raises_http_error in *.
    destruct (fetch_once (script (n - 1))) as [e|r] eqn:He.
    + destruct (is_http_error e) eqn:Hhttp.
      * specialize (IH (S n) ltac:(lia)).
        destruct (retry_loop left (S n) script) as [res m].
        destruct IH as (Hm & Hres & Hbefore & Hlast).
        repeat split; try lia; try done.
        -- intros j Hj. destruct (decide (j = n)) as [->|Hne].
           ++ by rewrite He.
           ++ apply Hbefore. lia.
        -- intros Hlt. apply Hlast. lia.
      * repeat split; try lia; try done.
        intros _. by rewrite He.
    + repeat split; try lia; try done.
      intros _. by rewrite He.
Qed.

Lemma attempts_bounds cfg net u : 1 <= attempts cfg net u <= stop_after_attempt.
Proof.
  unfold attempts, fetch_counted.
  pose proof (retry_loop_spec (stop_after_attempt - 1) 1 (net u) ltac:(lia)) as H.
  destruct (retry_loop _ _ _) as [res m]. unfold stop_after_attempt in *.
  simpl in *. lia.
Qed.

(** The fetcher goes on to another attempt after attempt [i] exactly when
    every attempt up to [i] raised an [httpx.HTTPError] and [i] is below
    the ceiling. *)
Lemma retried_iff cfg net u i :
  1 <= i ->
  i < attempts cfg net u <->
  i < stop_after_attempt
  /\ forall j, 1 <= j <= i -> raises_http_error (net u (j - 1)) = true.
Proof.
  intros Hi. unfold attempts, fetch_counted.
  pose proof (retry_loop_spec (stop_after_attempt - 1) 1 (net u) ltac:(lia)) as H.
  destruct (retry_loop _ _ _) as [res m]. unfold stop_after_attempt in *.
  simpl in *. destruct H as (Hm & _ & Hbefore & Hlast). split.
  - intros Hlt. split; [lia|]. intros j Hj. apply Hbefore. lia.
  - intros [Hlt Hall]. destruct (decide (i < m)) as [|Hge]; [done|].
    rewrite Hall in Hlast by lia. discriminate Hlast. lia.
Qed.

Lemma fetch_result cfg net u :
  _fetch cfg net u = fetch_once (net u (attempts cfg net u - 1)).
Proof.
  unfold _fetch, attempts, fetch_counted.
  pose proof (retry_loop_spec (stop_after_attempt - 1) 1 (net u) ltac:(lia)) as H.
  destruct (retry_loop _ _ _) as [res m]. simpl in *. tauto.
Qed.

(** A fetch whose every attempt raises an [httpx.HTTPError] makes
    [stop_after_attempt] attempts, whatever the configuration says, and
    raises the error of the last one. *)
Lemma fetch_exhausted cfg net u :
  (forall i, raises_http_error (net u i) = true) ->
  attempts cfg net u = stop_after_attempt
  /\ exists e, fetch_once (net u (stop_after_attempt - 1)) = inl e
               /\ _fetch cfg net u = inl e.
Proof.
  intros Hall.
  assert (attempts cfg net u = stop_after_attempt) as Hn.
  { pose proof (attempts_bounds cfg net u) as Hb.
    destruct (decide (attempts cfg net u = stop_after_attempt)); [done|].
    assert (attempts cfg net u < stop_after_attempt) as Hlt by lia.
    pose proof (proj2 (retried_iff cfg net u (attempts cfg net u) ltac:(lia))) as H.
    specialize (H (conj Hlt (fun j _ => Hall (j - 1)))). lia. }
  split; [done|]. rewrite fetch_result, Hn.
  specialize (Hall (stop_after_attempt - 1)). unfold raises_http_error in Hall.
  destruct (fetch_once _) as [e|r]; [by exists e|done].
Qed.

(** Two failures, then a success: the success is returned, on the third
    attempt. *)
Lemma fetch_third_time cfg net u r :
  raises_http_error (net u 0) = true ->
  raises_http_error (net u 1) = true ->
  fetch_once (net u 2) = inr r ->
  _fetch cfg net u = inr r /\ attempts cfg net u = 3.
Proof.
  unfold _fetch, attempts, fetch_counted, raises_http_error. simpl.
  intros H0 H1 H2.
  destruct (fetch_once (net u 0)) as [e0|]; [|done]. rewrite H0.
  destruct (fetch_once (net u 1)) as [e1|]; [|done]. rewrite H1.
  by rewrite H2.
Qed.

(** ** [sorted] *)

Lemma sorted_Permutation (X : gset string) : sorted X ≡ₚ elements X.
Proof. apply merge_sort_Permutation. Qed.

Lemma sorted_NoDup (X : gset string) : NoDup (sorted X).
Proof. rewrite sorted_Permutation. apply NoDup_elements. Qed.

Lemma sorted_elem_of (X : gset string) u : u ∈ sorted X <-> u ∈ X.
Proof. rewrite sorted_Permutation. apply elem_of_elements. Qed.

Lemma StronglySorted_strict (l : list string) :
  StronglySorted String.le l -> NoDup l -> StronglySorted (strict String.le) l.
Proof.
  induction 1 as [|x l Hl IH Hx]; intros Hnd; [constructor|].
  apply NoDup_cons in Hnd as [Hnotin Hnd]. constructor; [by apply IH|].
  rewrite Forall_forall in Hx. apply Forall_forall. intros y Hy.
  split; [by apply Hx|]. intros Hyx.
  assert (x = y) as -> by (apply (anti_symm String.le); [by apply Hx|done]).
  by apply Hnotin, list_elem_of_In.
Qed.

Lemma StronglySorted_list_filter {A} (R : relation A) f (l : list A) :
  StronglySorted R l -> StronglySorted R (List.filter f l).
Proof.
  induction 1 as [|x l Hl IH Hx]; simpl; [constructor|].
  destruct (f x); [|done]. constructor; [done|].
  rewrite Forall_forall in *. intros y Hy.
  apply list_elem_of_In, filter_In in Hy as [Hy _].
  by apply Hx, list_elem_of_In.
Qed.

Lemma sorted_ascending (X : gset string) :
  StronglySorted (strict String.le) (sorted X).
Proof.
  apply StronglySorted_strict; [|apply sorted_NoDup].
  apply StronglySorted_merge_sort; apply _.
Qed.

(** ** The detail fetcher *)

Lemma retry_loop_ext left n (s s' : nat -> Attempt) :
  (forall i, s i = s' i) -> retry_loop left n s = retry_loop left n s'.
Proof.
  intros Hext. revert n.
  induction left as [|left IH]; intros n; cbn [retry_loop]; rewrite Hext;
    [done|].
  destruct (fetch_once (s' (n - 1))) as [e|r]; [|done].
  destruct (is_http_error e); [apply IH|done].
Qed.

Lemma fetch_local cfg (net net' : Network) u :
  (forall i, net' u i = net u i) -> _fetch cfg net' u = _fetch cfg net u.
Proof.
  intros H. unfold _fetch, fetch_counted. by rewrite (retry_loop_ext _ _ _ _ H).
Qed.

(** The outcome for a URL is a function of what the network answers for
    that URL alone. *)
Lemma scrape_single_local cfg (net net' : Network) extract u :
  (forall i, net' u i = net u i) ->
  _scrape_single_course cfg net' extract u
  = _scrape_single_course cfg net extract u.
Proof. intros H. unfold _scrape_single_course. by rewrite (fetch_local _ _ _ _ H). Qed.

Lemma scrape_single_fails cfg net extract u :
  _scrape_single_course cfg net extract u = None
  <-> fails_terminally cfg net extract u = true.
Proof.
  unfold _scrape_single_course, fails_terminally, parse_course.
  destruct (_fetch cfg net u) as [e|r]; [done|].
  by destruct (extract (body r) (base_url cfg)).
Qed.

Lemma scrape_single_url cfg net extract u r :
  _scrape_single_course cfg net extract u = Some r -> url r = u.
Proof.
  unfold _scrape_single_course, parse_course.
  destruct (_fetch cfg net u) as [e|resp]; [done|].
  destruct (extract (body resp) (base_url cfg)); [done|].
  by intros [= <-].
Qed.

Lemma gathered_nil cfg net extract : gathered cfg net extract [] = [].
Proof. done. Qed.

Lemma gathered_cons cfg net extract u urls :
  gathered cfg net extract (u :: urls)
  = option_list (_scrape_single_course cfg net extract u)
      ++ gathered cfg net extract urls.
Proof.
  unfold gathered. simpl.
  by destruct (_scrape_single_course cfg net extract u).
Qed.

Lemma gathered_app cfg net extract l1 l2 :
  gathered cfg net extract (l1 ++ l2)
  = gathered cfg net extract l1 ++ gathered cfg net extract l2.
Proof.
  induction l1 as [|u l1 IH]; [done|].
  rewrite <- app_comm_cons, !gathered_cons, IH. by rewrite app_assoc.
Qed.

Lemma gathered_length cfg net extract urls :
  length (gathered cfg net extract urls)
  + length (List.filter (fails_terminally cfg net extract) urls)
  = length urls.
Proof.
  induction urls as [|u urls IH]; [done|].
  rewrite gathered_cons, length_app. simpl.
  destruct (fails_terminally cfg net extract u) eqn:Hf.
  - apply scrape_single_fails in Hf as ->. simpl. lia.
  - destruct (_scrape_single_course cfg net extract u) eqn:Hs; simpl; [lia|].
    apply scrape_single_fails in Hs. congruence.
Qed.

Lemma gathered_urls cfg net extract urls :
  map url (gathered cfg net extract urls)
  = List.filter (fun u => negb (fails_terminally cfg net extract u)) urls.
Proof.
  induction urls as [|u urls IH]; [done|].
  rewrite gathered_cons, map_app, IH. simpl.
  destruct (_scrape_single_course cfg net extract u) as [r|] eqn:Hs.
  - assert (fails_terminally cfg net extract u = false) as ->.
    { destruct (fails_terminally cfg net extract u) eqn:Hf; [|done].
      apply scrape_single_fails in Hf. congruence. }
    simpl. by rewrite (scrape_single_url _ _ _ _ _ Hs).
  - apply scrape_single_fails in Hs as ->. done.
Qed.

Lemma gathered_local cfg (net net' : Network) extract urls :
  (forall u i, u ∈ urls -> net' u i = net u i) ->
  gathered cfg net' extract urls = gathered cfg net extract urls.
Proof.
  induction urls as [|u urls IH]; intros H; [done|].
  rewrite !gathered_cons, IH.
  - rewrite (scrape_single_local cfg net net' extract u); [done|].
    intros i. apply H. by left.
  - intros v i Hv. apply H. by right.
Qed.

(** The batch returns when the semaphore lets a task through. *)
Lemma scrape_courses_returns cfg net extract urls :
  (0 < concurrency cfg)%Z ->
  scrape_courses cfg net extract urls = Returns (gathered cfg net extract urls).
Proof.
  intros Hc. unfold scrape_courses.
  destruct (concurrency cfg <? 0)%Z eqn:Hneg; [apply Z.ltb_lt in Hneg; lia|].
  destruct (concurrency cfg =? 0)%Z eqn:Hz; [apply Z.eqb_eq in Hz; lia|done].
Qed.

(** ** Link extraction *)

Lemma elem_of_add u v (X : gset string) : u ∈ add v X <-> u = v \/ u ∈ X.
Proof. unfold add. set_solver. Qed.

(** *** Outcomes of extractions *)

Lemma collects_ext (J J' : Exception + string -> Prop) found r :
  (forall x, J x <-> J' x) -> collects J found r -> collects J' found r.
Proof.
  intros HJ. destruct r as [e|urls]; simpl; [by rewrite HJ|].
  intros [Hno Hin]. split.
  - intros e. rewrite <- HJ. apply Hno.
  - intros u. rewrite Hin. by rewrite HJ.
Qed.

Lemma collects_nothing found : collects (fun _ => False) found (inr found).
Proof. split; [intros e []|]. intros u. simpl. tauto. Qed.

(** No join here, then the rest. *)
Lemma collects_skip (J J' : Exception + string -> Prop) found r :
  (forall x, ~ J x) -> collects J' found r ->
  collects (fun x => J x \/ J' x) found r.
Proof.
  intros HJ. apply collects_ext. intros x. split; [by right|].
  by intros [?%HJ|?].
Qed.

(** A join that raises. *)
Lemma collects_raise (J : Exception + string -> Prop) (j : Exception + string)
    found e :
  j = inl e -> collects (fun x => x = j \/ J x) found (inl e).
Proof. intros ->. by left. Qed.

(** A join that returns, then the rest. *)
Lemma collects_add (J : Exception + string -> Prop) (j : Exception + string)
    found u r :
  j = inr u -> collects J (add u found) r ->
  collects (fun x => x = j \/ J x) found r.
Proof.
  intros ->. destruct r as [e|urls]; simpl; [by right|].
  intros [Hno Hin]. split.
  - intros e [?|?]; [done|by apply (Hno e)].
  - intros v. rewrite Hin, elem_of_add. split.
    + intros [[->|?]|?]; auto.
    + intros [?|[[= ->]|?]]; auto.
Qed.

(** One part, then another, from what the first leaves. *)
Lemma collects_bind (J1 J2 : Exception + string -> Prop) found r1
    (rest : gset string -> Exception + gset string) :
  collects J1 found r1 ->
  (forall urls, collects J2 urls (rest urls)) ->
  collects (fun x => J1 x \/ J2 x) found
    (match r1 with inl e => inl e | inr urls => rest urls end).
Proof.
  intros H1 H2. destruct r1 as [e|urls]; simpl in *; [by left|].
  specialize (H2 urls). destruct H1 as [Hno1 Hin1].
  destruct (rest urls) as [e|final]; simpl in *; [by right|].
  destruct H2 as [Hno2 Hin2]. split.
  - intros e [H|H]; [by apply (Hno1 e)|by apply (Hno2 e)].
  - intros u. rewrite Hin2, Hin1. tauto.
Qed.

Lemma collects_inr J found urls u :
  collects J found (inr urls) -> (u ∈ urls <-> u ∈ found \/ J (inr u)).
Proof. by intros [_ H]. Qed.

(** The outcome does not depend on the set the extraction starts from,
    beyond carrying it along. *)
Lemma collects_from J found r r0 :
  collects J found r -> collects J ∅ r0 ->
  (forall e, r = inl e <-> r0 = inl e) ->
  r = match r0 with inl e => inl e | inr urls => inr (found ∪ urls) end.
Proof.
  intros H H0 Hsame. destruct r0 as [e0|urls0].
  - by apply Hsame.
  - destruct r as [e|urls].
    + specialize (Hsame e). destruct Hsame as [Hs _]. by specialize (Hs eq_refl).
    + f_equal. apply set_eq. intros u.
      rewrite (collects_inr _ _ _ _ H), elem_of_union,
        (collects_inr _ _ _ _ H0). set_solver.
Qed.

(** *** The anchors of a document *)

Lemma document_join_nil `{HostValidation} base r : ~ document_join base [] r.
Proof. intros (href & Hin & _). by apply elem_of_nil in Hin. Qed.

Lemma document_join_cons `{HostValidation} base a doc r :
  document_join base (a :: doc) r
  <-> (exists href, a = Some href /\ contains "/course/" href = true
                    /\ canonical_url base href = r)
      \/ document_join base doc r.
Proof.
  unfold document_join. split.
  - intros (href & [<-|Hin]%elem_of_cons & Hc & Hr).
    + left. by exists href.
    + right. by exists href.
  - intros [(href & -> & Hc & Hr)|(href & Hin & Hc & Hr)]; exists href.
    + split; [by left|done].
    + split; [by right|done].
Qed.

Lemma course_links_loop_spec `{HostValidation} base html acc :
  collects (document_join base html) acc (course_links_loop base html acc).
Proof.
  revert acc. induction html as [|a html IH]; intros acc.
  - simpl. split; [intros e; apply document_join_nil|].
    intros u. split; [by left|]. intros [?|Hj]; [done|].
    by apply document_join_nil in Hj.
  - apply (collects_ext
             (fun x => (exists href, a = Some href
                          /\ contains "/course/" href = true
                          /\ canonical_url base href = x)
                       \/ document_join base html x)).
    { intros x. by rewrite document_join_cons. }
    cbn [course_links_loop].
    destruct a as [href|];
      [|apply collects_skip; [by intros x (? & ? & _)|apply IH]].
    destruct (contains "/course/" href) eqn:Hc.
    2:{ apply collects_skip; [|apply IH].
        intros x (? & [= <-] & ? & _). congruence. }
    destruct (String.eqb href "") eqn:He.
    { apply String.eqb_eq in He. subst href. by vm_compute in Hc. }
    apply (collects_ext
             (fun x => x = canonical_url base href
                       \/ document_join base html x)).
    { intros x. split.
      - intros [->|?]; [left; by exists href|by right].
      - intros [(? & [= <-] & _ & <-)|?]; [by left|by right]. }
    destruct (canonical_url base href) as [e|u] eqn:Hj.
    + by apply collects_raise.
    + apply (collects_add _ _ _ u); [done|apply IH].
Qed.

(** The links of a rendered document: the canonical forms of the [href]s
    that contain [/course/], unless a join raises. *)
Lemma course_links_spec `{HostValidation} html base :
  collects (document_join base html) ∅ (_course_links_from_html html base).
Proof. apply course_links_loop_spec. Qed.

Lemma course_links_inr `{HostValidation} html base links u :
  _course_links_from_html html base = inr links ->
  u ∈ links <-> link_of_document base html u.
Proof.
  intros Heq. pose proof (course_links_spec html base) as Hs.
  rewrite Heq in Hs. rewrite (collects_inr _ _ _ u Hs). set_solver.
Qed.

Lemma JSON_nested_ind (P : JSON -> Prop) :
  P JNull -> (forall b, P (JBool b)) -> (forall n, P (JInt n)) ->
  (forall l, P (JFloat l)) -> (forall s, P (JString s)) ->
  (forall items, Forall P items -> P (JArray items)) ->
  (forall members, Forall (fun kv => P (snd kv)) members ->
                   P (JObject members)) ->
  forall node, P node.
Proof.
  intros Hnull Hbool Hint Hfloat Hstr Harr Hobj.
  fix IH 1. intros [|b|n|l|s|items|members].
  - exact Hnull.
  - apply Hbool.
  - apply Hint.
  - apply Hfloat.
  - apply Hstr.
  - apply Harr.
    induction items as [|x xs IHxs]; constructor; [apply IH|exact IHxs].
  - apply Hobj.
    induction members as [|[k v] ms IHms]; constructor;
      [apply IH|exact IHms].
Qed.

(** *** The members of a payload *)

Lemma walk_array `{HostValidation} base x xs found :
  walk base (JArray (x :: xs)) found
  = match walk base x found with
    | inl e => inl e
    | inr found => walk base (JArray xs) found
    end.
Proof. done. Qed.

Lemma walk_object `{HostValidation} base k v ms found :
  walk base (JObject ((k, v) :: ms)) found
  = match add_course_link base v found with
    | inl e => inl e
    | inr found =>
        match add_slug_link base k v found with
        | inl e => inl e
        | inr found =>
            match walk base v found with
            | inl e => inl e
            | inr found => walk base (JObject ms) found
            end
        end
    end.
Proof. done. Qed.

Lemma joined_leaf `{HostValidation} base node r :
  match node with JArray _ | JObject _ => False | _ => True end ->
  ~ joined base node r.
Proof. intros Hleaf (k & s & Hin & _). by destruct Hin. Qed.

Lemma joined_array `{HostValidation} base items r :
  joined base (JArray items) r
  <-> exists node, node ∈ items /\ joined base node r.
Proof.
  split.
  - intros (k & s & Hin & Hl). inversion Hin as [| |? node Hnode Hentry]; subst.
    exists node. split; [done|]. by exists k, s.
  - intros (node & Hin & k & s & Hentry & Hl). exists k, s.
    split; [|done]. by apply (entry_item _ _ _ node).
Qed.

Lemma joined_object `{HostValidation} base members r :
  joined base (JObject members) r
  <-> exists k v, (k, v) ∈ members
        /\ ((exists s, v = JString s /\ entry_join base k s r)
            \/ joined base v r).
Proof.
  split.
  - intros (k & s & Hin & Hl).
    inversion Hin as [? Hmem|? k' node Hmem Hentry|]; subst.
    + exists k, (JString s). split; [done|]. left. by exists s.
    + exists k', node. split; [done|]. right. by exists k, s.
  - intros (k & v & Hin & [(s & -> & Hl)|(k' & s & Hentry & Hl)]).
    + exists k, s. split; [|done]. by apply entry_here.
    + exists k', s. split; [|done]. by apply (entry_member _ _ _ k v).
Qed.

Lemma add_course_link_spec `{HostValidation} base v found :
  collects (fun x => exists s, v = JString s /\ contains "/course/" s = true
                               /\ x = canonical_url base s)
    found (add_course_link base v found).
Proof.
  assert (forall J : Exception + string -> Prop,
            (forall x, ~ J x) -> collects J found (inr found)) as Hnone.
  { intros J HJ. apply (collects_ext (fun _ => False));
      [|apply collects_nothing]. intros x. split; [done|apply HJ]. }
  destruct v as [|b|n|l|s|items|members]; cbn [add_course_link];
    try (apply Hnone; by intros x (? & ? & _)).
  destruct (contains "/course/" s) eqn:Hc.
  2:{ apply Hnone. intros x (? & [= <-] & ? & _). congruence. }
  apply (collects_ext (fun x => x = canonical_url base s \/ False)).
  { intros x. split; [intros [->|[]]; by exists s|].
    intros (? & [= <-] & _ & ->). by left. }
  destruct (canonical_url base s) as [e|u] eqn:Hj.
  - by apply collects_raise.
  - apply (collects_add _ _ _ u); [done|]. apply collects_nothing.
Qed.

Lemma add_slug_link_spec `{HostValidation} base k v found :
  collects (fun x => exists s, v = JString s /\ is_slug_key k = true
                               /\ x = urljoin base ("/course/" ++ s))
    found (add_slug_link base k v found).
Proof.
  assert (forall J : Exception + string -> Prop,
            (forall x, ~ J x) -> collects J found (inr found)) as Hnone.
  { intros J HJ. apply (collects_ext (fun _ => False));
      [|apply collects_nothing]. intros x. split; [done|apply HJ]. }
  destruct v as [|b|n|l|s|items|members]; cbn [add_slug_link];
    try (apply Hnone; by intros x (? & ? & _)).
  destruct (is_slug_key k) eqn:Hk.
  2:{ apply Hnone. by intros x (? & _ & ? & _). }
  apply (collects_ext (fun x => x = urljoin base ("/course/" ++ s) \/ False)).
  { intros x. split; [intros [->|[]]; by exists s|].
    intros (? & [= <-] & _ & ->). by left. }
  destruct (urljoin base ("/course/" ++ s)) as [e|u] eqn:Hj.
  - by apply collects_raise.
  - apply (collects_add _ _ _ u); [done|]. apply collects_nothing.
Qed.

(** What the walk adds to [found]: the links of the members nested in
    [node], unless a join raises. *)
Lemma walk_spec `{HostValidation} base node :
  forall found, collects (joined base node) found (walk base node found).
Proof.
  induction node as [|b|n|l|s|items IH|members IH] using JSON_nested_ind;
    intros found;
    try (apply (collects_ext (fun _ => False)); [|apply collects_nothing];
         intros x; split; [done|by apply joined_leaf]).
  - apply (collects_ext (fun x => exists node, node ∈ items
                                               /\ joined base node x)).
    { intros x. by rewrite joined_array. }
    revert found. induction IH as [|x xs Hx Hxs IHxs]; intros found.
    + apply (collects_ext (fun _ => False)); [|apply collects_nothing].
      intros y. split; [done|]. intros (node & Hin & _).
      by apply elem_of_nil in Hin.
    + rewrite walk_array.
      apply (collects_ext
               (fun y => joined base x y
                         \/ exists node, node ∈ xs /\ joined base node y)).
      { intros y. split.
        - intros [?|(node & Hin & ?)].
          + exists x. split; [by left|done].
          + exists node. split; [by right|done].
        - intros (node & [->|Hin]%elem_of_cons & ?); [by left|].
          right. by exists node. }
      apply collects_bind; [apply Hx|apply IHxs].
  - apply (collects_ext
             (fun x => exists k v, (k, v) ∈ members
                 /\ ((exists s, v = JString s /\ entry_join base k s x)
                     \/ joined base v x))).
    { intros x. by rewrite joined_object. }
    revert found. induction IH as [|[k v] ms Hv Hms IHms]; intros found.
    + apply (collects_ext (fun _ => False)); [|apply collects_nothing].
      intros y. split; [done|]. intros (k & v & Hin & _).
      by apply elem_of_nil in Hin.
    + rewrite walk_object. simpl in Hv.
      apply (collects_ext
               (fun y =>
                  (exists s, v = JString s /\ contains "/course/" s = true
                             /\ y = canonical_url base s)
                  \/ (exists s, v = JString s /\ is_slug_key k = true
                                /\ y = urljoin base ("/course/" ++ s))
                  \/ joined base v y
                  \/ exists k' v', (k', v') ∈ ms
                       /\ ((exists s, v' = JString s
                                      /\ entry_join base k' s y)
                           \/ joined base v' y))).
      { intros y. unfold entry_join. split.
        - intros [(s & -> & Hc & ->)|[(s & -> & Hk & ->)|[Hj|Hrest]]].
          + exists k, (JString s). split; [by left|]. left. exists s. auto.
          + exists k, (JString s). split; [by left|]. left. exists s. auto.
          + exists k, v. split; [by left|by right].
          + destruct Hrest as (k' & v' & Hin & Hor). exists k', v'.
            split; [by right|done].
        - intros (k' & v' & [[= -> ->]|Hin]%elem_of_cons & Hor).
          + destruct Hor as [(s & -> & [[Hc ->]|[Hk ->]])|Hj].
            * left. by exists s.
            * right. left. by exists s.
            * right. right. by left.
          + right. right. right. by exists k', v'. }
      apply collects_bind; [apply add_course_link_spec|]. intros f1.
      apply collects_bind; [apply add_slug_link_spec|]. intros f2.
      apply collects_bind; [apply Hv|apply IHms].
Qed.

(** The links extracted from a payload. *)
Lemma extract_links_spec `{HostValidation} cfg payload :
  collects (joined (base_url cfg) payload) ∅
    (_extract_course_links_from_json cfg payload).
Proof. apply walk_spec. Qed.

Lemma extract_links_inr `{HostValidation} cfg payload links u :
  _extract_course_links_from_json cfg payload = inr links ->
  u ∈ links <-> extracted (base_url cfg) payload u.
Proof.
  intros Heq. pose proof (extract_links_spec cfg payload) as Hs.
  rewrite Heq in Hs. rewrite (collects_inr _ _ _ u Hs).
  unfold extracted. set_solver.
Qed.

(** ** [range] *)

Lemma range_nil lo hi : (hi <= lo)%Z -> range lo hi = [].
Proof. intros H. unfold range. by replace (Z.to_nat (hi - lo)) with 0 by lia. Qed.

Lemma range_cons lo hi : (lo < hi)%Z -> range lo hi = lo :: range (lo + 1) hi.
Proof.
  intros H. unfold range.
  replace (Z.to_nat (hi - lo)) with (S (Z.to_nat (hi - (lo + 1)))) by lia.
  cbn [seq List.map]. f_equal; [lia|].
  rewrite <- seq_shift, List.map_map. apply List.map_ext. intros i. lia.
Qed.

Lemma elem_of_range lo hi p : p ∈ range lo hi <-> (lo <= p < hi)%Z.
Proof.
  unfold range. rewrite list_elem_of_In, in_map_iff. split.
  - intros (i & <- & Hi%in_seq). lia.
  - intros H. exists (Z.to_nat (p - lo)). split; [lia|]. apply in_seq. lia.
Qed.

Lemma range_split lo hi f p r :
  range lo hi = f ++ p :: r ->
  f = range lo p /\ r = range (p + 1) hi /\ (lo <= p < hi)%Z.
Proof.
  revert lo. induction f as [|x f IH]; intros lo Heq.
  - destruct (decide (lo < hi)%Z) as [Hlt|Hge].
    + rewrite range_cons in Heq by done. injection Heq as <- <-.
      rewrite range_nil by lia. repeat split; lia.
    + by rewrite range_nil in Heq by lia.
  - destruct (decide (lo < hi)%Z) as [Hlt|Hge].
    + rewrite range_cons in Heq by done. simpl in Heq.
      injection Heq as <- Heq. destruct (IH _ Heq) as (-> & -> & Hp).
      rewrite (range_cons lo p) by lia. repeat split; lia.
    + by rewrite range_nil in Heq by lia.
Qed.

Lemma range_app lo mid hi :
  (lo <= mid <= hi)%Z -> range lo hi = range lo mid ++ range mid hi.
Proof.
  intros H. remember (Z.to_nat (mid - lo)) as n eqn:Hn.
  revert lo H Hn. induction n as [|n IH]; intros lo H Hn.
  - assert (lo = mid) as -> by lia. by rewrite (range_nil mid mid) by lia.
  - rewrite (range_cons lo hi), (range_cons lo mid) by lia. simpl.
    f_equal. apply IH; lia.
Qed.

Lemma length_range lo hi : length (range lo hi) = Z.to_nat (hi - lo).
Proof. unfold range. by rewrite length_map, length_seq. Qed.

Lemma NoDup_range lo hi : NoDup (range lo hi).
Proof.
  unfold range. apply NoDup_fmap_2; [|apply NoDup_seq].
  intros i j Hij. lia.
Qed.

Lemma range_prefix_length lo hi f rest :
  range lo hi = f ++ rest -> f = range lo (lo + Z.of_nat (length f)).
Proof.
  revert lo. induction f as [|x f IH]; intros lo Heq.
  - by rewrite range_nil by (simpl; lia).
  - destruct (decide (lo < hi)%Z) as [Hlt|Hge].
    + rewrite range_cons in Heq by done. injection Heq as <- Heq.
      rewrite (range_cons lo) by (simpl; lia). f_equal.
      rewrite (IH _ Heq) at 1. f_equal. simpl. lia.
    + by rewrite range_nil in Heq by lia.
Qed.

(** A prefix of a range that does not hold [p] ends below [p]. *)
Lemma range_prefix_last lo hi f l rest p :
  range lo hi = (f ++ [l]) ++ rest -> (lo <= p < hi)%Z -> p ∉ f ++ [l] ->
  (l < p)%Z /\ rest <> [].
Proof.
  intros Heq Hp Hnotin. rewrite <- app_assoc in Heq. simpl in Heq.
  destruct (range_split _ _ _ _ _ Heq) as (-> & -> & Hl).
  assert (l < p)%Z as Hlt.
  { destruct (decide (l < p)%Z) as [|Hge]; [done|]. exfalso. apply Hnotin.
    destruct (decide (p = l)) as [->|Hne]; [set_solver|].
    apply elem_of_app. left. apply elem_of_range. lia. }
  split; [done|]. intros Hnil.
  assert (p ∈ range (l + 1) hi) as Hin by (apply elem_of_range; lia).
  rewrite Hnil in Hin. by apply elem_of_nil in Hin.
Qed.

(** ** The DOM listing walker *)

Lemma stagnant_iff (urls X : gset string) :
  size (urls ∪ X) = size urls <-> X ⊆ urls.
Proof.
  split.
  - intros Hs. assert (urls = urls ∪ X) as Heq.
    { apply set_subseteq_size_eq; [set_solver|lia]. }
    set_solver.
  - intros Hsub. by assert (urls ∪ X = urls) as -> by set_solver.
Qed.

Lemma accumulate_app `{HostValidation} cfg b f g urls :
  accumulate cfg b (f ++ g) urls = accumulate cfg b g (accumulate cfg b f urls).
Proof. apply fold_left_app. Qed.

Lemma accumulate_subseteq `{HostValidation} cfg b f urls :
  urls ⊆ accumulate cfg b f urls.
Proof.
  revert urls. induction f as [|p f IH]; intros urls; simpl; [done|].
  etrans; [|apply IH]. set_solver.
Qed.

Lemma elem_of_accumulate `{HostValidation} cfg b f urls u :
  u ∈ accumulate cfg b f urls
  <-> u ∈ urls \/ exists p, p ∈ f /\ u ∈ links_of (page_links cfg b p).
Proof.
  revert urls. induction f as [|p f IH]; intros urls; simpl.
  - split; [by left|]. intros [Hu|(p & Hp & _)]; [done|].
    by apply elem_of_nil in Hp.
  - rewrite IH. set_solver.
Qed.

Lemma dom_pagination_cons `{HostValidation} cfg b p rest urls :
  dom_pagination cfg b (p :: rest) urls =
  match page_links cfg b p with
  | inl e => (inl e, [p])
  | inr links =>
      if bool_decide (links = ∅) then (inr urls, [p])
      else if bool_decide (links ⊆ urls) && (grace_pages <? p)%Z
           then (inr (urls ∪ links), [p])
           else let '(final, fetched) :=
                  dom_pagination cfg b rest (urls ∪ links) in
                (final, p :: fetched)
  end.
Proof.
  cbn [dom_pagination]. fold (page_links cfg b p).
  destruct (page_links cfg b p) as [e|links]; [done|].
  destruct (bool_decide (links = ∅)); [done|].
  by rewrite (bool_decide_ext _ _ (stagnant_iff urls links)).
Qed.

(** The loop: where it stops, where it does not, and what it returns. *)
Lemma dom_pagination_spec `{HostValidation} cfg b ps urls :
  let '(final, fetched) := dom_pagination cfg b ps urls in
  (fetched = [] -> ps = [])
  /\ (exists rest, ps = fetched ++ rest
        /\ forall f p, fetched = f ++ [p] -> rest <> [] ->
                       dom_end cfg b (accumulate cfg b f urls) p)
  /\ (forall f p f', fetched = f ++ p :: f' -> f' <> [] ->
                     ~ dom_end cfg b (accumulate cfg b f urls) p)
  /\ match final with
     | inr known =>
         known = accumulate cfg b fetched urls
         /\ forall p, p ∈ fetched ->
                      exists links, page_links cfg b p = inr links
     | inl e =>
         exists f p, fetched = f ++ [p] /\ page_links cfg b p = inl e
     end.
Proof.
  revert urls. induction ps as [|p0 ps IH]; intros urls.
  - simpl. split; [done|]. split; [|split].
    + exists []. split; [done|]. by intros [|??] ?.
    + by intros [|??] ???.
    + split; [done|]. intros p Hp. by apply elem_of_nil in Hp.
  - rewrite dom_pagination_cons.
    assert (forall final : Exception + gset string,
              dom_end cfg b urls p0 ->
              ([p0] = [] -> p0 :: ps = [])
              /\ (exists rest, p0 :: ps = [p0] ++ rest
                    /\ forall f p, [p0] = f ++ [p] -> rest <> [] ->
                                   dom_end cfg b (accumulate cfg b f urls) p)
              /\ (forall f p f', [p0] = f ++ p :: f' -> f' <> [] ->
                    ~ dom_end cfg b (accumulate cfg b f urls) p)) as Hlast.
    { intros _ Hend. split; [done|]. split.
      - exists ps. split; [done|]. intros [|x f] p Heq _.
        + by injection Heq as <-.
        + by destruct f.
      - intros [|x f] p f' Heq Hf'.
        + by injection Heq as <- <-.
        + by destruct f. }
    destruct (page_links cfg b p0) as [e|links] eqn:Hlinks.
    { destruct (Hlast (inl e)) as (H1 & H2 & H3).
      { right. by exists e. }
      do 3 (split; [done|]). by exists [], p0. }
    destruct (bool_decide (links = ∅)) eqn:Hempty.
    { apply bool_decide_eq_true in Hempty.
      destruct (Hlast (inr urls)) as (H1 & H2 & H3).
      { left. exists links. split; [done|by left]. }
      do 3 (split; [done|]). split.
      - simpl. rewrite Hlinks, Hempty. set_solver.
      - intros p ->%list_elem_of_singleton. by exists links. }
    apply bool_decide_eq_false in Hempty.
    destruct (bool_decide (links ⊆ urls) && (grace_pages <? p0)%Z) eqn:Hstag.
    { apply andb_true_iff in Hstag as [Hsub%bool_decide_eq_true Hp%Z.ltb_lt].
      destruct (Hlast (inr urls)) as (H1 & H2 & H3).
      { left. exists links. split; [done|by right]. }
      do 3 (split; [done|]). split.
      - simpl. by rewrite Hlinks.
      - intros p ->%list_elem_of_singleton. by exists links. }
    clear Hlast.
    assert (~ dom_end cfg b urls p0) as Hgo.
    { intros [(links' & Heq & Hor)|(e & Heq)]; [|congruence].
      assert (links' = links) as -> by congruence.
      destruct Hor as [?|[Hsub Hp]]; [done|].
      apply andb_false_iff in Hstag as [Hn%bool_decide_eq_false|Hn%Z.ltb_ge];
        [done|lia]. }
    specialize (IH (urls ∪ links)).
    destruct (dom_pagination cfg b ps (urls ∪ links)) as [final fetched].
    destruct IH as (Hnil & (rest & Hps & Hstop) & Hcont & Hfinal).
    assert (forall f, accumulate cfg b (p0 :: f) urls
                      = accumulate cfg b f (urls ∪ links)) as Hacc.
    { intros f. simpl. by rewrite Hlinks. }
    split; [done|]. split; [|split].
    + exists rest. split; [by rewrite Hps|]. intros [|x f] p Heq Hrest.
      * injection Heq as <- Heq. subst fetched. rewrite Hnil in Hps by done.
        simpl in Hps. by subst rest.
      * injection Heq as <- Heq. rewrite Hacc. by apply Hstop.
    + intros [|x f] p f' Heq Hf'.
      * by injection Heq as <- _.
      * injection Heq as <- Heq. rewrite Hacc. by apply (Hcont f p f').
    + destruct final as [e|known].
      * destruct Hfinal as (f & p & -> & Hp). by exists (p0 :: f), p.
      * destruct Hfinal as [-> Hall]. split; [by rewrite Hacc|].
        intros p [->|Hp]%elem_of_cons; [by exists links|by apply Hall].
Qed.

Lemma dom_walk_cases `{HostValidation} cfg b :
  match first_links cfg b with
  | inl e => dom_walk cfg b = (inl e, [])
  | inr first =>
      dom_walk cfg b
      = dom_pagination cfg b (range 2 (max_listing_pages cfg + 1)) first
  end.
Proof.
  unfold dom_walk. fold (first_links cfg b).
  by destruct (first_links cfg b).
Qed.

(** The walk requests a prefix of the pages 2 .. maximum. *)
Lemma dom_walk_prefix `{HostValidation} cfg b :
  exists rest,
    range 2 (max_listing_pages cfg + 1) = dom_pages_fetched cfg b ++ rest.
Proof.
  unfold dom_pages_fetched. pose proof (dom_walk_cases cfg b) as Hw.
  destruct (first_links cfg b) as [e|first]; rewrite Hw; [by eexists|].
  pose proof (dom_pagination_spec cfg b (range 2 (max_listing_pages cfg + 1))
                first) as Hs.
  destruct (dom_pagination _ _ _ _) as [final fetched].
  destruct Hs as (_ & (rest & Hps & _) & _). by exists rest.
Qed.

(** Where a requested page sits in the walk. *)
Lemma dom_fetched_at `{HostValidation} cfg b p :
  p ∈ dom_pages_fetched cfg b ->
  exists after,
    dom_pages_fetched cfg b = range 2 p ++ p :: after
    /\ (2 <= p <= max_listing_pages cfg)%Z
    /\ (exists first, first_links cfg b = inr first)
    /\ (after <> [] -> ~ dom_end cfg b (known_before cfg b p) p)
    /\ (after = [] -> (p < max_listing_pages cfg)%Z ->
        dom_end cfg b (known_before cfg b p) p).
Proof.
  unfold dom_pages_fetched, known_before.
  pose proof (dom_walk_cases cfg b) as Hw.
  destruct (first_links cfg b) as [e|first]; rewrite Hw;
    [intros Hin; by apply elem_of_nil in Hin|].
  pose proof (dom_pagination_spec cfg b (range 2 (max_listing_pages cfg + 1))
                first) as Hs.
  destruct (dom_pagination _ _ _ _) as [final fetched]. simpl.
  destruct Hs as (_ & (rest & Hps & Hstop) & Hcont & _).
  intros (f & after & ->)%list_elem_of_split.
  rewrite <- app_assoc in Hps. simpl in Hps.
  destruct (range_split _ _ _ _ _ Hps) as (-> & Hrest & Hp).
  exists after. split; [done|]. split; [lia|]. split; [by exists first|].
  split.
  - intros Hafter. by apply (Hcont _ _ after).
  - intros -> Hlt. apply (Hstop _ _ eq_refl).
    simpl in Hrest. rewrite Hrest, range_cons by lia. done.
Qed.

Lemma dom_stop_ends `{HostValidation} cfg b p :
  p ∈ dom_pages_fetched cfg b ->
  dom_end cfg b (known_before cfg b p) p ->
  last (dom_pages_fetched cfg b) = Some p.
Proof.
  intros Hin Hstop.
  destruct (dom_fetched_at cfg b p Hin) as (after & -> & _ & _ & Hgo & _).
  destruct after as [|x after]; [by rewrite last_snoc|].
  by destruct Hgo.
Qed.

Lemma dom_last_cases `{HostValidation} cfg b p :
  last (dom_pages_fetched cfg b) = Some p ->
  p = max_listing_pages cfg \/ dom_end cfg b (known_before cfg b p) p.
Proof.
  intros (l & Hl)%last_Some.
  assert (p ∈ dom_pages_fetched cfg b) as Hin by (rewrite Hl; set_solver).
  destruct (dom_fetched_at cfg b p Hin) as (after & Heq & Hp & _ & _ & Hstop).
  assert (after = []) as ->.
  { destruct (dom_walk_prefix cfg b) as (rest & Hps).
    rewrite Hl, <- app_assoc in Hps. simpl in Hps.
    destruct (range_split _ _ _ _ _ Hps) as (-> & _ & _).
    rewrite Hl in Heq. apply app_inv_head in Heq. by injection Heq. }
  destruct (decide (p = max_listing_pages cfg)); [by left|].
  right. apply Hstop; [done|lia].
Qed.

(** A page is requested exactly when the first extraction returned and
    the loop ended at no page before it. *)
Lemma dom_fetched_iff `{HostValidation} cfg b p :
  p ∈ dom_pages_fetched cfg b
  <-> (2 <= p <= max_listing_pages cfg)%Z
      /\ (exists first, first_links cfg b = inr first)
      /\ forall q, (2 <= q < p)%Z -> ~ dom_end cfg b (known_before cfg b q) q.
Proof.
  split.
  - intros Hin.
    destruct (dom_fetched_at cfg b p Hin) as (after & Heq & Hp & Hfirst & _).
    do 2 (split; [done|]). intros q Hq.
    assert (q ∈ dom_pages_fetched cfg b) as Hqin.
    { rewrite Heq. apply elem_of_app. left. by apply elem_of_range. }
    destruct (dom_fetched_at cfg b q Hqin) as (after' & Heq' & _ & _ & Hgo & _).
    apply Hgo. intros ->. rewrite Heq' in Hin.
    apply elem_of_app in Hin as [Hin|Hin].
    + apply elem_of_range in Hin. lia.
    + apply list_elem_of_singleton in Hin. lia.
  - intros (Hp & (first & Hfirst) & Hgo).
    destruct (decide (p ∈ dom_pages_fetched cfg b)) as [|Hnotin]; [done|].
    exfalso. destruct (dom_walk_prefix cfg b) as (rest & Hps).
    destruct (decide (dom_pages_fetched cfg b = [])) as [Hf|Hne].
    + clear Hnotin. unfold dom_pages_fetched in Hf.
      pose proof (dom_walk_cases cfg b) as Hw. rewrite Hfirst in Hw.
      rewrite Hw in Hf.
      pose proof (dom_pagination_spec cfg b
                    (range 2 (max_listing_pages cfg + 1)) first) as Hs.
      destruct (dom_pagination _ _ _ _) as [final fetched]. simpl in Hf.
      destruct Hs as (Hnil & _). specialize (Hnil Hf).
      rewrite range_cons in Hnil by lia. done.
    + destruct (exists_last Hne) as (l & x & Hf). rewrite Hf in Hps, Hnotin.
      destruct (range_prefix_last _ _ _ _ _ p Hps ltac:(lia) Hnotin)
        as [Hlt Hrest].
      assert (x ∈ dom_pages_fetched cfg b) as Hx by (rewrite Hf; set_solver).
      destruct (dom_fetched_at cfg b x Hx)
        as (after & Heq & Hxb & _ & _ & Hstop).
      assert (after = []) as ->.
      { rewrite <- app_assoc in Hps. simpl in Hps.
        destruct (range_split _ _ _ _ _ Hps) as (-> & _ & _).
        rewrite Hf in Heq. apply app_inv_head in Heq. by injection Heq. }
      apply (Hgo x); [lia|]. apply Hstop; [done|lia].
Qed.

Lemma dom_exhausted_bound `{HostValidation} cfg b K :
  (forall p, (K <= p)%Z ->
             links_of (page_links cfg b p) ⊆ known_before cfg b p) ->
  forall p, p ∈ dom_pages_fetched cfg b -> (p <= Z.max K (grace_pages + 1))%Z.
Proof.
  intros Hdry p Hin. set (q := Z.max K (grace_pages + 1)).
  destruct (decide (p <= q)%Z) as [|Hgt]; [done|]. exfalso.
  apply dom_fetched_iff in Hin as (Hp & _ & Hgo).
  apply (Hgo q); [unfold grace_pages in *; lia|].
  specialize (Hdry q ltac:(lia)).
  destruct (page_links cfg b q) as [e|links] eqn:Hl; [right; by exists e|].
  left. exists links. split; [done|]. right.
  split; [done|unfold grace_pages in *; lia].
Qed.

(** What the walker returns: the links of the documents it loaded, or the
    exception of a join in one of them. *)
Lemma dom_result `{HostValidation} cfg b :
  collects (fun r => exists doc, dom_document cfg b doc
                                 /\ document_join (base_url cfg) doc r)
    ∅ (_collect_listing_urls_dom cfg b).
Proof.
  unfold _collect_listing_urls_dom, dom_document, dom_pages_fetched.
  pose proof (dom_walk_cases cfg b) as Hw.
  pose proof (course_links_spec (scrolled b (listing_url cfg)) (base_url cfg))
    as Hfirst.
  fold (first_links cfg b) in Hfirst.
  destruct (first_links cfg b) as [e|first]; rewrite Hw.
  { simpl in *. eexists. split; [by left|done]. }
  pose proof (dom_pagination_spec cfg b (range 2 (max_listing_pages cfg + 1))
                first) as Hs.
  destruct (dom_pagination _ _ _ _) as [final fetched].
  destruct Hs as (_ & _ & _ & Hfinal).
  assert (forall p, collects (document_join (base_url cfg)
                                (goto b (paged_url cfg p))) ∅
                      (page_links cfg b p)) as Hpage.
  { intros p. apply course_links_spec. }
  destruct final as [e|known]; cbn [fst snd collects].
  - destruct Hfinal as (f & p & -> & Hp). specialize (Hpage p).
    rewrite Hp in Hpage. simpl in Hpage. eexists. split; [|exact Hpage].
    right. exists p. split; [set_solver|done].
  - destruct Hfinal as [-> Hall]. destruct Hfirst as [Hno1 Hin1]. split.
    + intros e (doc & [->|(p & Hp & ->)] & Hj); [by apply (Hno1 e)|].
      destruct (Hall p Hp) as (links & Hl). specialize (Hpage p).
      rewrite Hl in Hpage. destruct Hpage as [Hno _]. by apply (Hno e).
    + intros u. rewrite elem_of_accumulate, Hin1. split.
      * intros [[?|Hj]|(p & Hp & Hu)]; [by left| |].
        -- right. eexists. split; [by left|done].
        -- destruct (Hall p Hp) as (links & Hl). specialize (Hpage p).
           rewrite Hl in Hpage, Hu. simpl in Hu.
           apply (collects_inr _ _ _ u) in Hpage.
           right. eexists. split; [right; by exists p|]. set_solver.
      * intros [?|(doc & [->|(p & Hp & ->)] & Hj)]; [by left; left| |].
        -- left. by right.
        -- right. exists p. split; [done|].
           destruct (Hall p Hp) as (links & Hl). specialize (Hpage p).
           rewrite Hl in Hpage |- *. simpl.
           apply (collects_inr _ _ _ u) in Hpage. apply Hpage. by right.
Qed.

(** ** The API listing walker *)

Lemma dict_set_twice k v w (q : Query) :
  dict_set k v (dict_set k w q) = dict_set k v q.
Proof.
  induction q as [|[k' v'] q IH]; simpl.
  - by rewrite String.eqb_refl.
  - destruct (String.eqb k k') eqn:Hk; simpl.
    + by rewrite String.eqb_refl.
    + by rewrite Hk, IH.
Qed.

Lemma api_pagination_cons `{HostValidation} cfg net ep q page rest urls :
  (forall v, dict_set "page" v q = dict_set "page" v (ep_query ep)) ->
  api_pagination cfg net ep q (page :: rest) urls =
  match api_page_links cfg net ep page with
  | None => (inr urls, [(page, page_request ep page)])
  | Some (inl e) => (inl e, [(page, page_request ep page)])
  | Some (inr links) =>
      if bool_decide (links = ∅)
      then (inr urls, [(page, page_request ep page)])
      else let '(final, reqs) :=
             api_pagination cfg net ep (page_query ep page) rest
               (urls ∪ links) in
           (final, (page, page_request ep page) :: reqs)
  end.
Proof.
  intros Hq. cbn [api_pagination]. rewrite Hq.
  fold (page_query ep page). fold (page_request ep page).
  unfold api_page_links, api_payload.
  destruct (_fetch cfg net (page_request ep page)) as [e|r]; [done|].
  by destruct (json r) as [[]|payload].
Qed.

(** The loop: the requests it issues, where it stops, where it does not,
    and what it returns. *)
Lemma api_pagination_spec `{HostValidation} cfg net ep q pages urls :
  (forall v, dict_set "page" v q = dict_set "page" v (ep_query ep)) ->
  let '(final, reqs) := api_pagination cfg net ep q pages urls in
  map snd reqs = map (page_request ep) (map fst reqs)
  /\ (reqs = [] -> pages = [])
  /\ (exists rest, pages = map fst reqs ++ rest
        /\ forall f p, map fst reqs = f ++ [p] -> rest <> [] ->
                       api_end cfg net ep p)
  /\ (forall f p f', map fst reqs = f ++ p :: f' -> f' <> [] ->
                     ~ api_end cfg net ep p)
  /\ match final with
     | inr known =>
         known = api_accumulate cfg net ep (map fst reqs) urls
         /\ forall p e, p ∈ map fst reqs ->
                        api_page_links cfg net ep p <> Some (inl e)
     | inl e =>
         exists f p, map fst reqs = f ++ [p]
                     /\ api_page_links cfg net ep p = Some (inl e)
     end.
Proof.
  revert q urls. induction pages as [|p0 ps IH]; intros q urls Hq.
  - simpl. split; [done|]. split; [done|]. split; [|split].
    + exists []. split; [done|]. by intros [|??] ?.
    + by intros [|??] ???.
    + split; [done|]. intros p e Hp. by apply elem_of_nil in Hp.
  - rewrite api_pagination_cons by done.
    assert (api_end cfg net ep p0 ->
            let reqs := [(p0, page_request ep p0)] in
            map snd reqs = map (page_request ep) (map fst reqs)
            /\ (reqs = [] -> p0 :: ps = [])
            /\ (exists rest, p0 :: ps = map fst reqs ++ rest
                  /\ forall f p, map fst reqs = f ++ [p] -> rest <> [] ->
                                 api_end cfg net ep p)
            /\ (forall f p f', map fst reqs = f ++ p :: f' -> f' <> [] ->
                               ~ api_end cfg net ep p)) as Hlast.
    { intros Hend. simpl. split; [done|]. split; [done|]. split.
      - exists ps. split; [done|]. intros [|x f] p Heq _.
        + by injection Heq as <-.
        + by destruct f.
      - intros [|x f] p f' Heq Hf'.
        + by injection Heq as <- <-.
        + by destruct f. }
    destruct (api_page_links cfg net ep p0) as [[e|links]|] eqn:Hlinks.
    + destruct Hlast as (H1 & H2 & H3 & H4).
      { right. by exists e. }
      do 4 (split; [done|]). by exists [], p0.
    + destruct (bool_decide (links = ∅)) eqn:Hempty.
      { apply bool_decide_eq_true in Hempty.
        destruct Hlast as (H1 & H2 & H3 & H4).
        { left. unfold api_stop. by rewrite Hlinks. }
        do 4 (split; [done|]). split.
        - simpl. rewrite Hlinks. simpl. set_solver.
        - intros p e Hp%list_elem_of_singleton. simpl in Hp.
          by rewrite Hp, Hlinks. }
      apply bool_decide_eq_false in Hempty. clear Hlast.
      assert (~ api_end cfg net ep p0) as Hgo.
      { unfold api_end, api_stop. rewrite Hlinks.
        intros [?|(e & ?)]; done. }
      specialize (IH (page_query ep p0) (urls ∪ links)
                    (fun v => dict_set_twice "page" v _ (ep_query ep))).
      destruct (api_pagination cfg net ep (page_query ep p0) ps (urls ∪ links))
        as [final reqs].
      destruct IH as (Hreqs & Hnil & (rest & Hps & Hstop) & Hcont & Hfinal).
      split; [simpl; by rewrite Hreqs|]. split; [done|]. split; [|split].
      * exists rest. split; [simpl; by rewrite Hps|].
        intros [|x f] p Heq Hrest; simpl in Heq.
        -- injection Heq as <- Heq. apply map_eq_nil in Heq.
           rewrite Hnil in Hps by done. rewrite Heq in Hps. simpl in Hps.
           by subst rest.
        -- injection Heq as <- Heq. by apply (Hstop f).
      * intros [|x f] p f' Heq Hf'; simpl in Heq.
        -- by injection Heq as <- _.
        -- injection Heq as <- Heq. by apply (Hcont f p f').
      * destruct final as [e|known].
        -- destruct Hfinal as (f & p & Heq & Hp). exists (p0 :: f), p.
           split; [simpl; by rewrite Heq|done].
        -- destruct Hfinal as [-> Hall]. split.
           ++ simpl. by rewrite Hlinks.
           ++ intros p e [Hp|Hp]%elem_of_cons; [|by apply Hall].
              simpl in Hp. by rewrite Hp, Hlinks.
    + destruct Hlast as (H1 & H2 & H3 & H4).
      { left. unfold api_stop. by rewrite Hlinks. }
      do 4 (split; [done|]). split.
      * simpl. rewrite Hlinks. simpl. set_solver.
      * intros p e Hp%list_elem_of_singleton. simpl in Hp.
          by rewrite Hp, Hlinks.
Qed.

Lemma walk_endpoint_spec `{HostValidation} cfg net ep urls :
  let fetched := api_pages_fetched cfg net ep urls in
  map snd (snd (walk_endpoint cfg net ep urls))
  = map (page_request ep) fetched
  /\ (fetched = [] -> range 1 (max_listing_pages cfg + 1) = [])
  /\ (exists rest, range 1 (max_listing_pages cfg + 1) = fetched ++ rest
        /\ forall f p, fetched = f ++ [p] -> rest <> [] ->
                       api_end cfg net ep p)
  /\ (forall f p f', fetched = f ++ p :: f' -> f' <> [] ->
                     ~ api_end cfg net ep p)
  /\ match fst (walk_endpoint cfg net ep urls) with
     | inr known =>
         known = api_accumulate cfg net ep fetched urls
         /\ forall p e, p ∈ fetched ->
                        api_page_links cfg net ep p <> Some (inl e)
     | inl e =>
         exists f p, fetched = f ++ [p]
                     /\ api_page_links cfg net ep p = Some (inl e)
     end.
Proof.
  unfold api_pages_fetched, walk_endpoint.
  set (q := if has_key "page" (ep_query ep) then ep_query ep
            else dict_set "page" ("1", []) (ep_query ep)).
  assert (forall v, dict_set "page" v q = dict_set "page" v (ep_query ep)) as Hq.
  { intros v. subst q. destruct (has_key "page" (ep_query ep)); [done|].
    apply dict_set_twice. }
  pose proof (api_pagination_spec cfg net ep q
                (range 1 (max_listing_pages cfg + 1)) urls Hq) as Hs.
  destruct (api_pagination _ _ _ _ _ _) as [final reqs]. simpl.
  destruct Hs as (H1 & H2 & H3 & H4 & H5).
  split; [done|]. split; [|done]. intros Hnil%map_eq_nil. by apply H2.
Qed.

(** Where a requested page sits in the walk of an endpoint. *)
Lemma api_fetched_at `{HostValidation} cfg net ep urls p :
  p ∈ api_pages_fetched cfg net ep urls ->
  exists after,
    api_pages_fetched cfg net ep urls = range 1 p ++ p :: after
    /\ (1 <= p <= max_listing_pages cfg)%Z
    /\ (after <> [] -> ~ api_end cfg net ep p)
    /\ (after = [] -> (p < max_listing_pages cfg)%Z -> api_end cfg net ep p).
Proof.
  destruct (walk_endpoint_spec cfg net ep urls)
    as (_ & _ & (rest & Hps & Hstop) & Hcont & _).
  intros (f & after & Heq)%list_elem_of_split. rewrite Heq in *.
  rewrite <- app_assoc in Hps. simpl in Hps.
  destruct (range_split _ _ _ _ _ Hps) as (-> & Hrest & Hp).
  exists after. split; [done|]. split; [lia|]. split.
  - intros Hafter. by apply (Hcont (range 1 p) p after).
  - intros -> Hlt. apply (Hstop (range 1 p) p eq_refl).
    simpl in Hrest. rewrite Hrest, range_cons by lia. done.
Qed.

(** A page is requested exactly when the walk ended at no page before
    it. *)
Lemma api_fetched_iff `{HostValidation} cfg net ep urls p :
  p ∈ api_pages_fetched cfg net ep urls
  <-> (1 <= p <= max_listing_pages cfg)%Z
      /\ forall q, (1 <= q < p)%Z -> ~ api_end cfg net ep q.
Proof.
  split.
  - intros Hin.
    destruct (api_fetched_at cfg net ep urls p Hin) as (after & Heq & Hp & _).
    split; [done|]. intros q Hq.
    assert (q ∈ api_pages_fetched cfg net ep urls) as Hqin.
    { rewrite Heq. apply elem_of_app. left. by apply elem_of_range. }
    destruct (api_fetched_at cfg net ep urls q Hqin)
      as (after' & Heq' & _ & Hgo & _).
    apply Hgo. intros ->. rewrite Heq' in Hin.
    apply elem_of_app in Hin as [Hin|Hin].
    + apply elem_of_range in Hin. lia.
    + apply list_elem_of_singleton in Hin. lia.
  - intros (Hp & Hgo).
    destruct (decide (p ∈ api_pages_fetched cfg net ep urls)) as [|Hnotin];
      [done|].
    exfalso.
    destruct (walk_endpoint_spec cfg net ep urls)
      as (_ & Hnil & (rest & Hps & _) & _).
    destruct (decide (api_pages_fetched cfg net ep urls = [])) as [Hf|Hne].
    + specialize (Hnil Hf). rewrite range_cons in Hnil by lia. done.
    + destruct (exists_last Hne) as (l & x & Hf). rewrite Hf in Hps, Hnotin.
      destruct (range_prefix_last _ _ _ _ _ p Hps ltac:(lia) Hnotin)
        as [Hlt Hrest].
      assert (x ∈ api_pages_fetched cfg net ep urls) as Hx
        by (rewrite Hf; set_solver).
      destruct (api_fetched_at cfg net ep urls x Hx)
        as (after & Heq & Hxb & _ & Hstop).
      assert (after = []) as ->.
      { rewrite <- app_assoc in Hps. simpl in Hps.
        destruct (range_split _ _ _ _ _ Hps) as (-> & _ & _).
        rewrite Hf in Heq. apply app_inv_head in Heq. by injection Heq. }
      apply (Hgo x); [lia|]. apply Hstop; [done|lia].
Qed.

(** The requests do not depend on the URLs collected before, which are
    carried along. *)
Lemma api_pagination_from_empty `{HostValidation} cfg net ep q pages urls :
  api_pagination cfg net ep q pages urls
  = (carry urls (fst (api_pagination cfg net ep q pages ∅)),
     snd (api_pagination cfg net ep q pages ∅)).
Proof.
  revert q urls. induction pages as [|page rest IH]; intros q urls.
  - simpl. do 2 f_equal. set_solver.
  - cbn [api_pagination].
    destruct (_fetch cfg net _) as [e|r]; [simpl; do 2 f_equal; set_solver|].
    destruct (json r) as [[]|payload]; try done;
      try (simpl; do 2 f_equal; set_solver).
    destruct (_extract_course_links_from_json cfg payload) as [e|links];
      [done|].
    destruct (bool_decide _); [simpl; do 2 f_equal; set_solver|].
    rewrite (IH _ (urls ∪ _)), (IH _ (∅ ∪ _)).
    destruct (api_pagination cfg net ep _ rest ∅) as [[e|F] T]; simpl;
      [done|]. do 2 f_equal. set_solver.
Qed.

Lemma walk_endpoint_from_empty `{HostValidation} cfg net ep urls :
  walk_endpoint cfg net ep urls
  = (carry urls (fst (walk_endpoint cfg net ep ∅)),
     snd (walk_endpoint cfg net ep ∅)).
Proof. unfold walk_endpoint. apply api_pagination_from_empty. Qed.

Lemma api_pages_fetched_from_empty `{HostValidation} cfg net ep urls :
  api_pages_fetched cfg net ep urls = api_pages_fetched cfg net ep ∅.
Proof. unfold api_pages_fetched. by rewrite walk_endpoint_from_empty. Qed.

Lemma carry_carry urls known r :
  carry urls (carry known r) = carry (urls ∪ known) r.
Proof. destruct r as [e|links]; simpl; [done|]. f_equal. set_solver. Qed.

Lemma api_walk_from_empty `{HostValidation} cfg net endpoints urls :
  fst (api_walk cfg net endpoints urls)
  = carry urls (fst (api_walk cfg net endpoints ∅)).
Proof.
  revert urls. induction endpoints as [|ep eps IH]; intros urls; simpl.
  - f_equal. set_solver.
  - rewrite (walk_endpoint_from_empty cfg net ep urls).
    destruct (walk_endpoint cfg net ep ∅) as [[e|F] T] eqn:Hw; simpl; [done|].
    specialize (IH (urls ∪ F)) as H1. specialize (IH F) as H2.
    destruct (api_walk cfg net eps (urls ∪ F)) as [F1 T1].
    destruct (api_walk cfg net eps F) as [F2 T2]. simpl in *.
    by rewrite H1, H2, carry_carry.
Qed.

Lemma api_walk_app `{HostValidation} cfg net e1 e2 urls :
  fst (api_walk cfg net (e1 ++ e2) urls)
  = match fst (api_walk cfg net e1 urls) with
    | inl e => inl e
    | inr known => fst (api_walk cfg net e2 known)
    end.
Proof.
  revert urls. induction e1 as [|ep eps IH]; intros urls; simpl; [done|].
  destruct (walk_endpoint cfg net ep urls) as [[e|F] T]; [done|].
  specialize (IH F).
  destruct (api_walk cfg net (eps ++ e2) F) as [F1 T1].
  destruct (api_walk cfg net eps F) as [F2 T2]. done.
Qed.

Lemma elem_of_api_accumulate `{HostValidation} cfg net ep ps urls u :
  u ∈ api_accumulate cfg net ep ps urls
  <-> u ∈ urls
      \/ exists p, p ∈ ps /\ u ∈ page_set (api_page_links cfg net ep p).
Proof.
  revert urls. induction ps as [|p ps IH]; intros urls; simpl.
  - split; [by left|]. intros [Hu|(p & Hp & _)]; [done|].
    by apply elem_of_nil in Hp.
  - rewrite IH. set_solver.
Qed.

(** ** Where the collected URLs come from *)

Lemma page_set_links `{HostValidation} cfg net ep p u :
  (forall e, api_page_links cfg net ep p <> Some (inl e)) ->
  u ∈ page_set (api_page_links cfg net ep p)
  <-> exists payload, api_payload cfg net ep p = Some (inr payload)
                      /\ extracted (base_url cfg) payload u.
Proof.
  unfold api_page_links. intros Hno.
  destruct (api_payload cfg net ep p) as [[e|payload]|].
  - by destruct (Hno e).
  - destruct (_extract_course_links_from_json cfg payload) as [e|links] eqn:Hx;
      [by destruct (Hno e)|].
    simpl. rewrite (extract_links_inr _ _ _ u Hx). split.
    + intros Hu. by exists payload.
    + by intros (? & [= <-] & Hu).
  - simpl. split; [by intros ?%elem_of_empty|by intros (? & ? & _)].
Qed.

(** What the walk of the endpoints returns, when it returns: the URLs it
    started from and the links of the payloads it decoded. *)
Lemma api_walk_result `{HostValidation} cfg net endpoints urls known u :
  fst (api_walk cfg net endpoints urls) = inr known ->
  u ∈ known
  <-> u ∈ urls
      \/ exists payload, api_document cfg net endpoints payload
                         /\ extracted (base_url cfg) payload u.
Proof.
  unfold api_document.
  revert urls. induction endpoints as [|ep eps IH]; intros urls; simpl.
  - intros [= <-]. split; [by left|]. intros [?|(? & (? & ? & Hin & _) & _)];
      [done|]. by apply elem_of_nil in Hin.
  - pose proof (walk_endpoint_spec cfg net ep urls) as (_ & _ & _ & _ & Hfst).
    rewrite (api_pages_fetched_from_empty cfg net ep urls) in Hfst.
    destruct (walk_endpoint cfg net ep urls) as [[e|F] T]; [done|].
    simpl in Hfst. destruct Hfst as [-> Hall].
    specialize (IH (api_accumulate cfg net ep (api_pages_fetched cfg net ep ∅)
                      urls)).
    destruct (api_walk cfg net eps _) as [final traces]. simpl in *.
    intros Hfinal. rewrite (IH Hfinal), elem_of_api_accumulate. clear IH.
    split.
    + intros [[?|(p & Hp & Hu)]|(payload & (ep' & p & Hep & Hp & Hpay) & Hx)].
      * by left.
      * apply page_set_links in Hu as (payload & Hpay & Hx);
          [|intros e; by apply Hall].
        right. exists payload. split; [|done]. exists ep, p.
        split; [by left|done].
      * right. exists payload. split; [|done]. exists ep', p.
        split; [by right|done].
    + intros [?|(payload & (ep' & p & [->|Hep]%elem_of_cons & Hp & Hpay) & Hx)].
      * by left; left.
      * left. right. exists p. split; [done|].
        apply page_set_links; [intros e; by apply Hall|]. by exists payload.
      * right. exists payload. split; [|done]. by exists ep', p.
Qed.

Lemma api_result `{HostValidation} cfg net endpoints known u :
  _collect_listing_urls_api cfg net endpoints = inr known ->
  u ∈ known
  <-> exists payload, api_document cfg net endpoints payload
                      /\ extracted (base_url cfg) payload u.
Proof.
  intros Heq. rewrite (api_walk_result cfg net endpoints ∅ known u Heq).
  set_solver.
Qed.

(** Reconciliation is the union of the two outcomes, the DOM walker
    first. *)
Lemma collect_cases `{HostValidation} cfg b net endpoints :
  collect_course_urls cfg b net endpoints
  = union_outcomes (_collect_listing_urls_dom cfg b)
      (_collect_listing_urls_api cfg net endpoints).
Proof. done. Qed.

Lemma collect_inr `{HostValidation} cfg b net endpoints urls :
  collect_course_urls cfg b net endpoints = inr urls
  <-> exists dom api,
        _collect_listing_urls_dom cfg b = inr dom
        /\ _collect_listing_urls_api cfg net endpoints = inr api
        /\ urls = dom ∪ api.
Proof.
  unfold collect_course_urls.
  destruct (_collect_listing_urls_dom cfg b) as [e|dom];
    [split; [done|by intros (? & ? & ? & _)]|].
  destruct (_collect_listing_urls_api cfg net endpoints) as [e|api];
    [split; [done|by intros (? & ? & _ & ? & _)]|].
  split.
  - intros [= <-]. by exists dom, api.
  - by intros (? & ? & [= <-] & [= <-] & ->).
Qed.

Lemma dict_get_set k v (q : Query) : dict_get k (dict_set k v q) = Some v.
Proof.
  unfold dict_get. induction q as [|[k' v'] q IH]; simpl.
  - by rewrite String.eqb_refl.
  - destruct (String.eqb k k') eqn:Hk; simpl.
    + by rewrite String.eqb_refl.
    + by rewrite Hk.
Qed.

(** * The claims *)

(** C1 (as amended).  When both walkers return, the URL set handed to the
    detail fetcher is the plain union of the DOM and the API link sets,
    each of their URLs appearing in it exactly once.  A URL is in it
    exactly when it is the canonical form of an [href] with [/course/]
    of a document the DOM walker loaded, or comes from a member with a
    string value of a payload the API walker decoded: the canonical form
    of a value with [/course/], or the URL synthesised from the value of
    a slug key.  On a stable base URL, two entries that are canonical
    forms of raw links and canonically equal are the same entry. *)
Theorem reconciled_urls `{HostValidation} cfg browser net endpoints urls :
  handed cfg browser net endpoints = inr urls ->
  NoDup urls
  /\ (exists dom api,
        _collect_listing_urls_dom cfg browser = inr dom
        /\ _collect_listing_urls_api cfg net endpoints = inr api
        /\ forall u, u ∈ urls <-> u ∈ dom \/ u ∈ api)
  /\ (forall u, u ∈ urls <->
        (exists doc, dom_document cfg browser doc
                     /\ link_of_document (base_url cfg) doc u)
        \/ (exists payload, api_document cfg net endpoints payload
                            /\ extracted (base_url cfg) payload u))
  /\ (stable_base (base_url cfg) ->
      forall u v,
        canonical_entry cfg browser net endpoints u ->
        canonical_entry cfg browser net endpoints v ->
        canonical_url (base_url cfg) u = canonical_url (base_url cfg) v ->
        u ∈ urls /\ u = v).
Proof.
  unfold handed. intros Hh.
  destruct (collect_course_urls cfg browser net endpoints) as [e|set] eqn:Hc;
    [done|]. injection Hh as <-.
  apply collect_inr in Hc as (dom & api & Hdom & Hapi & ->).
  pose proof (dom_result cfg browser) as Hd. rewrite Hdom in Hd.
  assert (forall u, u ∈ sorted (dom ∪ api) <->
            (exists doc, dom_document cfg browser doc
                         /\ link_of_document (base_url cfg) doc u)
            \/ (exists payload, api_document cfg net endpoints payload
                                /\ extracted (base_url cfg) payload u))
    as Hmem.
  { intros u. rewrite sorted_elem_of, elem_of_union.
    rewrite (collects_inr _ _ _ u Hd), (api_result _ _ _ _ u Hapi).
    unfold link_of_document. set_solver. }
  split; [apply sorted_NoDup|]. split; [|split; [exact Hmem|]].
  - exists dom, api. do 2 (split; [done|]). intros u.
    by rewrite sorted_elem_of, elem_of_union.
  - intros Hb u v Hu Hv Heq.
    assert (forall w, canonical_entry cfg browser net endpoints w ->
              w ∈ sorted (dom ∪ api)
              /\ canonical_url (base_url cfg) w = inr w) as Hfix.
    { intros w [(doc & Hdoc & href & Hin & Hcon & Hj)
               |(payload & k & s & Hpay & Hin & Hcon & Hj)].
      - split; [|by apply (canonical_url_fixed _ href)].
        apply Hmem. left. exists doc. split; [done|]. by exists href.
      - split; [|by apply (canonical_url_fixed _ s)].
        apply Hmem. right. exists payload. split; [done|].
        exists k, s. split; [done|]. by left. }
    destruct (Hfix u Hu) as [Hin Hfu]. destruct (Hfix v Hv) as [_ Hfv].
    split; [done|]. congruence.
Qed.

Lemma reconciled_urls_witness :
  let urls := ["https://www.classcentral.com/course/a";
               "https://www.classcentral.com/course/b";
               "https://www.classcentral.com/login";
               "https://www.coursera.org/course/ml"] in
  handed default_config stray_links_browser two_page_network [paged_endpoint]
  = inr urls
  /\ NoDup urls
  /\ (forall u, u ∈ urls <->
        (exists doc, dom_document default_config stray_links_browser doc
                     /\ link_of_document (base_url default_config) doc u)
        \/ (exists payload,
              api_document default_config two_page_network [paged_endpoint]
                payload
              /\ extracted (base_url default_config) payload u)).
Proof.
  assert (handed default_config stray_links_browser two_page_network
            [paged_endpoint]
          = inr ["https://www.classcentral.com/course/a";
                 "https://www.classcentral.com/course/b";
                 "https://www.classcentral.com/login";
                 "https://www.coursera.org/course/ml"]) as Hh
    by (vm_compute; reflexivity).
  split; [exact Hh|].
  destruct (reconciled_urls _ _ _ _ _ Hh) as (Hnd & _ & Hmem & _).
  split; [exact Hnd|exact Hmem].
Defined.

(** C1, as stated, fails: a link whose only [/course/] sits in its query
    string and a link to another site both reach the detail fetcher, and
    neither lies on the course-detail pattern of the target site. *)
Lemma reconciled_urls_off_pattern :
  handed default_config stray_links_browser dead_network []
  = inr ["https://www.classcentral.com/login";
         "https://www.coursera.org/course/ml"]
  /\ on_course_pattern (base_url default_config)
       "https://www.classcentral.com/login" = false
  /\ on_course_pattern (base_url default_config)
       "https://www.coursera.org/course/ml" = false.
Proof. repeat split; vm_compute; reflexivity. Qed.



(** C3, at its failing input.  With [max_retries = 2] configured and every
    attempt raising a connection error, the fetcher makes four attempts:
    the ceiling is the constant of the decorator, not the setting. *)
Theorem fetch_ignores_max_retries :
  max_retries two_attempts_config = 2%Z
  /\ (forall i,
        raises_http_error
          (dead_network "https://www.classcentral.com/course/x" i) = true)
  /\ attempts two_attempts_config dead_network
       "https://www.classcentral.com/course/x" = 4
  /\ _fetch two_attempts_config dead_network
       "https://www.classcentral.com/course/x"
     = inl (RequestError "connection refused").
Proof. repeat split. Qed.

(** C4 (as amended).  The fetcher goes on to another attempt after attempt
    [i] exactly when every attempt so far raised an [httpx.HTTPError] and
    [i] is below the ceiling of four.  An attempt raises one when the
    client raises a request error or the status is outside 200..299, a
    404 included; any other exception ends the fetch.  A 2xx response
    ends it whatever its body: decoding happens after the fetch. *)
Theorem retry_iff_http_error cfg net u :
  (forall i, 1 <= i ->
     (i < attempts cfg net u <->
      i < stop_after_attempt
      /\ forall j, 1 <= j <= i -> raises_http_error (net u (j - 1)) = true))
  /\ (forall a,
        raises_http_error a =
        match a with
        | Raised e => is_http_error e
        | Got r => negb ((200 <=? status_code r)%Z && (status_code r <=? 299)%Z)
        end)
  /\ (forall r, net u 0 = Got r ->
                (200 <= status_code r <= 299)%Z ->
                _fetch cfg net u = inr r /\ attempts cfg net u = 1).
Proof.
  split; [|split].
  - intros i Hi. by apply retried_iff.
  - intros [r|e]; unfold raises_http_error, fetch_once, raise_for_status;
      [|done].
    by destruct ((200 <=? status_code r)%Z && (status_code r <=? 299)%Z).
  - intros r Hr [Hlo Hhi].
    unfold _fetch, attempts, fetch_counted, stop_after_attempt.
    cbn [retry_loop Nat.sub]. rewrite Hr.
    unfold fetch_once, raise_for_status.
    apply Z.leb_le in Hlo, Hhi. by rewrite Hlo, Hhi.
Qed.

Lemma retry_iff_http_error_witness :
  1 <= 1
  /\ (1 < attempts default_config not_found_once "https://www.classcentral.com/course/x"
      <-> 1 < stop_after_attempt
          /\ forall j, 1 <= j <= 1 ->
               raises_http_error
                 (not_found_once "https://www.classcentral.com/course/x" (j - 1))
               = true).
Proof.
  split; [lia|].
  exact (proj1 (retry_iff_http_error default_config not_found_once
                  "https://www.classcentral.com/course/x") 1 (le_n 1)).
Defined.

(** C4, as stated, fails: a 404 is not transient in the taxonomy's sense,
    and the fetcher retries after it. *)
Lemma retry_on_not_found :
  transient_by_taxonomy
    (not_found_once "https://www.classcentral.com/course/x" 0) = false
  /\ attempts default_config not_found_once
       "https://www.classcentral.com/course/x" = 2.
Proof. by vm_compute. Qed.

(** A page whose extraction raises ends the walker with its exception. *)
Lemma dom_raise_ends `{HostValidation} cfg b p e :
  p ∈ dom_pages_fetched cfg b -> page_links cfg b p = inl e ->
  _collect_listing_urls_dom cfg b = inl e.
Proof.
  intros Hin Hp.
  assert (last (dom_pages_fetched cfg b) = Some p) as Hlast.
  { apply dom_stop_ends; [done|]. right. by exists e. }
  revert Hin Hlast. unfold _collect_listing_urls_dom, dom_pages_fetched.
  pose proof (dom_walk_cases cfg b) as Hw.
  destruct (first_links cfg b) as [e0|first]; rewrite Hw;
    [intros Hin; by apply elem_of_nil in Hin|].
  pose proof (dom_pagination_spec cfg b (range 2 (max_listing_pages cfg + 1))
                first) as Hs.
  destruct (dom_pagination _ _ _ _) as [final fetched]. simpl.
  destruct Hs as (_ & _ & _ & Hfinal). intros Hin Hlast.
  destruct final as [e'|known].
  - destruct Hfinal as (f & p' & -> & Hp'). rewrite last_snoc in Hlast.
    injection Hlast as ->. congruence.
  - destruct Hfinal as [_ Hall]. destruct (Hall p Hin) as (links & Hl).
    congruence.
Qed.

(** C5 (as amended).  The query-string pagination requests pages 2, 3, ...
    in order and none beyond the configured maximum: a page exactly when
    the first extraction returned and the walk ended at no page before
    it.  A requested page with no detail link at all is the last one
    requested, and so is a requested page beyond the grace window of 5
    that brings no URL not already known, and a page whose link
    extraction raises, which ends the walker with that exception; the
    walk ends nowhere else before the maximum.  When no page from [K] on
    brings a new URL, no page beyond [max K 6] is requested. *)
Theorem dom_pagination_terminates `{HostValidation} cfg browser :
  let fetched := dom_pages_fetched cfg browser in
  (exists rest, range 2 (max_listing_pages cfg + 1) = fetched ++ rest)
  /\ (forall p, p ∈ fetched <->
        (2 <= p <= max_listing_pages cfg)%Z
        /\ (exists first, first_links cfg browser = inr first)
        /\ forall q, (2 <= q < p)%Z ->
                     ~ dom_end cfg browser (known_before cfg browser q) q)
  /\ (forall p, p ∈ fetched -> page_links cfg browser p = inr ∅ ->
                last fetched = Some p)
  /\ (forall p links,
        p ∈ fetched -> (grace_pages < p)%Z ->
        page_links cfg browser p = inr links ->
        links ⊆ known_before cfg browser p ->
        last fetched = Some p)
  /\ (forall p e, p ∈ fetched -> page_links cfg browser p = inl e ->
                  last fetched = Some p
                  /\ _collect_listing_urls_dom cfg browser = inl e)
  /\ (forall p, last fetched = Some p ->
                p = max_listing_pages cfg
                \/ page_links cfg browser p = inr ∅
                \/ ((grace_pages < p)%Z
                    /\ exists links,
                         page_links cfg browser p = inr links
                         /\ links ⊆ known_before cfg browser p)
                \/ exists e, page_links cfg browser p = inl e)
  /\ (forall K,
        (forall p, (K <= p)%Z ->
                   links_of (page_links cfg browser p)
                   ⊆ known_before cfg browser p) ->
        forall p, p ∈ fetched -> (p <= Z.max K (grace_pages + 1))%Z).
Proof.
  cbv zeta. split; [apply dom_walk_prefix|].
  split; [apply dom_fetched_iff|]. split; [|split; [|split; [|split]]].
  - intros p Hin Hempty. apply dom_stop_ends; [done|].
    left. exists ∅. split; [done|by left].
  - intros p links Hin Hp Hl Hsub. apply dom_stop_ends; [done|].
    left. exists links. split; [done|by right].
  - intros p e Hin Hp. split; [|by apply (dom_raise_ends _ _ p)].
    apply dom_stop_ends; [done|]. right. by exists e.
  - intros p [->|[(links & Hl & [->|[Hsub Hp]])|(e & He)]]%dom_last_cases.
    + by left.
    + right. by left.
    + right. right. left. split; [done|]. by exists links.
    + right. right. right. by exists e.
  - apply dom_exhausted_bound.
Qed.

Lemma dom_pagination_terminates_witness :
  2%Z ∈ dom_pages_fetched default_config stray_links_browser
  /\ page_links default_config stray_links_browser 2 = inr ∅
  /\ last (dom_pages_fetched default_config stray_links_browser) = Some 2%Z.
Proof.
  assert (2%Z ∈ dom_pages_fetched default_config stray_links_browser) as Hin
    by (vm_compute; left).
  assert (page_links default_config stray_links_browser 2 = inr ∅) as Hempty
    by (vm_compute; reflexivity).
  do 2 (split; [done|]).
  destruct (dom_pagination_terminates default_config stray_links_browser)
    as (_ & _ & Hstop & _).
  exact (Hstop 2%Z Hin Hempty).
Defined.

(** C5, as stated, fails: page 2 of this listing brings no new link, and
    the walk goes on through page 200, 198 pages further. *)
Lemma dom_walk_past_repeated_page :
  links_of (page_links default_config repeating_page_browser 2)
  ⊆ known_before default_config repeating_page_browser 2
  /\ dom_pages_fetched default_config repeating_page_browser = range 2 201.
Proof.
  split; [|vm_compute; reflexivity].
  assert (links_of (page_links default_config repeating_page_browser 2)
          = known_before default_config repeating_page_browser 2) as ->
    by (vm_compute; reflexivity).
  reflexivity.
Qed.

Lemma api_stop_ends `{HostValidation} cfg net ep urls p :
  p ∈ api_pages_fetched cfg net ep urls -> api_end cfg net ep p ->
  last (api_pages_fetched cfg net ep urls) = Some p.
Proof.
  intros Hin Hend.
  destruct (api_fetched_at cfg net ep urls p Hin) as (after & -> & _ & Hgo & _).
  destruct after as [|x after]; [by rewrite last_snoc|]. by destruct Hgo.
Qed.

Lemma api_last_cases `{HostValidation} cfg net ep urls p :
  last (api_pages_fetched cfg net ep urls) = Some p ->
  p = max_listing_pages cfg \/ api_end cfg net ep p.
Proof.
  intros (l & Hl)%last_Some.
  assert (p ∈ api_pages_fetched cfg net ep urls) as Hin
    by (rewrite Hl; set_solver).
  destruct (api_fetched_at cfg net ep urls p Hin) as (after & Heq & Hp & _ & Hstop).
  assert (after = []) as ->.
  { destruct (walk_endpoint_spec cfg net ep urls)
      as (_ & _ & (rest & Hps & _) & _).
    rewrite Hl, <- app_assoc in Hps. simpl in Hps.
    destruct (range_split _ _ _ _ _ Hps) as (-> & _ & _).
    rewrite Hl in Heq. apply app_inv_head in Heq. by injection Heq. }
  destruct (decide (p = max_listing_pages cfg)); [by left|].
  right. apply Hstop; [done|lia].
Qed.

(** How the walk of an endpoint ends at its last page: with the URLs
    collected when the page stops it, with the exception when the page
    raises one. *)
Lemma walk_endpoint_final `{HostValidation} cfg net ep urls p :
  p ∈ api_pages_fetched cfg net ep urls ->
  (api_stop cfg net ep p ->
   exists known, fst (walk_endpoint cfg net ep urls) = inr known)
  /\ (forall e, api_page_links cfg net ep p = Some (inl e) ->
                fst (walk_endpoint cfg net ep urls) = inl e).
Proof.
  intros Hin.
  destruct (walk_endpoint_spec cfg net ep urls) as (_ & _ & _ & _ & Hfinal).
  split.
  - intros Hstop.
    destruct (fst (walk_endpoint cfg net ep urls)) as [e|known];
      [|by exists known].
    destruct Hfinal as (f & p' & Hf & Hp').
    pose proof (api_stop_ends cfg net ep urls p Hin (or_introl Hstop)) as Hl.
    rewrite Hf, last_snoc in Hl. injection Hl as ->.
    unfold api_stop in Hstop. by rewrite Hp' in Hstop.
  - intros e Hp.
    assert (api_end cfg net ep p) as Hend by (right; by exists e).
    pose proof (api_stop_ends cfg net ep urls p Hin Hend) as Hl.
    destruct (fst (walk_endpoint cfg net ep urls)) as [e'|known].
    + destruct Hfinal as (f & p' & Hf & Hp').
      rewrite Hf, last_snoc in Hl. injection Hl as ->. congruence.
    + destruct Hfinal as [_ Hall]. by destruct (Hall p e Hin).
Qed.

(** The stop test and the exceptions that leave the walker, in terms of
    the fetch, the decoding and the extraction. *)
Lemma api_stop_cases `{HostValidation} cfg net ep p :
  api_stop cfg net ep p
  <-> (exists e, _fetch cfg net (page_request ep p) = inl e)
      \/ exists r,
           _fetch cfg net (page_request ep p) = inr r
           /\ (json r = inl JSONDecodeError
               \/ exists payload,
                    json r = inr payload
                    /\ _extract_course_links_from_json cfg payload = inr ∅).
Proof.
  unfold api_stop, api_page_links, api_payload.
  destruct (_fetch cfg net (page_request ep p)) as [e|r].
  { split; [left; by exists e|done]. }
  destruct (json r) as [e|payload] eqn:Hj.
  - destruct e as [w|st| |w].
    1,2,4: (split; [done|];
            intros [(? & ?)|(r' & Hr & [Hd|(payload & Hp & _)])]; [done| |];
            injection Hr as <-; congruence).
    split; [intros _|done]. right. exists r. split; [done|by left].
  - destruct (_extract_course_links_from_json cfg payload) as [e|links] eqn:Hx.
    + split; [done|]. intros [(? & ?)|(? & [= <-] & Hor)]; [done|].
      rewrite Hj in Hor. destruct Hor as [?|(? & [= <-] & ?)]; congruence.
    + split.
      * intros ->. right. exists r. split; [done|]. right. by exists payload.
      * intros [(? & ?)|(? & [= <-] & Hor)]; [done|].
        rewrite Hj in Hor. destruct Hor as [?|(? & [= <-] & ?)]; congruence.
Qed.

Lemma api_raise_cases `{HostValidation} cfg net ep p e :
  api_page_links cfg net ep p = Some (inl e)
  <-> exists r,
        _fetch cfg net (page_request ep p) = inr r
        /\ ((json r = inl e /\ e <> JSONDecodeError)
            \/ exists payload,
                 json r = inr payload
                 /\ _extract_course_links_from_json cfg payload = inl e).
Proof.
  unfold api_page_links, api_payload.
  destruct (_fetch cfg net (page_request ep p)) as [e0|r].
  { split; [done|by intros (? & ? & _)]. }
  destruct (json r) as [e0|payload] eqn:Hj.
  - destruct e0 as [w|st| |w].
    1,2,4: (split;
            [intros [= <-]; exists r; split; [done|]; left; by split
            |intros (r' & Hr & [[Heq _]|(payload & Hp & _)]);
             injection Hr as <-; congruence]).
    split; [done|].
    intros (r' & Hr & [[Heq Hne]|(payload & Hp & _)]); injection Hr as <-;
      congruence.
  - split.
    + intros Hx. exists r. split; [done|]. right. exists payload.
      split; [done|].
      destruct (_extract_course_links_from_json cfg payload); congruence.
    + intros (? & [= <-] & [[Heq _]|(? & Heq & Hx)]); rewrite Hj in Heq;
        [done|]. injection Heq as <-. by rewrite Hx.
Qed.




(** C7 (as amended).  When the extraction returns, then for every member
    [k : s] with a string value of an object nested anywhere in the
    payload it has collected the canonical URL of [s] when [s] contains
    [/course/], and the URL synthesised from [s] when the lower-cased
    key is [slug] or [course_slug]. *)
Theorem extract_links_of_members `{HostValidation} cfg payload links k s :
  _extract_course_links_from_json cfg payload = inr links ->
  entry_in k (JString s) payload ->
  (contains "/course/" s = true ->
   exists u, canonical_url (base_url cfg) s = inr u /\ u ∈ links)
  /\ (is_slug_key k = true ->
      exists u, urljoin (base_url cfg) ("/course/" ++ s) = inr u
                /\ u ∈ links).
Proof.
  intros Hx Hin. pose proof (extract_links_spec cfg payload) as Hs.
  rewrite Hx in Hs. destruct Hs as [Hno Hmem].
  assert (forall j, entry_join (base_url cfg) k s j ->
                    exists u, j = inr u /\ u ∈ links) as Hj.
  { intros [e|u] Hjoin.
    - destruct (Hno e). by exists k, s.
    - exists u. split; [done|]. apply Hmem. right. by exists k, s. }
  split.
  - intros Hc. destruct (Hj (canonical_url (base_url cfg) s)) as (u & Hu & ?).
    + by left.
    + by exists u.
  - intros Hk.
    destruct (Hj (urljoin (base_url cfg) ("/course/" ++ s))) as (u & Hu & ?).
    + by right.
    + by exists u.
Qed.

Lemma extract_links_of_members_witness :
  let payload :=
    JArray [JObject [("slug", JString "python");
                     ("url", JString "/course/python?src=api")]] in
  _extract_course_links_from_json default_config payload
  = inr {["https://www.classcentral.com/course/python"]}
  /\ entry_in "slug" (JString "python") payload
  /\ (is_slug_key "slug" = true ->
      exists u, urljoin (base_url default_config) ("/course/" ++ "python")
                = inr u
                /\ u ∈ ({["https://www.classcentral.com/course/python"]}
                          : gset string)).
Proof.
  cbv zeta.
  assert (_extract_course_links_from_json default_config
            (JArray [JObject [("slug", JString "python");
                              ("url", JString "/course/python?src=api")]])
          = inr {["https://www.classcentral.com/course/python"]}) as Hx
    by (vm_compute; reflexivity).
  assert (entry_in "slug" (JString "python")
            (JArray [JObject [("slug", JString "python");
                              ("url", JString "/course/python?src=api")]]))
    as Hin.
  { eapply entry_item; [left|]. apply entry_here. left. }
  do 2 (split; [done|]).
  exact (proj2 (extract_links_of_members default_config _ _ "slug" "python"
                  Hx Hin)).
Defined.

(** C7, as stated, fails: a string with [/course/] that is an element of a
    list is a string value of the structure, and the extraction collects
    nothing for it. *)
Lemma extract_skips_list_strings :
  string_in "/course/python" list_payload
  /\ contains "/course/" "/course/python" = true
  /\ _extract_course_links_from_json default_config list_payload = inr ∅.
Proof.
  split; [|split; [reflexivity|vm_compute; reflexivity]].
  eapply string_member; [left|]. eapply string_item; [left|]. constructor.
Qed.

(** C8 (as amended).  Whatever query the endpoint candidate carries, the
    walk requests pages 1, 2, 3, ... in steps of one, and the request for
    page [n] is the endpoint with its page parameter set to [n]. *)
Theorem api_cursor_from_one `{HostValidation} cfg net ep urls :
  let reqs := snd (walk_endpoint cfg net ep urls) in
  map fst reqs = range 1 (1 + Z.of_nat (length reqs))
  /\ map snd reqs = map (page_request ep) (map fst reqs)
  /\ (forall n, dict_get "page" (page_query ep n) = Some (str_of_int n, [])).
Proof.
  cbv zeta.
  destruct (walk_endpoint_spec cfg net ep urls)
    as (Hreqs & _ & (rest & Hps & _) & _).
  unfold api_pages_fetched in *. split; [|split; [done|]].
  - apply range_prefix_length in Hps. by rewrite length_map in Hps.
  - intros n. apply dict_get_set.
Qed.

(** C8, as stated, fails: this endpoint carries [page=3], and its walk
    starts at page 1. *)
Lemma api_cursor_restarts :
  has_key "page" (ep_query paged_endpoint) = true
  /\ dict_get "page" (ep_query paged_endpoint) = Some ("3", [])
  /\ snd (walk_endpoint default_config two_page_network paged_endpoint ∅)
     = [(1%Z, "https://www.classcentral.com/api/courses?page=1");
        (2%Z, "https://www.classcentral.com/api/courses?page=2");
        (3%Z, "https://www.classcentral.com/api/courses?page=3")].
Proof. repeat split; vm_compute; reflexivity. Qed.

(** C9 (as amended).  On a stable base URL, the default one among them,
    canonicalising twice gives what canonicalising once gives: where the
    first application returns, the second returns the same value.  Two
    URLs with the same text before their first [?] canonicalise to the
    same value, the one that text alone canonicalises to. *)
Theorem canonical_url_stable `{HostValidation} base :
  stable_base base ->
  (forall u,
     match canonical_url base u with
     | inl e => inl e
     | inr c => canonical_url base c
     end = canonical_url base u)
  /\ (forall p q1 q2,
        contains "?" p = false ->
        canonical_url base (p ++ "?" ++ q1) = canonical_url base (p ++ "?" ++ q2)
        /\ canonical_url base (p ++ "?" ++ q1) = canonical_url base p).
Proof.
  intros Hb. split.
  - intros u. destruct (canonical_url base u) as [e|c] eqn:Hc; [done|].
    by apply (canonical_url_fixed base u).
  - intros p q1 q2 Hp. by rewrite !canonical_url_query.
Qed.

Lemma canonical_url_stable_witness :
  stable_base (base_url default_config)
  /\ match canonical_url (base_url default_config) "../course/x?utm=1" with
     | inl e => inl e
     | inr c => canonical_url (base_url default_config) c
     end
     = canonical_url (base_url default_config) "../course/x?utm=1"
  /\ (contains "?" "/course/x" = false ->
      canonical_url (base_url default_config) ("/course/x" ++ "?" ++ "a=1")
      = canonical_url (base_url default_config) ("/course/x" ++ "?" ++ "b=2")).
Proof.
  split; [exact default_base_stable|].
  destruct (canonical_url_stable (base_url default_config)
              default_base_stable) as [Htwice Hquery].
  split; [exact (Htwice "../course/x?utm=1")|].
  intros Hp. exact (proj1 (Hquery "/course/x" "a=1" "b=2" Hp)).
Defined.

(** C9, as stated, fails: these two URLs differ only in their query
    string, and canonicalise to different values, the fragment surviving
    only where no query precedes it. *)
Lemma canonical_url_keeps_fragment :
  same_but_query "/course/x#f" "/course/x?a=1#f"
  /\ canonical_url (base_url default_config) "/course/x#f"
     = inr "https://www.classcentral.com/course/x#f"
  /\ canonical_url (base_url default_config) "/course/x?a=1#f"
     = inr "https://www.classcentral.com/course/x".
Proof. split; [by vm_compute|]. split; vm_compute; reflexivity. Qed.



(** * Further properties of the code *)

(** ** The retrying fetcher *)

(** X1.  A fetch makes at least one attempt and never more than four,
    whatever the network answers and whatever the configuration. *)
Theorem fetch_never_exceeds_ceiling cfg net u :
  1 <= attempts cfg net u <= 4.
Proof. apply attempts_bounds. Qed.

(** X2.  When every attempt raises an [httpx.HTTPError], the fetch makes
    four attempts and raises the error of the fourth. *)
Theorem fetch_exhaustion_after_four cfg net u :
  (forall i, raises_http_error (net u i) = true) ->
  attempts cfg net u = 4
  /\ exists e, fetch_once (net u 3) = inl e /\ is_http_error e = true
               /\ _fetch cfg net u = inl e.
Proof.
  intros Hall. destruct (fetch_exhausted cfg net u Hall) as (Hn & e & He & Hf).
  split; [done|]. exists e. split; [done|]. split; [|done].
  specialize (Hall 3). unfold raises_http_error in Hall.
  change (stop_after_attempt - 1) with 3 in He. by rewrite He in Hall.
Qed.

Lemma fetch_exhaustion_after_four_witness :
  (forall i, raises_http_error
               (dead_network "https://www.classcentral.com/course/x" i) = true)
  /\ attempts default_config dead_network
       "https://www.classcentral.com/course/x" = 4.
Proof.
  assert (forall i, raises_http_error
                      (dead_network "https://www.classcentral.com/course/x" i)
                    = true) as Hall by (intros i; reflexivity).
  split; [exact Hall|].
  exact (proj1 (fetch_exhaustion_after_four default_config dead_network
                  "https://www.classcentral.com/course/x" Hall)).
Defined.

(** X3.  The fetch ends at the first attempt, among the first four, that
    does not raise an [httpx.HTTPError], with the outcome of that attempt:
    its response, or the exception it raised. *)
Theorem fetch_settles_at_first_outcome cfg net u k :
  1 <= k <= 4 ->
  (forall j, 1 <= j < k -> raises_http_error (net u (j - 1)) = true) ->
  raises_http_error (net u (k - 1)) = false ->
  attempts cfg net u = k /\ _fetch cfg net u = fetch_once (net u (k - 1)).
Proof.
  intros Hk Hbefore Hsettled.
  assert (attempts cfg net u = k) as Hn.
  { pose proof (attempts_bounds cfg net u) as Hb.
    assert (~ k < attempts cfg net u) as Hle.
    { intros Hlt. apply retried_iff in Hlt as [_ Hall]; [|lia].
      rewrite Hall in Hsettled by lia. done. }
    destruct (decide (k = 1)) as [->|Hne]; [lia|].
    assert (k - 1 < attempts cfg net u) as Hge.
    { apply retried_iff; [lia|]. unfold stop_after_attempt.
      split; [lia|]. intros j Hj. apply Hbefore. lia. }
    lia. }
  split; [done|]. by rewrite fetch_result, Hn.
Qed.

Lemma fetch_settles_at_first_outcome_witness :
  attempts default_config not_found_once "https://www.classcentral.com/course/x"
  = 2
  /\ _fetch default_config not_found_once "https://www.classcentral.com/course/x"
     = fetch_once (not_found_once "https://www.classcentral.com/course/x" (2 - 1)).
Proof.
  apply (fetch_settles_at_first_outcome default_config not_found_once
           "https://www.classcentral.com/course/x" 2).
  - lia.
  - intros j Hj. assert (j = 1) as -> by lia. reflexivity.
  - reflexivity.
Defined.

(** ** Link extraction *)

(** X4.  The link extraction of a rendered document returns exactly when
    canonicalisation returns for every [href] that contains [/course/],
    and raises the exception of one that raises otherwise.  The links it
    returns are exactly the canonical forms of those [href]s: anchors
    without [href], the order of the anchors and repeated anchors make
    no difference. *)
Theorem course_links_characterised `{HostValidation} html base :
  ((exists links, _course_links_from_html html base = inr links)
   <-> forall href, Some href ∈ html -> contains "/course/" href = true ->
                    exists u, canonical_url base href = inr u)
  /\ (forall links,
        _course_links_from_html html base = inr links ->
        forall u,
          u ∈ links
          <-> exists href, Some href ∈ html /\ contains "/course/" href = true
                           /\ canonical_url base href = inr u)
  /\ (forall e,
        _course_links_from_html html base = inl e ->
        exists href, Some href ∈ html /\ contains "/course/" href = true
                     /\ canonical_url base href = inl e).
Proof.
  pose proof (course_links_spec html base) as Hs.
  destruct (_course_links_from_html html base) as [e|links]; simpl in Hs.
  - split; [|split; [done|by intros ? [= <-]]]. split; [by intros (? & ?)|].
    intros Hall. destruct Hs as (href & Hin & Hc & Hj).
    destruct (Hall href Hin Hc) as (u & Hu). congruence.
  - destruct Hs as [Hno Hmem]. split; [|split; [|done]].
    + split; [|by exists links]. intros _ href Hin Hc.
      destruct (canonical_url base href) as [e|u] eqn:Hj; [|by exists u].
      destruct (Hno e). by exists href.
    + intros ? [= <-] u. rewrite Hmem. unfold document_join. set_solver.
Qed.

Lemma course_links_characterised_witness :
  _course_links_from_html [Some "/course/a?utm=1"; None; Some "/about"]
    (base_url default_config)
  = inr {["https://www.classcentral.com/course/a"]}
  /\ ("https://www.classcentral.com/course/a"
        ∈ ({["https://www.classcentral.com/course/a"]} : gset string)
      <-> exists href,
            Some href ∈ [Some "/course/a?utm=1"; None; Some "/about"]
            /\ contains "/course/" href = true
            /\ canonical_url (base_url default_config) href
               = inr "https://www.classcentral.com/course/a").
Proof.
  assert (_course_links_from_html [Some "/course/a?utm=1"; None; Some "/about"]
            (base_url default_config)
          = inr {["https://www.classcentral.com/course/a"]}) as Hx
    by (vm_compute; reflexivity).
  split; [exact Hx|].
  destruct (course_links_characterised
              [Some "/course/a?utm=1"; None; Some "/about"]
              (base_url default_config)) as (_ & Hmem & _).
  exact (Hmem _ Hx "https://www.classcentral.com/course/a").
Defined.

(** X5.  On a stable base URL, every link taken from a document carries no
    [?] and is its own canonical form. *)
Theorem course_links_canonical `{HostValidation} html base links u :
  stable_base base ->
  _course_links_from_html html base = inr links ->
  u ∈ links ->
  contains "?" u = false /\ canonical_url base u = inr u.
Proof.
  intros Hb Hx (href & _ & _ & Hj)%(course_links_inr _ _ _ _ Hx).
  by apply (canonical_url_fixed base href).
Qed.

Lemma course_links_canonical_witness :
  contains "?" "https://www.classcentral.com/course/a" = false
  /\ canonical_url (base_url default_config)
       "https://www.classcentral.com/course/a"
     = inr "https://www.classcentral.com/course/a".
Proof.
  apply (course_links_canonical [Some "/course/a?utm=1"]
           (base_url default_config)
           {["https://www.classcentral.com/course/a"]}).
  - exact default_base_stable.
  - vm_compute; reflexivity.
  - apply elem_of_singleton. reflexivity.
Defined.

(** A reference that starts with [/course/] has no network location. *)
Lemma split_scheme_rooted d r :
  Urllib.split_scheme d ("/"%char :: r) = (d, "/"%char :: r).
Proof.
  unfold Urllib.split_scheme.
  change (Text.break (Text.is_char ":") ("/"%char :: r))
    with (let '(a, b) := Text.break (Text.is_char ":") r in
          ("/"%char :: a, b)).
  destruct (Text.break (Text.is_char ":") r) as [a [|c b]]; reflexivity.
Qed.

Lemma course_path_netloc t d :
  Urllib.netloc (Urllib.parse_url (Text.lit "/course/" ++ t) d) = [].
Proof.
  unfold Urllib.parse_url, Urllib.split_url.
  change (Urllib.remove_unsafe (Urllib.lstrip (Text.lit "/course/" ++ t)))
    with ("/"%char :: "c"%char :: Text.lit "ourse/" ++ Urllib.remove_unsafe t).
  rewrite split_scheme_rooted.
  change (Urllib.split_netloc
            ("/"%char :: "c"%char :: Text.lit "ourse/" ++ Urllib.remove_unsafe t))
    with (@nil ascii,
          "/"%char :: "c"%char :: Text.lit "ourse/" ++ Urllib.remove_unsafe t).
  cbv beta iota.
  destruct (Text.split_once "#" _) as [u4 frag].
  destruct (Text.split_once "?" u4) as [u5 q].
  destruct (Urllib.member _ Urllib.uses_params); [|done].
  by destruct (Urllib.splitparams u5).
Qed.

Lemma slug_joins `{HostValidation} base slug :
  stable_base base -> joins base ("/course/" ++ slug) = true.
Proof.
  intros [_ Hok]%stable_base_ok. unfold joins, Urllib.joinable.
  rewrite Hok, TextFacts.lit_app, course_path_netloc. cbn [andb].
  apply orb_true_r.
Qed.



(** X7.  The extraction returns exactly when every join it makes returns,
    and raises the exception of one that raises otherwise.  The links it
    returns are exactly those of the members with a string value of the
    objects nested in the payload: the canonical form of a value that
    contains [/course/], and the URL synthesised from the value of a
    [slug] or [course_slug] key. *)
Theorem json_links_characterised `{HostValidation} cfg payload :
  ((exists links, _extract_course_links_from_json cfg payload = inr links)
   <-> forall k s j,
         entry_in k (JString s) payload ->
         entry_join (base_url cfg) k s j -> exists u, j = inr u)
  /\ (forall links,
        _extract_course_links_from_json cfg payload = inr links ->
        forall u,
          u ∈ links
          <-> exists k s,
                entry_in k (JString s) payload
                /\ ((contains "/course/" s = true
                     /\ canonical_url (base_url cfg) s = inr u)
                    \/ (is_slug_key k = true
                        /\ urljoin (base_url cfg) ("/course/" ++ s) = inr u)))
  /\ (forall e,
        _extract_course_links_from_json cfg payload = inl e ->
        exists k s,
          entry_in k (JString s) payload
          /\ ((contains "/course/" s = true
               /\ canonical_url (base_url cfg) s = inl e)
              \/ (is_slug_key k = true
                  /\ urljoin (base_url cfg) ("/course/" ++ s) = inl e))).
Proof.
  pose proof (extract_links_spec cfg payload) as Hs.
  assert (forall j,
            joined (base_url cfg) payload j
            <-> exists k s,
                  entry_in k (JString s) payload
                  /\ ((contains "/course/" s = true
                       /\ canonical_url (base_url cfg) s = j)
                      \/ (is_slug_key k = true
                          /\ urljoin (base_url cfg) ("/course/" ++ s) = j)))
    as Hjoined.
  { intros j. unfold joined, entry_join. split.
    - intros (k & s & Hin & [[Hc ->]|[Hk ->]]); exists k, s; auto.
    - intros (k & s & Hin & [[Hc <-]|[Hk <-]]); exists k, s; auto. }
  destruct (_extract_course_links_from_json cfg payload) as [e|links];
    simpl in Hs.
  - split; [|split; [done|]].
    + split; [by intros (? & ?)|]. intros Hall.
      destruct Hs as (k & s & Hin & Hj).
      by destruct (Hall k s _ Hin Hj) as (u & ?).
    + intros ? [= <-]. by apply Hjoined.
  - destruct Hs as [Hno Hmem]. split; [|split; [|done]].
    + split; [|by exists links]. intros _ k s [e|u] Hin Hj; [|by exists u].
      destruct (Hno e). by exists k, s.
    + intros ? [= <-] u. rewrite Hmem, Hjoined. set_solver.
Qed.

Lemma json_links_characterised_witness :
  let payload := JObject [("items", JArray [JObject [("slug", JString "a")]])] in
  _extract_course_links_from_json default_config payload
  = inr {["https://www.classcentral.com/course/a"]}
  /\ ("https://www.classcentral.com/course/a"
        ∈ ({["https://www.classcentral.com/course/a"]} : gset string)
      <-> exists k s,
            entry_in k (JString s) payload
            /\ ((contains "/course/" s = true
                 /\ canonical_url (base_url default_config) s
                    = inr "https://www.classcentral.com/course/a")
                \/ (is_slug_key k = true
                    /\ urljoin (base_url default_config) ("/course/" ++ s)
                       = inr "https://www.classcentral.com/course/a"))).
Proof.
  cbv zeta.
  assert (_extract_course_links_from_json default_config
            (JObject [("items", JArray [JObject [("slug", JString "a")]])])
          = inr {["https://www.classcentral.com/course/a"]}) as Hx
    by (vm_compute; reflexivity).
  split; [exact Hx|].
  destruct (json_links_characterised default_config
              (JObject [("items", JArray [JObject [("slug", JString "a")]])]))
    as (_ & Hmem & _).
  exact (Hmem _ Hx "https://www.classcentral.com/course/a").
Defined.

(** The outcome of a walk, carried on from the set it starts from. *)
Lemma carry_bind found (r : Exception + gset string)
    (rest : gset string -> Exception + gset string) :
  (forall urls, rest (found ∪ urls) = carry found (rest urls)) ->
  match carry found r with inl e => inl e | inr urls => rest urls end
  = carry found (match r with inl e => inl e | inr urls => rest urls end).
Proof. intros Hrest. destruct r as [e|urls]; simpl; [done|apply Hrest]. Qed.

Lemma carry_empty (r : Exception + gset string) : carry ∅ r = r.
Proof. destruct r as [e|urls]; simpl; [done|]. f_equal. set_solver. Qed.

Lemma walk_carry `{HostValidation} base node :
  forall found urls,
    walk base node (found ∪ urls) = carry found (walk base node urls).
Proof.
  induction node as [|b|n|l|s|items IH|members IH] using JSON_nested_ind;
    intros found urls; try done.
  - revert found urls. induction IH as [|x xs Hx Hxs IHxs]; intros found urls;
      [done|].
    rewrite !walk_array, Hx. apply carry_bind. intros known. apply IHxs.
  - revert found urls.
    induction IH as [|[k v] ms Hv Hms IHms]; intros found urls; [done|].
    rewrite !walk_object. simpl in Hv.
    assert (add_course_link base v (found ∪ urls)
            = carry found (add_course_link base v urls)) as ->.
    { destruct v; simpl; try done. destruct (contains "/course/" s); [|done].
      destruct (canonical_url base s); simpl; [done|]. f_equal.
      unfold add. set_solver. }
    apply carry_bind. intros known1.
    assert (add_slug_link base k v (found ∪ known1)
            = carry found (add_slug_link base k v known1)) as ->.
    { destruct v; simpl; try done. destruct (is_slug_key k); [|done].
      destruct (urljoin base ("/course/" ++ s)); simpl; [done|]. f_equal.
      unfold add. set_solver. }
    apply carry_bind. intros known2. rewrite Hv.
    apply carry_bind. intros known3. apply IHms.
Qed.

Lemma walk_from_empty `{HostValidation} base node found :
  walk base node found = carry found (walk base node ∅).
Proof.
  rewrite <- walk_carry. f_equal. set_solver.
Qed.

Lemma walk_array_app `{HostValidation} base l1 l2 found :
  walk base (JArray (l1 ++ l2)) found
  = match walk base (JArray l1) found with
    | inl e => inl e
    | inr known => walk base (JArray l2) known
    end.
Proof.
  revert found. induction l1 as [|x l1 IH]; intros found; [done|].
  rewrite <- app_comm_cons, !walk_array.
  destruct (walk base x found) as [e|known]; [done|apply IH].
Qed.

Lemma walk_object_app `{HostValidation} base m1 m2 found :
  walk base (JObject (m1 ++ m2)) found
  = match walk base (JObject m1) found with
    | inl e => inl e
    | inr known => walk base (JObject m2) known
    end.
Proof.
  revert found. induction m1 as [|[k v] m1 IH]; intros found; [done|].
  rewrite <- app_comm_cons, !walk_object.
  destruct (add_course_link base v found) as [e|f1]; [done|].
  destruct (add_slug_link base k v f1) as [e|f2]; [done|].
  destruct (walk base v f2) as [e|f3]; [done|apply IH].
Qed.

(** X8.  Extraction distributes over the items of a list and over the
    members of an object: what it makes of a concatenation is the union
    of what it makes of the parts, the exception of the first part that
    raises when one does. *)
Theorem json_links_of_parts `{HostValidation} cfg :
  (forall l1 l2,
     _extract_course_links_from_json cfg (JArray (l1 ++ l2))
     = union_outcomes (_extract_course_links_from_json cfg (JArray l1))
         (_extract_course_links_from_json cfg (JArray l2)))
  /\ (forall m1 m2,
        _extract_course_links_from_json cfg (JObject (m1 ++ m2))
        = union_outcomes (_extract_course_links_from_json cfg (JObject m1))
            (_extract_course_links_from_json cfg (JObject m2))).
Proof.
  unfold _extract_course_links_from_json, union_outcomes. split.
  - intros l1 l2. rewrite walk_array_app.
    destruct (walk (base_url cfg) (JArray l1) ∅) as [e|known]; [done|].
    apply walk_from_empty.
  - intros m1 m2. rewrite walk_object_app.
    destruct (walk (base_url cfg) (JObject m1) ∅) as [e|known]; [done|].
    apply walk_from_empty.
Qed.

(** ** The DOM listing walker *)

(** X9.  When the DOM walker returns, it returns the union of the links
    of the scrolled listing and of the pages it requested, and nothing
    else; it returns exactly when the extraction returns on the scrolled
    listing and on every page it requested. *)
Theorem dom_urls_are_union `{HostValidation} cfg browser :
  ((exists urls, _collect_listing_urls_dom cfg browser = inr urls)
   <-> (exists first, first_links cfg browser = inr first)
       /\ forall p, p ∈ dom_pages_fetched cfg browser ->
                    exists links, page_links cfg browser p = inr links)
  /\ (forall urls,
        _collect_listing_urls_dom cfg browser = inr urls ->
        forall u,
          u ∈ urls
          <-> u ∈ links_of (first_links cfg browser)
              \/ exists p, p ∈ dom_pages_fetched cfg browser
                           /\ u ∈ links_of (page_links cfg browser p)).
Proof.
  unfold _collect_listing_urls_dom, dom_pages_fetched.
  pose proof (dom_walk_cases cfg browser) as Hw.
  destruct (first_links cfg browser) as [e|first]; rewrite Hw.
  { simpl. split; [|done]. split; [by intros (? & ?)|by intros [(? & ?) _]]. }
  pose proof (dom_pagination_spec cfg browser
                (range 2 (max_listing_pages cfg + 1)) first) as Hs.
  destruct (dom_pagination _ _ _ _) as [final fetched]. simpl.
  destruct Hs as (_ & _ & _ & Hfinal). destruct final as [e|known].
  - split; [|done]. split; [by intros (? & ?)|]. intros [_ Hall].
    destruct Hfinal as (f & p & -> & Hp).
    destruct (Hall p) as (links & Hl); [set_solver|congruence].
  - destruct Hfinal as [-> Hall]. split.
    + split; [|by eexists]. intros _. split; [by exists first|done].
    + intros ? [= <-] u. apply elem_of_accumulate.
Qed.

Lemma dom_urls_are_union_witness :
  let urls : gset string :=
    list_to_set ["https://www.classcentral.com/login";
                 "https://www.coursera.org/course/ml"] in
  _collect_listing_urls_dom default_config stray_links_browser = inr urls
  /\ ("https://www.classcentral.com/login" ∈ urls
      <-> "https://www.classcentral.com/login"
          ∈ links_of (first_links default_config stray_links_browser)
          \/ exists p,
               p ∈ dom_pages_fetched default_config stray_links_browser
               /\ "https://www.classcentral.com/login"
                  ∈ links_of (page_links default_config stray_links_browser p)).
Proof.
  cbv zeta.
  assert (_collect_listing_urls_dom default_config stray_links_browser
          = inr (list_to_set ["https://www.classcentral.com/login";
                              "https://www.coursera.org/course/ml"])) as Hx
    by (vm_compute; reflexivity).
  split; [exact Hx|].
  exact (proj2 (dom_urls_are_union default_config stray_links_browser) _ Hx
           "https://www.classcentral.com/login").
Defined.

(** X10.  The pagination requests at most [max_listing_pages - 1] pages,
    each numbered from 2 to [max_listing_pages]. *)
Theorem dom_page_budget `{HostValidation} cfg browser :
  (Z.of_nat (length (dom_pages_fetched cfg browser))
   <= Z.max 0 (max_listing_pages cfg - 1))%Z
  /\ forall p, p ∈ dom_pages_fetched cfg browser ->
               (2 <= p <= max_listing_pages cfg)%Z.
Proof.
  destruct (dom_walk_prefix cfg browser) as (rest & Hps). split.
  - apply (f_equal (@length Z)) in Hps.
    rewrite length_range, length_app in Hps. lia.
  - intros p Hin.
    assert (p ∈ range 2 (max_listing_pages cfg + 1)) as Hr
      by (rewrite Hps; set_solver).
    apply elem_of_range in Hr. lia.
Qed.

(** X11.  With a maximum page count below 2 no paginated page is
    requested, and the walker returns what the extraction makes of the
    scrolled listing. *)
Theorem dom_no_pagination `{HostValidation} cfg browser :
  (max_listing_pages cfg < 2)%Z ->
  dom_pages_fetched cfg browser = []
  /\ _collect_listing_urls_dom cfg browser = first_links cfg browser.
Proof.
  intros Hmax.
  unfold dom_pages_fetched, _collect_listing_urls_dom, dom_walk.
  fold (first_links cfg browser). rewrite range_nil by lia.
  by destruct (first_links cfg browser).
Qed.

Lemma dom_no_pagination_witness :
  dom_pages_fetched one_page_config stray_links_browser = []
  /\ _collect_listing_urls_dom one_page_config stray_links_browser
     = first_links one_page_config stray_links_browser.
Proof.
  apply (dom_no_pagination one_page_config stray_links_browser).
  reflexivity.
Defined.

(** ** The API listing walker *)

(** X12.  The walk of an endpoint issues at most [max_listing_pages]
    requests, and they do not depend on the URLs collected before. *)
Theorem api_request_budget `{HostValidation} cfg net ep urls :
  (Z.of_nat (length (snd (walk_endpoint cfg net ep urls)))
   <= Z.max 0 (max_listing_pages cfg))%Z
  /\ snd (walk_endpoint cfg net ep urls) = snd (walk_endpoint cfg net ep ∅).
Proof.
  split; [|by rewrite walk_endpoint_from_empty].
  destruct (walk_endpoint_spec cfg net ep urls)
    as (_ & _ & (rest & Hps & _) & _).
  apply (f_equal (@length Z)) in Hps. unfold api_pages_fetched in Hps.
  rewrite length_range, length_app, length_map in Hps. lia.
Qed.

(** X13.  The API walker makes, of a list of endpoints, the union of what
    it makes of its parts: an endpoint contributes the same URLs whatever
    the other endpoints brought, and the walker raises with the first
    part that raises. *)
Theorem api_urls_union_of_endpoints `{HostValidation} cfg net e1 e2 :
  _collect_listing_urls_api cfg net (e1 ++ e2)
  = union_outcomes (_collect_listing_urls_api cfg net e1)
      (_collect_listing_urls_api cfg net e2).
Proof.
  unfold _collect_listing_urls_api, union_outcomes. rewrite api_walk_app.
  destruct (fst (api_walk cfg net e1 ∅)) as [e|known]; [done|].
  apply api_walk_from_empty.
Qed.

Lemma api_walk_stopped_at_one `{HostValidation} cfg net ep urls :
  api_stop cfg net ep 1 ->
  fst (walk_endpoint cfg net ep urls) = inr urls
  /\ (api_pages_fetched cfg net ep urls = []
      \/ api_pages_fetched cfg net ep urls = [1%Z]).
Proof.
  intros Hstop.
  destruct (walk_endpoint_spec cfg net ep urls)
    as (_ & _ & (rest & Hps & _) & Hcont & Hfinal).
  destruct (api_pages_fetched cfg net ep urls) as [|p after] eqn:Hf.
  - split; [|by left].
    destruct (fst (walk_endpoint cfg net ep urls)) as [e|known].
    + destruct Hfinal as ([|??] & ? & ? & _); done.
    + by destruct Hfinal as [-> _].
  - assert (p = 1%Z) as ->.
    { simpl in Hps. destruct (decide (1 < max_listing_pages cfg + 1)%Z).
      - rewrite range_cons in Hps by done. by injection Hps.
      - by rewrite range_nil in Hps by lia. }
    assert (after = []) as ->.
    { destruct after as [|x after]; [done|].
      destruct (Hcont [] 1%Z (x :: after) eq_refl); [done|by left]. }
    split; [|by right]. unfold api_stop in Hstop.
    destruct (fst (walk_endpoint cfg net ep urls)) as [e|known].
    + destruct Hfinal as (f & p & Heq & Hp).
      destruct f as [|? [|??]]; try done. injection Heq as <-.
      by rewrite Hp in Hstop.
    + destruct Hfinal as [-> _]. simpl. f_equal.
      destruct (api_page_links cfg net ep 1) as [[e|links]|]; simpl;
        [done| |set_solver]. rewrite Hstop. set_solver.
Qed.

(** X14.  When the first page of an endpoint cannot be fetched, does not
    decode or has no link, the endpoint is given up after that one
    request and adds nothing to the URLs collected. *)
Theorem api_endpoint_abandoned `{HostValidation} cfg net ep urls :
  (1 <= max_listing_pages cfg)%Z ->
  api_stop cfg net ep 1 ->
  api_pages_fetched cfg net ep urls = [1%Z]
  /\ fst (walk_endpoint cfg net ep urls) = inr urls.
Proof.
  intros Hmax Hstop.
  destruct (api_walk_stopped_at_one cfg net ep urls Hstop)
    as [Hfst [Hnil|Hone]]; [|done].
  assert (1%Z ∈ api_pages_fetched cfg net ep urls) as Hin.
  { apply api_fetched_iff. split; [lia|]. intros q Hq. lia. }
  rewrite Hnil in Hin. by apply elem_of_nil in Hin.
Qed.

Lemma api_endpoint_abandoned_witness :
  api_pages_fetched default_config html_only_network search_endpoint ∅ = [1%Z]
  /\ fst (walk_endpoint default_config html_only_network search_endpoint ∅)
     = inr ∅.
Proof.
  apply (api_endpoint_abandoned default_config html_only_network
           search_endpoint ∅).
  - simpl. lia.
  - reflexivity.
Defined.

Lemma render_page_query k v (q : Query) :
  NoDup (map fst q) ->
  map (fun kv => (fst kv ++ "=" ++ fst (snd kv))%string) (dict_set k (v, []) q)
  = map (fun kv => if String.eqb (fst kv) k then (k ++ "=" ++ v)%string
                   else (fst kv ++ "=" ++ fst (snd kv))%string) q
    ++ (if has_key k q then [] else [(k ++ "=" ++ v)%string]).
Proof.
  unfold has_key. induction q as [|[k0 v0] q IH]; intros Hnd; [done|].
  apply NoDup_cons in Hnd as [Hk0 Hnd]. simpl.
  rewrite (String.eqb_sym k0 k).
  destruct (String.eqb k k0) eqn:Hk; simpl.
  - apply String.eqb_eq in Hk as <-. rewrite app_nil_r. f_equal.
    apply map_ext_in. intros [k1 v1] Hin. simpl.
    destruct (String.eqb k1 k) eqn:Hk1; [|done].
    apply String.eqb_eq in Hk1 as ->. destruct Hk0.
    apply list_elem_of_In. apply (in_map fst) in Hin. done.
  - by rewrite (IH Hnd).
Qed.

(** X15.  The request URL for page [n] of an endpoint is its scheme,
    network location and path, then its parameters in their order, each
    with its first value, joined by [&]: the page parameter with [n] for
    its value where it stood, or added last when the endpoint had
    none. *)
Theorem page_request_keeps_parameters ep n :
  NoDup (map fst (ep_query ep)) ->
  page_request ep n
  = (ep_scheme ep ++ "://" ++ ep_netloc ep ++ ep_path ep ++ "?"
     ++ String.concat "&"
          (map (fun kv =>
                  if String.eqb (fst kv) "page" then "page=" ++ str_of_int n
                  else fst kv ++ "=" ++ fst (snd kv)) (ep_query ep)
           ++ (if has_key "page" (ep_query ep) then []
               else ["page=" ++ str_of_int n])))%string.
Proof.
  intros Hnd. unfold page_request, endpoint_url, query_string, page_query.
  by rewrite render_page_query.
Qed.

Lemma page_request_keeps_parameters_witness :
  NoDup (map fst (ep_query search_endpoint))
  /\ page_request search_endpoint 7
     = "https://www.classcentral.com/api/search?q=python&page=7".
Proof.
  assert (NoDup (map fst (ep_query search_endpoint))) as Hnd.
  { apply NoDup_cons. split; [apply not_elem_of_nil|apply NoDup_nil_2]. }
  split; [exact Hnd|].
  exact (page_request_keeps_parameters search_endpoint 7 Hnd).
Defined.

Lemma api_walk_all_stopped `{HostValidation} cfg net endpoints urls :
  (forall ep, ep ∈ endpoints -> api_stop cfg net ep 1) ->
  fst (api_walk cfg net endpoints urls) = inr urls.
Proof.
  revert urls. induction endpoints as [|ep eps IH]; intros urls Hall; [done|].
  simpl.
  destruct (api_walk_stopped_at_one cfg net ep urls (Hall ep ltac:(left)))
    as [Hfst _].
  destruct (walk_endpoint cfg net ep urls) as [F T]. simpl in Hfst. subst F.
  specialize (IH urls (fun e He => Hall e ltac:(by right))).
  by destruct (api_walk cfg net eps urls).
Qed.

(** X16.  When the first page of every discovered endpoint fails, does not
    decode or has no link (and so when no endpoint was discovered),
    reconciliation gives what the DOM walker gives. *)
Theorem degraded_discovery `{HostValidation} cfg browser net endpoints :
  (forall ep, ep ∈ endpoints -> api_stop cfg net ep 1) ->
  collect_course_urls cfg browser net endpoints
  = _collect_listing_urls_dom cfg browser.
Proof.
  intros Hall. unfold collect_course_urls, _collect_listing_urls_api.
  rewrite api_walk_all_stopped by done.
  destruct (_collect_listing_urls_dom cfg browser) as [e|dom]; [done|].
  f_equal. set_solver.
Qed.

Lemma degraded_discovery_witness :
  collect_course_urls default_config stray_links_browser dead_network
    [search_endpoint; paged_endpoint]
  = _collect_listing_urls_dom default_config stray_links_browser.
Proof.
  apply (degraded_discovery default_config stray_links_browser dead_network
           [search_endpoint; paged_endpoint]).
  intros ep Hep. reflexivity.
Defined.

(** ** The run *)




(** ** The API-endpoint discoverer *)

Lemma on_response_spec found resp :
  on_response found resp
  = if is_api_candidate resp then found ++ [response_url resp] else found.
Proof.
  unfold on_response, is_api_candidate.
  destruct (bool_decide (resource_type resp ∈ ["xhr"; "fetch"])); [|done].
  simpl. by destruct (_ && _).
Qed.

Lemma elem_of_observed responses found u :
  u ∈ fold_left on_response responses found
  <-> u ∈ found
      \/ exists resp, resp ∈ responses /\ is_api_candidate resp = true
                      /\ response_url resp = u.
Proof.
  revert found. induction responses as [|r rs IH]; intros found; simpl.
  - split; [by left|]. intros [H|(resp & H & _)]; [done|].
    by apply elem_of_nil in H.
  - rewrite IH, on_response_spec. clear IH. split.
    + intros [H|(resp & Hin & Hc & Hu)].
      * destruct (is_api_candidate r) eqn:Hr; [|by left].
        apply elem_of_app in H as [H|H]; [by left|].
        apply list_elem_of_singleton in H as ->.
        right. exists r. split; [by left|done].
      * right. exists resp. split; [by right|done].
    + intros [H|(resp & Hin & Hc & Hu)].
      * left. destruct (is_api_candidate r); [|done].
        apply elem_of_app. by left.
      * apply elem_of_cons in Hin as [->|Hin].
        -- left. rewrite Hc. apply elem_of_app. right.
           rewrite Hu. by left.
        -- right. by exists resp.
Qed.

(** X18.  The discoverer returns exactly the URLs of the observed
    responses of resource type [xhr] or [fetch] whose URL contains
    [classcentral.com] and, lower-cased, one of the keywords [search],
    [course], [catalog], [api]. *)
Theorem discovered_endpoints_characterised responses u :
  u ∈ _discover_network_api responses
  <-> exists resp, resp ∈ responses /\ is_api_candidate resp = true
                   /\ response_url resp = u.
Proof.
  unfold _discover_network_api. rewrite sorted_elem_of, elem_of_list_to_set.
  rewrite elem_of_observed. split; [|by right].
  intros [H|H]; [by apply elem_of_nil in H|done].
Qed.

(** X19.  The discovered endpoints come strictly ascending, each once, and
    depend on the set of observed responses only: observing them in
    another order, or again, changes nothing. *)
Theorem discovered_endpoints_sorted responses :
  StronglySorted (strict String.le) (_discover_network_api responses)
  /\ NoDup (_discover_network_api responses)
  /\ (forall responses',
        (forall resp, resp ∈ responses <-> resp ∈ responses') ->
        _discover_network_api responses' = _discover_network_api responses).
Proof.
  split; [apply sorted_ascending|]. split; [apply sorted_NoDup|].
  intros responses' Hsame. unfold _discover_network_api. f_equal.
  apply set_eq. intros u. rewrite !elem_of_list_to_set, !elem_of_observed.
  split; (intros [H|(resp & Hin & H)]; [by left|]); right; exists resp;
    (split; [by apply Hsame|done]).
Qed.

Lemma discovered_endpoints_sorted_witness :
  _discover_network_api (sample_observations ++ sample_observations)
  = _discover_network_api sample_observations.
Proof.
  apply (proj2 (proj2 (discovered_endpoints_sorted sample_observations))).
  intros resp. rewrite elem_of_app. tauto.
Defined.

(** ** The configuration of a command-line run *)

(** X20.  On every configuration the command line can build, the base URL
    is a stable one, a fetch never makes more attempts than
    [max_retries], and it makes exactly that many when every attempt
    raises an [httpx.HTTPError]. *)
Theorem cli_config_properties `{HostValidation} args :
  let cfg := config_of_args args in
  stable_base (base_url cfg)
  /\ (forall net u, (Z.of_nat (attempts cfg net u) <= max_retries cfg)%Z)
  /\ (forall net u,
        (forall i, raises_http_error (net u i) = true) ->
        Z.of_nat (attempts cfg net u) = max_retries cfg).
Proof.
  intros cfg. split; [exact default_base_stable|]. split.
  - intros net u. pose proof (attempts_bounds cfg net u) as Hb.
    unfold stop_after_attempt in Hb. simpl. lia.
  - intros net u Hall.
    destruct (fetch_exhausted cfg net u Hall) as (-> & _). reflexivity.
Qed.

Lemma cli_config_properties_witness :
  Z.of_nat (attempts (config_of_args sample_args) dead_network
              "https://www.classcentral.com/course/x")
  = max_retries (config_of_args sample_args).
Proof.
  apply (proj2 (proj2 (cli_config_properties sample_args))).
  intros i. reflexivity.
Defined.

(** ** The exporters *)

Lemma dict_to_list_record r :
  dict_to_list field_names (to_dict r) = inr (map snd (to_dict r)).
Proof. by destruct r as [u d]. Qed.

Lemma to_dict_keys r : map fst (to_dict r) = field_names.
Proof. by destruct r as [u d]. Qed.

Lemma writerows_records records :
  writerows field_names (map to_dict records)
  = inr (map (fun r => map snd (to_dict r)) records).
Proof.
  induction records as [|r rs IH]; [done|].
  cbn [map writerows]. by rewrite dict_to_list_record, IH.
Qed.

(** X21.  The field check of the CSV writer never raises on a list of
    records.  [export_csv] writes the empty text for the empty list, not
    a header alone; otherwise the header of the sixteen field names and
    one row per record, in order, with the values of [to_dict] under
    their columns. *)
Theorem export_csv_table records :
  export_csv records
  = inr match records with
        | [] => EmptyText
        | _ :: _ =>
            Table field_names (map (fun r => map snd (to_dict r)) records)
        end.
Proof.
  destruct records as [|r rs]; [done|].
  unfold export_csv. cbn [map]. rewrite to_dict_keys.
  change (to_dict r :: map to_dict rs) with (map to_dict (r :: rs)).
  by rewrite writerows_records.
Qed.

(** ** [_extract_jsonld] *)

Lemma first_typed_app l1 l2 :
  first_typed (l1 ++ l2)
  = match first_typed l1 with
    | inr None => first_typed l2
    | outcome => outcome
    end.
Proof.
  induction l1 as [|item l1 IH]; [done|]. simpl.
  destruct item; try done.
  destruct (type_listed members) as [e|[|]]; done.
Qed.

Lemma type_listed_true members :
  type_listed members = inr true
  <-> exists s, member_of "@type" members = Some (JString s)
                /\ s ∈ jsonld_types.
Proof.
  unfold type_listed. split.
  - destruct (member_of "@type" members) as [[]|]; simpl; try done.
    intros [= H%bool_decide_eq_true]. by eexists.
  - intros (s & -> & Hs). by rewrite bool_decide_eq_true_2.
Qed.

Lemma first_typed_found l item :
  first_typed l = inr (Some item) ->
  item ∈ l
  /\ exists members, item = JObject members /\ type_listed members = inr true.
Proof.
  induction l as [|x l IH]; [done|]. simpl. intros H.
  assert (first_typed l = inr (Some item) ->
          item ∈ x :: l
          /\ exists members, item = JObject members
                             /\ type_listed members = inr true) as Hrest.
  { intros [Hin Hm]%IH. split; [by right|done]. }
  destruct x; try by apply Hrest.
  destruct (type_listed members) as [e|[|]] eqn:Ht; [done| |by apply Hrest].
  injection H as <-. split; [by left|]. by exists members.
Qed.

(** X22.  [_extract_jsonld] treats the scripts of a page as one sequence
    of candidates: its outcome is that of the inner loop on all the
    candidates in order, so scripts that are empty or do not decode, and
    the split into scripts, make no difference. *)
Theorem extract_jsonld_flattens scripts :
  _extract_jsonld scripts = first_typed (all_candidates scripts).
Proof.
  unfold all_candidates. induction scripts as [|[data|] rest IH]; [done| |].
  - cbn [_extract_jsonld map concat]. rewrite first_typed_app.
    destruct (first_typed (candidates_of data)) as [e|[item|]]; done.
  - cbn [_extract_jsonld map concat]. by rewrite IH.
Qed.

(** X23.  What [_extract_jsonld] returns is one of the candidates of the
    page, an object whose [@type] is the string [Course],
    [EducationalOccupationalProgram] or [Product]. *)
Theorem extract_jsonld_result scripts item :
  _extract_jsonld scripts = inr (Some item) ->
  item ∈ all_candidates scripts
  /\ exists members s,
       item = JObject members
       /\ member_of "@type" members = Some (JString s)
       /\ s ∈ jsonld_types.
Proof.
  rewrite extract_jsonld_flattens.
  intros (Hin & members & -> & (s & Hs & Hl)%type_listed_true)%first_typed_found.
  split; [done|]. by exists members, s.
Qed.

Lemma extract_jsonld_result_witness :
  JObject [("@type", JString "Course")]
  ∈ all_candidates [None; Some (JArray [JNull; JObject [("@type", JString "Course")]])].
Proof.
  exact (proj1 (extract_jsonld_result
                  [None; Some (JArray [JNull; JObject [("@type", JString "Course")]])]
                  (JObject [("@type", JString "Course")]) eq_refl)).
Defined.

(** X24.  When the first candidate that is an object with a listed or an
    unhashable [@type] has a list or an object for [@type], as JSON-LD
    allows, [_extract_jsonld] raises [TypeError]: the candidates after it
    are not looked at. *)
Theorem extract_jsonld_type_error scripts before members after v :
  all_candidates scripts = before ++ JObject members :: after ->
  first_typed before = inr None ->
  member_of "@type" members = Some v ->
  unhashable v = true ->
  _extract_jsonld scripts = inl (OtherError "TypeError").
Proof.
  intros Hall Hbefore Htype Hv.
  rewrite extract_jsonld_flattens, Hall, first_typed_app, Hbefore.
  simpl. unfold type_listed. rewrite Htype. by destruct v.
Qed.

Lemma extract_jsonld_type_error_witness :
  _extract_jsonld
    [Some (JObject [("@type", JArray [JString "Course"; JString "Thing"])]);
     Some (JObject [("@type", JString "Course")])]
  = inl (OtherError "TypeError").
Proof.
  apply (extract_jsonld_type_error _ []
           [("@type", JArray [JString "Course"; JString "Thing"])]
           [JObject [("@type", JString "Course")]]
           (JArray [JString "Course"; JString "Thing"]));
    reflexivity.
Defined.

(** ** Request URLs *)

Lemma str_of_int_inj p q : str_of_int p = str_of_int q -> p = q.
Proof.
  unfold str_of_int. intros Heq.
  apply (f_equal NilEmpty.int_of_string) in Heq.
  rewrite !NilEmpty.isi in Heq. injection Heq as Heq.
  by apply DecimalZ.to_int_inj.
Qed.

Lemma paged_url_inj cfg p q : paged_url cfg p = paged_url cfg q -> p = q.
Proof.
  unfold paged_url. intros Heq.
  apply (inj (String.app _)) in Heq. apply (inj (String.app _)) in Heq.
  by apply str_of_int_inj.
Qed.

Lemma NoDup_prefix {A} (l1 l2 : list A) : NoDup (l1 ++ l2) -> NoDup l1.
Proof. by intros (? & _)%NoDup_app. Qed.

(** X25.  The DOM pagination requests no page URL twice: the URLs of the
    pages it loads are pairwise different. *)
Theorem dom_requests_distinct `{HostValidation} cfg browser :
  NoDup (map (paged_url cfg) (dom_pages_fetched cfg browser)).
Proof.
  assert (Inj eq eq (paged_url cfg)) by (intros p q; apply paged_url_inj).
  apply (NoDup_fmap_2 (paged_url cfg)).
  destruct (dom_walk_prefix cfg browser) as (rest & Hps).
  apply (NoDup_prefix _ rest). rewrite <- Hps. apply NoDup_range.
Qed.

Lemma dict_set_nonempty k v (q : Query) : dict_set k v q <> [].
Proof.
  destruct q as [|[k' v'] q]; simpl; [done|]. by destruct (String.eqb k k').
Qed.

Lemma lit_concat_cons sep x y (l : list string) :
  Text.lit (String.concat sep (x :: y :: l))
  = Text.lit x ++ Text.lit sep ++ Text.lit (String.concat sep (y :: l)).
Proof. cbn [String.concat]. by rewrite !TextFacts.lit_app. Qed.

(** The query string with the page parameter set: the value sits between
    two texts that do not depend on it. *)
Lemma query_string_frame k (q : Query) :
  exists L R : text,
    forall v, Text.lit (query_string (dict_set k (v, []) q))
              = L ++ Text.lit v ++ R.
Proof.
  unfold query_string. induction q as [|[k0 v0] q IH].
  - exists (Text.lit (k ++ "=")), []. intros v. simpl.
    by rewrite !TextFacts.lit_app, app_nil_r, <- ?app_assoc.
  - cbn [dict_set]. destruct (String.eqb k k0) eqn:Hk.
    + destruct q as [|kv q].
      * exists (Text.lit (k ++ "=")), []. intros v. simpl.
        by rewrite !TextFacts.lit_app, app_nil_r, <- ?app_assoc.
      * eexists (Text.lit (k ++ "=")), _. intros v.
        cbn [map]. rewrite lit_concat_cons. cbn [fst snd].
        rewrite !TextFacts.lit_app, <- !app_assoc. reflexivity.
    + destruct IH as (L & R & IH).
      exists (Text.lit (k0 ++ "=" ++ fst v0 ++ "&") ++ L), R.
      intros v. specialize (IH v).
      pose proof (dict_set_nonempty k (v, []) q) as Hne.
      destruct (dict_set k (v, []) q) as [|kv q']; [done|].
      cbn [map] in *. rewrite lit_concat_cons, IH. cbn [fst snd].
      by rewrite !TextFacts.lit_app, <- !app_assoc.
Qed.

Lemma page_request_inj ep p q : page_request ep p = page_request ep q -> p = q.
Proof.
  unfold page_request, endpoint_url, page_query. intros Heq.
  do 5 apply (inj (String.app _)) in Heq.
  destruct (query_string_frame "page" (ep_query ep)) as (L & R & Hframe).
  apply (f_equal Text.lit) in Heq. rewrite !Hframe in Heq.
  apply app_inv_head, app_inv_tail in Heq.
  by apply str_of_int_inj, TextFacts.lit_inj.
Qed.

(** X26.  The walk of one endpoint requests no URL twice: the request
    URLs it issues, one per page number, are pairwise different. *)
Theorem api_requests_distinct `{HostValidation} cfg net ep urls :
  NoDup (map snd (snd (walk_endpoint cfg net ep urls))).
Proof.
  destruct (walk_endpoint_spec cfg net ep urls)
    as (-> & _ & (rest & Hps & _) & _).
  assert (Inj eq eq (page_request ep)) by (intros p q; apply page_request_inj).
  apply (NoDup_fmap_2 (page_request ep)).
  apply (NoDup_prefix _ rest). rewrite <- Hps. apply NoDup_range.
Qed.
